(** * ts-csv: the CSV reader and its lookahead iterator

    A shallow embedding of [src/reader.ts] and [src/iterator.ts].

    - JavaScript strings are [string]s, a character is an [ascii]
      (code points 0 to 255; the reader only compares characters).
    - Objects mutated in place ([Reader], [HasNextIterator]) are records
      passed through every call; a thrown [Error] is the [Throw] outcome,
      which keeps the state the object was left in.
    - The loops of [Reader.next] and of the generators run on fuel that
      the entry points compute from the input; they are proved to have
      enough of it. *)

From Stdlib Require Import ZArith Lia Ascii String.
From stdpp Require Import base option list strings pretty gmap.

Local Open Scope list_scope.

(** ** Characters the source names *)

Definition NUL : ascii := "000"%char.
Definition LF : ascii := "010"%char.
Definition CR : ascii := "013"%char.
Definition SPACE : ascii := " "%char.
Definition DQUOTE : ascii := "034"%char.

Definition chr (c : ascii) : string := String c EmptyString.

(** [s.endsWith(t)]: some suffix of [s] is [t]. *)
Fixpoint endsWith (s t : string) : bool :=
  String.eqb s t
  || match s with
     | String _ s' => endsWith s' t
     | EmptyString => false
     end.

(** ** iterator.ts *)

Module HasNextIterator.
Section Def.
Context {T : Type}.

(** [iterator] holds what the underlying array or string iterator has
    not produced yet, [nextValues] is the buffer of the class. *)
Record t : Type := mk { iterator : list T; nextValues : list T }.

Definition new (iterable : list T) : t :=
  {| iterator := iterable; nextValues := [] |}.

(** [None] stands for [{value: undefined, done: true}]. *)
Definition next (it : t) : option T * t :=
  match nextValues it with
  | v :: vs => (Some v, {| iterator := iterator it; nextValues := vs |})
  | [] =>
      match iterator it with
      | x :: xs => (Some x, {| iterator := xs; nextValues := [] |})
      | [] => (None, it)
      end
  end.

Definition hasNext (it : t) : bool * t :=
  match nextValues it with
  | _ :: _ => (true, it)
  | [] =>
      let '(res, it') := next it in
      match res with
      | Some value =>
          (true, {| iterator := iterator it';
                    nextValues := nextValues it' ++ [value] |})
      | None => (false, it')
      end
  end.

(** The elements still to come, in the order [next] will give them. *)
Definition pending (it : t) : list T := nextValues it ++ iterator it.

(** A client's calls, and the values its [next] calls return. *)
Inductive call : Type := CallNext | CallHasNext.

Fixpoint run (cs : list call) (it : t) : list (option T) * t :=
  match cs with
  | [] => ([], it)
  | CallNext :: cs' =>
      let '(v, it1) := next it in
      let '(vs, it2) := run cs' it1 in
      (v :: vs, it2)
  | CallHasNext :: cs' => run cs' (snd (hasNext it))
  end.

Definition isNext (c : call) : bool :=
  match c with CallNext => true | CallHasNext => false end.
End Def.
Arguments t : clear implicits.
End HasNextIterator.

(** ** dialect.ts *)

(** Modelled from the spec: the [Quoting] enum of [dialect.ts], which is
    not among the sources (spec, data model: the four quoting modes). *)
Inductive Quoting : Type := MINIMAL | ALL | NON_NUMERIC | NONE.

(** Modelled from the spec: the [Dialect] interface of [dialect.ts],
    which is not among the sources (spec, data model: a delimiter
    character, optional quote and escape characters, two flags, the line
    terminator, the quoting mode and strictness; [reader.spec.ts] reads
    the same fields). [None] is an unset ([undefined]) character. *)
Record Dialect : Type := {
  delimiter : ascii;
  quoteChar : option ascii;
  escapeChar : option ascii;
  doubleQuote : bool;
  skipInitialSpace : bool;
  lineTerminator : string;
  quoting : Quoting;
  strict : bool
}.

(** Modelled from the spec: the [excel] preset of [dialect.ts] (spec,
    data model: the defaults of every field). *)
Definition excel : Dialect := {|
  delimiter := ","%char;
  quoteChar := Some DQUOTE;
  escapeChar := None;
  doubleQuote := true;
  skipInitialSpace := false;
  lineTerminator := String CR (chr LF);
  quoting := MINIMAL;
  strict := false
|}.

Definition Quoting_eqb (a b : Quoting) : bool :=
  match a, b with
  | MINIMAL, MINIMAL | ALL, ALL | NON_NUMERIC, NON_NUMERIC | NONE, NONE => true
  | _, _ => false
  end.

(** [c === d] for a character [c] and an optional character [d]. *)
Definition isChar (c : ascii) (d : option ascii) : bool :=
  match d with
  | Some x => Ascii.eqb c x
  | None => false
  end.

(** A character inside a template literal. *)
Definition showChar (d : option ascii) : string :=
  match d with
  | Some x => chr x
  | None => "undefined"
  end.

(** ** Field values

    [Number(text)] is the host's string-to-number conversion,
    StringToNumber: the text without the white space around it is empty
    (zero), a signed decimal literal or [Infinity], or an unsigned
    hexadecimal, octal or binary integer literal; anything else is NaN.
    The value of the literal is rounded to a double, to the nearest one
    and to the one with an even significand when halfway.
    [Finite s m e] is the double [(-1)^s * m * 2^e] with [m] odd; the
    two zeros are [Finite s 0 0]. *)

Inductive number : Type :=
| NaN
| Infinity (negative : bool)
| Finite (negative : bool) (mantissa exponent : Z).

Definition isNaN (n : number) : bool :=
  match n with NaN => true | _ => false end.

Module NumberModel.
Definition code (c : ascii) : Z := Z.of_nat (nat_of_ascii c).

(** StrWhiteSpaceChar, up to code point 255. *)
Definition isWhiteSpace (c : ascii) : bool :=
  let n := code c in
  ((9 <=? n) && (n <=? 13) || (n =? 32) || (n =? 160))%Z.

Definition digitValue (c : ascii) : option Z :=
  let n := code c in
  if ((48 <=? n) && (n <=? 57))%Z then Some (n - 48)%Z
  else if ((97 <=? n) && (n <=? 102))%Z then Some (n - 87)%Z
  else if ((65 <=? n) && (n <=? 70))%Z then Some (n - 55)%Z
  else None.

Definition isDecimalDigit (c : ascii) : bool :=
  ((48 <=? code c) && (code c <=? 57))%Z.

(** The value of a run of digits in [radix]; [None] on any other
    character. *)
Fixpoint digits (radix acc : Z) (l : list ascii) : option Z :=
  match l with
  | [] => Some acc
  | c :: l' =>
      match digitValue c with
      | Some d =>
          if (d <? radix)%Z then digits radix (acc * radix + d)%Z l'
          else None
      | None => None
      end
  end.

Definition nonEmptyDigits (radix : Z) (l : list ascii) : option Z :=
  match l with
  | [] => None
  | _ => digits radix 0 l
  end.

Fixpoint span (p : ascii -> bool) (l : list ascii)
  : list ascii * list ascii :=
  match l with
  | c :: l' =>
      if p c then let '(a, b) := span p l' in (c :: a, b) else ([], l)
  | [] => ([], [])
  end.

(** [m * 2^e] with the factors two of [m] moved to the exponent. *)
Fixpoint stripTwos (fuel : nat) (m e : Z) : Z * Z :=
  match fuel with
  | O => (m, e)
  | S fuel' =>
      if Z.even m then stripTwos fuel' (m / 2)%Z (e + 1)%Z else (m, e)
  end.

(** The double [m * 2^e], for [m > 0]. *)
Definition double (negative : bool) (m e : Z) : number :=
  let '(m', e') := stripTwos (Z.to_nat (Z.log2 m)) m e in
  Finite negative m' e'.

(** [n / (d * 2^k)] as a fraction of integers. *)
Definition scaled (n d k : Z) : Z * Z :=
  if (0 <=? k)%Z then (n, d * 2 ^ k)%Z else (n * 2 ^ (- k), d)%Z.

(** The integer part of the binary logarithm of [n / d], for
    [n, d > 0]. *)
Definition log2Ratio (n d : Z) : Z :=
  let l := (Z.log2 n - Z.log2 d)%Z in
  let '(a, b) := scaled n d l in
  if (b <=? a)%Z then l else (l - 1)%Z.

(** The Number value for the fraction [n / d], with [n >= 0] and
    [d > 0]: [n / d] is scaled by the power of two [k] that leaves 53
    bits before the binary point (fewer in the subnormal range, where
    [k] stays at -1074), rounded to the nearest integer, to the even one
    when halfway, and is infinite from [2^1024] on. *)
Definition roundToDouble (negative : bool) (n d : Z) : number :=
  if (n =? 0)%Z then Finite negative 0 0
  else
    let k := Z.max (log2Ratio n d - 52) (-1074) in
    let '(a, b) := scaled n d k in
    let q := (a / b)%Z in
    let r := (a mod b)%Z in
    let q' :=
      if (2 * r <? b)%Z then q
      else if (b <? 2 * r)%Z then (q + 1)%Z
      else if Z.even q then q else (q + 1)%Z in
    if (q' =? 0)%Z then Finite negative 0 0
    else if (1024 <=? Z.log2 q' + k)%Z then Infinity negative
    else double negative q' k.

(** The Number value for [m * 10^e], where [m] was read from [len]
    digits. A value of at least [10^311] is infinite and one below
    [10^-330] is zero, as the rounding would give; the two tests spare
    the powers of ten. *)
Definition decimal (negative : bool) (m : Z) (len : nat) (e : Z) : number :=
  if (m =? 0)%Z then Finite negative 0 0
  else if (310 <? e)%Z then Infinity negative
  else if (Z.of_nat len + e <? -330)%Z then Finite negative 0 0
  else if (0 <=? e)%Z then roundToDouble negative (m * 10 ^ e) 1
  else roundToDouble negative m (10 ^ (- e)).

(** ExponentPart, or nothing. *)
Definition exponentPart (l : list ascii) : option Z :=
  match l with
  | [] => Some 0%Z
  | c :: l' =>
      if Ascii.eqb c "e" || Ascii.eqb c "E" then
        match l' with
        | s :: l'' =>
            if Ascii.eqb s "+" then nonEmptyDigits 10 l''
            else if Ascii.eqb s "-" then Z.opp <$> nonEmptyDigits 10 l''
            else nonEmptyDigits 10 l'
        | [] => None
        end
      else None
  end.

(** StrUnsignedDecimalLiteral, with the sign already read. *)
Definition unsignedDecimal (negative : bool) (l : list ascii) : number :=
  if String.eqb (string_of_list_ascii l) "Infinity" then Infinity negative
  else
    let '(ip, rest) := span isDecimalDigit l in
    let '(fp, rest') :=
      match rest with
      | c :: r => if Ascii.eqb c "." then span isDecimalDigit r
                  else ([], rest)
      | [] => ([], rest)
      end in
    match ip ++ fp with
    | [] => NaN
    | ds =>
        match digits 10 0 ds, exponentPart rest' with
        | Some m, Some e =>
            decimal negative m (length ds) (e - Z.of_nat (length fp))%Z
        | _, _ => NaN
        end
    end.

Definition radixLiteral (radix : Z) (l : list ascii) : number :=
  match nonEmptyDigits radix l with
  | Some m => roundToDouble false m 1
  | None => NaN
  end.

Definition trim (l : list ascii) : list ascii :=
  let l1 := snd (span isWhiteSpace l) in
  rev (snd (span isWhiteSpace (rev l1))).

(** StringToNumber *)
Definition stringToNumber (s : string) : number :=
  match trim (list_ascii_of_string s) with
  | [] => Finite false 0 0
  | c :: l =>
      if Ascii.eqb c "+" then unsignedDecimal false l
      else if Ascii.eqb c "-" then unsignedDecimal true l
      else
        match l with
        | x :: l' =>
            if Ascii.eqb c "0" && (Ascii.eqb x "x" || Ascii.eqb x "X")
            then radixLiteral 16 l'
            else if Ascii.eqb c "0" && (Ascii.eqb x "o" || Ascii.eqb x "O")
            then radixLiteral 8 l'
            else if Ascii.eqb c "0" && (Ascii.eqb x "b" || Ascii.eqb x "B")
            then radixLiteral 2 l'
            else unsignedDecimal false (c :: l)
        | [] => unsignedDecimal false (c :: l)
        end
  end.
End NumberModel.

Definition Number (s : string) : number := NumberModel.stringToNumber s.

(** [Field = string | number] and [Row = Field[]]. *)
Inductive Field : Type :=
| FString (s : string)
| FNumber (n : number).

Definition Row : Type := list Field.

(** ** reader.ts: the Reader *)

Inductive ParserState : Type :=
| START_RECORD
| START_FIELD
| ESCAPED_CHAR
| IN_FIELD
| IN_QUOTED_FIELD
| ESCAPE_IN_QUOTED_FIELD
| QUOTE_IN_QUOTED_FIELD
| AFTER_ESCAPED_CRLF.

Definition ParserState_eqb (a b : ParserState) : bool :=
  match a, b with
  | START_RECORD, START_RECORD | START_FIELD, START_FIELD
  | ESCAPED_CHAR, ESCAPED_CHAR | IN_FIELD, IN_FIELD
  | IN_QUOTED_FIELD, IN_QUOTED_FIELD
  | ESCAPE_IN_QUOTED_FIELD, ESCAPE_IN_QUOTED_FIELD
  | QUOTE_IN_QUOTED_FIELD, QUOTE_IN_QUOTED_FIELD
  | AFTER_ESCAPED_CRLF, AFTER_ESCAPED_CRLF => true
  | _, _ => false
  end.

Record Reader : Type := mkReader {
  dialect : Dialect;
  lines : HasNextIterator.t string;
  fields : Row;
  field : string;
  numericField : bool;
  state : ParserState;
  lineNum : nat
}.

Definition set_lines (l : HasNextIterator.t string) (r : Reader) : Reader :=
  mkReader (dialect r) l (fields r) (field r) (numericField r) (state r)
    (lineNum r).
Definition set_fields (fs : Row) (r : Reader) : Reader :=
  mkReader (dialect r) (lines r) fs (field r) (numericField r) (state r)
    (lineNum r).
Definition set_field (f : string) (r : Reader) : Reader :=
  mkReader (dialect r) (lines r) (fields r) f (numericField r) (state r)
    (lineNum r).
Definition set_numericField (b : bool) (r : Reader) : Reader :=
  mkReader (dialect r) (lines r) (fields r) (field r) b (state r) (lineNum r).
Definition set_state (s : ParserState) (r : Reader) : Reader :=
  mkReader (dialect r) (lines r) (fields r) (field r) (numericField r) s
    (lineNum r).
Definition set_lineNum (n : nat) (r : Reader) : Reader :=
  mkReader (dialect r) (lines r) (fields r) (field r) (numericField r)
    (state r) n.

(** How a method call ends: it returns [a], or it throws an [Error] with
    [message]; either way the Reader is left as [r]. *)
Inductive Outcome (A : Type) : Type :=
| Normal (a : A) (r : Reader)
| Throw (message : string) (r : Reader).
Arguments Normal {A} a r.
Arguments Throw {A} message r.

Definition after {A : Type} (o : Outcome A) : Reader :=
  match o with Normal _ r => r | Throw _ r => r end.

(** [IteratorResult<Row>] as [Reader.next] builds it. *)
Record IteratorResult : Type := { value : Row; done : bool }.

(** The end marker of [next]: [{value: [], done: true}]. *)
Definition endMarker : IteratorResult := {| value := []; done := true |}.

(** [splitLines]: the text up to and including each match of
    [/\r\n|\r|\n/g]; [cur] is the text since the last match. What follows
    the last match is not yielded. *)
Fixpoint splitLinesFrom (cur : string) (s : string) : list string :=
  match s with
  | EmptyString => []
  | String c rest =>
      if Ascii.eqb c CR then
        match rest with
        | String c' rest' =>
            if Ascii.eqb c' LF then
              (cur +:+ String CR (chr LF)) :: splitLinesFrom "" rest'
            else (cur +:+ chr CR) :: splitLinesFrom "" rest
        | EmptyString => (cur +:+ chr CR) :: splitLinesFrom "" rest
        end
      else if Ascii.eqb c LF then (cur +:+ chr LF) :: splitLinesFrom "" rest
      else splitLinesFrom (cur +:+ chr c) rest
  end.

Definition splitLines (s : string) : list string := splitLinesFrom "" s.

(** [line.replace(/\r\n$/, '\n')] *)
Definition replaceCrlfAtEnd (line : string) : string :=
  if endsWith line (String CR (chr LF)) then
    String.substring 0 (String.length line - 2) line +:+ chr LF
  else line.

(** The source as the constructor leaves it before splitting. *)
Definition terminated (source : string) : string :=
  if negb (String.length source =? 0)%nat && negb (endsWith source (chr LF))
  then source +:+ chr LF
  else source.

Definition sourceLines (source : string) : list string :=
  replaceCrlfAtEnd <$> splitLines (terminated source).

(** [new Reader(source, dialect)] *)
Definition newReader (source : string) (d : Dialect) : Reader :=
  {| dialect := d;
     lines := HasNextIterator.new (sourceLines source);
     fields := [];
     field := "";
     numericField := false;
     state := START_RECORD;
     lineNum := 0 |}.

Definition endOfRecord (c : ascii) : bool :=
  Ascii.eqb c LF || Ascii.eqb c CR.

(** [endOfData(chars, lines)]: [&&] calls [lines.hasNext()] only when
    [chars.hasNext()] is false. Both iterators come back as the calls
    left them. *)
Definition endOfData (chars : HasNextIterator.t ascii)
    (lines : HasNextIterator.t string)
  : bool * HasNextIterator.t ascii * HasNextIterator.t string :=
  let '(more, chars') := HasNextIterator.hasNext chars in
  if more then (false, chars', lines)
  else
    let '(moreLines, lines') := HasNextIterator.hasNext lines in
    (negb moreLines, chars', lines').

Definition error {A : Type} (message : string) (r : Reader) : Outcome A :=
  Throw (message +:+ ", at line " +:+ pretty (lineNum r)) r.

Definition addChar (c : ascii) (r : Reader) : Reader :=
  set_field (field r +:+ chr c) r.

Definition saveField (r : Reader) : Outcome unit :=
  if numericField r then
    let r1 := set_numericField false r in
    let f := Number (field r1) in
    if isNaN f then
      error ("could not convert string to number: " +:+ field r1) r1
    else Normal tt (set_field "" (set_fields (fields r1 ++ [FNumber f]) r1))
  else
    Normal tt (set_field "" (set_fields (fields r ++ [FString (field r)]) r)).

(** [saveField(); state = s] *)
Definition saveFieldThen (s : ParserState) (chars : HasNextIterator.t ascii)
    (r : Reader) : Outcome (HasNextIterator.t ascii) :=
  match saveField r with
  | Normal _ r' => Normal chars (set_state s r')
  | Throw m r' => Throw m r'
  end.

Definition isQuote (c : ascii) (d : Dialect) : bool :=
  isChar c (quoteChar d) && negb (Quoting_eqb (quoting d) NONE).

(** The [switch] of [processChar] on the state [s], for the six states
    that do not dispatch again. *)
Definition processCharAt (s : ParserState) (c : ascii)
    (chars : HasNextIterator.t ascii) (r : Reader)
  : Outcome (HasNextIterator.t ascii) :=
  let d := dialect r in
  match s with
  | START_FIELD =>
      if endOfRecord c then saveFieldThen START_RECORD chars r
      else if isQuote c d then Normal chars (set_state IN_QUOTED_FIELD r)
      else if isChar c (escapeChar d) then
        Normal chars (set_state ESCAPED_CHAR r)
      else if Ascii.eqb c SPACE && skipInitialSpace d then Normal chars r
      else if Ascii.eqb c (delimiter d) then
        match saveField r with
        | Normal _ r' => Normal chars r'
        | Throw m r' => Throw m r'
        end
      else
        let r1 :=
          if Quoting_eqb (quoting d) NON_NUMERIC
          then set_numericField true r else r in
        Normal chars (set_state IN_FIELD (addChar c r1))
  | ESCAPED_CHAR =>
      if endOfRecord c then
        Normal chars (set_state AFTER_ESCAPED_CRLF (addChar c r))
      else Normal chars (set_state IN_FIELD (addChar c r))
  | IN_FIELD =>
      if endOfRecord c then saveFieldThen START_RECORD chars r
      else if isChar c (escapeChar d) then
        Normal chars (set_state ESCAPED_CHAR r)
      else if Ascii.eqb c (delimiter d) then saveFieldThen START_FIELD chars r
      else Normal chars (addChar c r)
  | IN_QUOTED_FIELD =>
      let '(eod, chars', lines') := endOfData chars (lines r) in
      let r0 := set_lines lines' r in
      if eod then Normal chars' r0
      else if isChar c (escapeChar d) then
        Normal chars' (set_state ESCAPE_IN_QUOTED_FIELD r0)
      else if isQuote c d then
        if doubleQuote d then
          Normal chars' (set_state QUOTE_IN_QUOTED_FIELD r0)
        else Normal chars' (set_state IN_FIELD r0)
      else Normal chars' (addChar c r0)
  | ESCAPE_IN_QUOTED_FIELD =>
      Normal chars (set_state IN_QUOTED_FIELD (addChar c r))
  | QUOTE_IN_QUOTED_FIELD =>
      if negb (Quoting_eqb (quoting d) NONE) && isChar c (quoteChar d) then
        Normal chars (set_state IN_QUOTED_FIELD (addChar c r))
      else if Ascii.eqb c (delimiter d) then saveFieldThen START_FIELD chars r
      else if endOfRecord c then saveFieldThen START_RECORD chars r
      else if negb (strict d) then
        Normal chars (set_state IN_FIELD (addChar c r))
      else
        error (chr DQUOTE +:+ chr (delimiter d) +:+ chr DQUOTE
               +:+ " expected after "
               +:+ chr DQUOTE +:+ showChar (quoteChar d) +:+ chr DQUOTE) r
  | START_RECORD | AFTER_ESCAPED_CRLF => Normal chars r
  end.

(** [processChar(c, chars)]. In START_RECORD and AFTER_ESCAPED_CRLF the
    method sets the state and calls itself; that call runs the case of
    the state just set. *)
Definition processChar (c : ascii) (chars : HasNextIterator.t ascii)
    (r : Reader) : Outcome (HasNextIterator.t ascii) :=
  match state r with
  | START_RECORD =>
      if endOfRecord c then Normal chars r
      else processCharAt START_FIELD c chars (set_state START_FIELD r)
  | AFTER_ESCAPED_CRLF =>
      if endOfRecord c then Normal chars r
      else processCharAt IN_FIELD c chars (set_state IN_FIELD r)
  | s => processCharAt s c chars r
  end.

(** [for (const c of chars) { ... }] in [next]. [None]: out of fuel. *)
Fixpoint feedChars (fuel : nat) (chars : HasNextIterator.t ascii)
    (r : Reader) : option (Outcome unit) :=
  match fuel with
  | O => None
  | S fuel' =>
      let '(res, chars1) := HasNextIterator.next chars in
      match res with
      | None => Some (Normal tt r)
      | Some c =>
          if Ascii.eqb c NUL then Some (error "line contains NULL byte" r)
          else
            match processChar c chars1 r with
            | Normal chars2 r' => feedChars fuel' chars2 r'
            | Throw m r' => Some (Throw m r')
            end
      end
  end.

(** One line of the source through the transition function. *)
Definition feedLine (line : string) (r : Reader) : option (Outcome unit) :=
  feedChars (S (String.length line))
    (HasNextIterator.new (list_ascii_of_string line)) r.

Definition reset (r : Reader) : Reader :=
  set_numericField false (set_state START_RECORD (set_fields [] r)).

(** The end of [next]: the row is a copy of [fields], which is emptied. *)
Definition returnRow (r : Reader) : Outcome IteratorResult :=
  Normal {| value := fields r; done := false |} (set_fields [] r).

(** [!line]: the lines are exhausted, or the line is the empty string. *)
Definition noLine (res : option string) : bool :=
  match res with
  | None => true
  | Some line => (String.length line =? 0)%nat
  end.

(** The [do ... while] loop of [next]. [None]: out of fuel. *)
Fixpoint nextLoop (fuel : nat) (r : Reader)
  : option (Outcome IteratorResult) :=
  match fuel with
  | O => None
  | S fuel' =>
      let '(result, lines1) := HasNextIterator.next (lines r) in
      let r1 := set_lines lines1 r in
      if noLine result then
        if negb (String.length (field r1) =? 0)%nat
           || ParserState_eqb (state r1) IN_QUOTED_FIELD
        then
          if strict (dialect r1) then
            Some (error "unexpected end of data" r1)
          else
            match saveField r1 with
            | Normal _ r2 => Some (returnRow r2)
            | Throw m r2 => Some (Throw m r2)
            end
        else Some (Normal endMarker r1)
      else
        let line := default "" result in
        let r2 := set_lineNum (S (lineNum r1)) r1 in
        match feedLine line r2 with
        | None => None
        | Some (Throw m r3) => Some (Throw m r3)
        | Some (Normal _ r3) =>
            if ParserState_eqb (state r3) START_RECORD then
              Some (returnRow r3)
            else nextLoop fuel' r3
        end
  end.

(** [Reader.next()] *)
Definition next (r : Reader) : option (Outcome IteratorResult) :=
  nextLoop (S (length (HasNextIterator.pending (lines r)))) (reset r).

(** What a generator did: the values it yielded, then the [Error] it
    threw, if any. *)
Record Generated (Y : Type) : Type := {
  yielded : list Y;
  thrown : option string
}.
Arguments yielded {Y} g.
Arguments thrown {Y} g.

(** [for (const row of reader) { ... }] in a generator whose body yields
    [body row]. [None]: out of fuel. *)
Fixpoint forOf {Y : Type} (fuel : nat) (body : Row -> list Y) (r : Reader)
  : option (Generated Y) :=
  match fuel with
  | O => None
  | S fuel' =>
      match next r with
      | None => None
      | Some (Throw m _) => Some {| yielded := []; thrown := Some m |}
      | Some (Normal res r') =>
          if done res then Some {| yielded := []; thrown := None |}
          else
            match forOf fuel' body r' with
            | None => None
            | Some g =>
                Some {| yielded := body (value res) ++ yielded g;
                        thrown := thrown g |}
            end
      end
  end.

Definition rowsLeft (r : Reader) : nat :=
  S (S (length (HasNextIterator.pending (lines r)))).

(** [reader(source, {dialect})] *)
Definition reader (source : string) (d : Dialect)
  : option (Generated Row) :=
  let r := newReader source d in
  forOf (rowsLeft r) (fun row => [row]) r.

(** ** reader.ts: recordReader *)

(** What a record holds under a key: a field, the array of surplus
    fields, or [undefined]. *)
Inductive Value : Type :=
| VField (f : Field)
| VArray (fs : list Field)
| VUndefined.

(** What is used as a key: a header, or the unset rest key. *)
Inductive Key : Type :=
| KField (f : Field)
| KUndefined.

Record RecordReaderOpts : Type := {
  opt_dialect : option Dialect;
  opt_fields : option (list string);
  opt_restKey : option string;
  opt_restVal : option Field
}.

Definition noOpts : RecordReaderOpts :=
  {| opt_dialect := None; opt_fields := None;
     opt_restKey := None; opt_restVal := None |}.

(** [zip(a, b)]: [a.map((v, i) => [v, b[i]])] *)
Definition zip (a : list Key) (b : list Value) : list (Key * Value) :=
  imap (fun i v => (v, default VUndefined (b !! i))) a.

(** [row.length = n] on an array of values: cut, or grown with holes. *)
Definition setLength (n : nat) (row : list Value) : list Value :=
  take n row ++ replicate (n - length row) VUndefined.

(** [row.fill(v, start)] *)
Definition fill (v : Value) (start : nat) (row : list Value) : list Value :=
  take start row ++ replicate (length row - start) v.

Definition restKeyOf (opts : RecordReaderOpts) : Key :=
  match opt_restKey opts with
  | Some k => KField (FString k)
  | None => KUndefined
  end.

(** [opts.restVal === undefined ? '' : opts.restVal] *)
Definition restValOf (opts : RecordReaderOpts) : Field :=
  match opt_restVal opts with
  | Some v => v
  | None => FString ""
  end.

Section RecordReader.
(** The host's number-to-string conversion, used when a number is a
    property key. *)
Variable numberToString : number -> string.

Definition toPropertyKey (k : Key) : string :=
  match k with
  | KField (FString s) => s
  | KField (FNumber n) => numberToString n
  | KUndefined => "undefined"
  end.

(** [Object.fromEntries]: entries are set in order, a later entry
    replaces an earlier one with the same property key. *)
Definition fromEntries (entries : list (Key * Value))
  : gmap string Value :=
  foldl (fun o e => <[toPropertyKey e.1 := e.2]> o) ∅ entries.

(** The body of the loop of [recordReader]: the records it yields for
    one row. *)
Definition recordsOf (headers : list Field) (opts : RecordReaderOpts)
    (row : Row) : list (gmap string Value) :=
  if (length row =? 0)%nat then []
  else
    let lh := length headers in
    let lr := length row in
    if (lh <? lr)%nat then
      [fromEntries
         (zip ((KField <$> headers) ++ [restKeyOf opts])
              ((VField <$> take lh row) ++ [VArray (drop lh row)]))]
    else
      let row' :=
        if (lr <? lh)%nat then
          fill (VField (restValOf opts)) lr
            (setLength lh (VField <$> row))
        else VField <$> row in
      [fromEntries (zip (KField <$> headers) row')].

(** [recordReader(source, opts)]; [opts.fields || reader.next().value]:
    an array is never falsy, so a given list is used even when empty,
    and the row of the first [next()] otherwise. *)
Definition recordReader (source : string) (opts : RecordReaderOpts)
  : option (Generated (gmap string Value)) :=
  let r := newReader source (default excel (opt_dialect opts)) in
  match opt_fields opts with
  | Some fs => forOf (rowsLeft r) (recordsOf (FString <$> fs) opts) r
  | None =>
      match next r with
      | None => None
      | Some (Throw m _) => Some {| yielded := []; thrown := Some m |}
      | Some (Normal res r') =>
          forOf (rowsLeft r') (recordsOf (value res) opts) r'
      end
  end.
End RecordReader.

(** ** A client pulling rows

    [nextAfter n r]: the outcome of one more [next()] after [n] earlier
    calls on the Reader [r], each made on the Reader as the call before
    left it. *)
Fixpoint nextAfter (n : nat) (r : Reader)
  : option (Outcome IteratorResult) :=
  match n with
  | O => next r
  | S n' =>
      match next r with
      | Some o => nextAfter n' (after o)
      | None => None
      end
  end.

(** The line number after one more [next()] following [n] earlier ones. *)
Definition lineNumAfter (n : nat) (r : Reader) : option nat :=
  (λ o, lineNum (after o)) <$> nextAfter n r.

(** ** Predicates of the statements *)

(** A text without end-of-record characters. *)
Fixpoint plain (s : string) : bool :=
  match s with
  | EmptyString => true
  | String c s' => negb (Ascii.eqb c LF || Ascii.eqb c CR) && plain s'
  end.

Definition CRLF : string := String CR (chr LF).

(** [lineOf raw line]: [raw] is a text without end-of-record characters
    followed by one terminator, and [line] is [raw] with a final CR LF
    turned into LF. *)
Definition lineOf (raw line : string) : Prop :=
  ∃ body, plain body = true
    ∧ ((raw = body +:+ CRLF ∧ line = body +:+ chr LF)
       ∨ (raw = body +:+ chr CR ∧ line = raw)
       ∨ (raw = body +:+ chr LF ∧ line = raw)).

(** [frame r r']: same dialect, same line number, same lines to come. *)
Definition frame (r r' : Reader) : Prop :=
  dialect r' = dialect r
  ∧ lineNum r' = lineNum r
  ∧ HasNextIterator.pending (lines r') = HasNextIterator.pending (lines r).

(** [consumed r o k]: the call that left the Reader as [after o] took
    [k] lines from the Reader [r]. *)
Definition consumed (r : Reader) (o : Outcome IteratorResult) (k : nat)
  : Prop :=
  k ≤ length (HasNextIterator.pending (lines r))
  ∧ HasNextIterator.pending (lines (after o))
    = drop k (HasNextIterator.pending (lines r)).

Definition noEmptyLine (r : Reader) : Prop :=
  Forall (λ line, line ≠ "") (HasNextIterator.pending (lines r)).

(** Between records no field text is pending. *)
Definition clean (r : Reader) : Prop :=
  state r = START_RECORD → field r = "".

(** ** The record of a row, as the description of [recordReader] has it

    The keys and the values of a row of [r] fields against [h] headers:
    the headers in order, then the rest key when [h < r]; the fields in
    order, then the array of surplus fields when [h < r], or the rest
    value for each missing header when [r < h]. *)
Definition keysOf (headers : list Field) (opts : RecordReaderOpts)
    (row : Row) : list Key :=
  (KField <$> headers)
  ++ (if (length headers <? length row)%nat then [restKeyOf opts] else []).

Definition valuesOf (headers : list Field) (opts : RecordReaderOpts)
    (row : Row) : list Value :=
  if (length headers <? length row)%nat then
    (VField <$> take (length headers) row)
    ++ [VArray (drop (length headers) row)]
  else
    (VField <$> row)
    ++ replicate (length headers - length row) (VField (restValOf opts)).


(** The records that the rows of a generator give. *)
Definition recordsOfRows {Y : Type} (body : Row → list Y)
    (g : Generated Row) : Generated Y :=
  {| yielded := mjoin (body <$> yielded g); thrown := thrown g |}.

(** ** Dialects, sources and Readers of the examples *)

Definition strictExcel : Dialect :=
  {| delimiter := ","%char; quoteChar := Some DQUOTE;
     escapeChar := None; doubleQuote := true;
     skipInitialSpace := false; lineTerminator := CRLF;
     quoting := MINIMAL; strict := true |}.

Definition nonNumericExcel : Dialect :=
  {| delimiter := ","%char; quoteChar := Some DQUOTE;
     escapeChar := None; doubleQuote := true;
     skipInitialSpace := false; lineTerminator := CRLF;
     quoting := NON_NUMERIC; strict := false |}.

Definition nonNumericEscaping : Dialect :=
  {| delimiter := ","%char; quoteChar := Some DQUOTE;
     escapeChar := Some "^"%char; doubleQuote := true;
     skipInitialSpace := false; lineTerminator := CRLF;
     quoting := NON_NUMERIC; strict := false |}.

(** [a], a comma and an opening quote. *)
Definition openQuote : string := "a," +:+ chr DQUOTE.

(** The fields empty, 3, quoted 5, 7.3 and space 9. *)
Definition mixedFields : string :=
  ",3," +:+ String DQUOTE ("5" +:+ String DQUOTE ",7.3, 9").

Definition threeLines : string :=
  "line,1" +:+ CRLF +:+ "line,2" +:+ CRLF +:+ "line,3".

(** A quoted field that holds a line break, then a second field. *)
Definition quotedBreak : string :=
  String DQUOTE ("a" +:+ chr LF +:+ "b" +:+ String DQUOTE ",c").

(** A closed quoted field, a stray character, then a NUL byte. *)
Definition strayThenNul : string :=
  String DQUOTE ("ab" +:+ String DQUOTE ("c" +:+ chr NUL)).

(** The message of a strict dialect on the stray character, at line 1. *)
Definition commaExpected : string :=
  String DQUOTE ("," +:+ String DQUOTE (" expected after "
    +:+ String DQUOTE (String DQUOTE (String DQUOTE ", at line 1")))).




(** In a quoted field, the lines exhausted. *)
Definition danglingQuote : Reader :=
  {| dialect := excel; lines := HasNextIterator.new [];
     fields := [FString "a"]; field := ""; numericField := false;
     state := IN_QUOTED_FIELD; lineNum := 1 |}.

(** After the quote that closes the field [ab]. *)
Definition afterClosingQuote (d : Dialect) : Reader :=
  {| dialect := d; lines := HasNextIterator.new [];
     fields := []; field := "ab"; numericField := false;
     state := QUOTE_IN_QUOTED_FIELD; lineNum := 1 |}.

(** At the start of the second field, under NON_NUMERIC quoting. *)
Definition fieldStart : Reader :=
  {| dialect := nonNumericExcel; lines := HasNextIterator.new [];
     fields := [FString ""]; field := ""; numericField := false;
     state := START_FIELD; lineNum := 1 |}.

(** After the line [x^]: the escaped line break is in the field. *)
Definition strandedField : Reader :=
  {| dialect := nonNumericEscaping; lines := HasNextIterator.new [];
     fields := []; field := "x" +:+ chr LF; numericField := true;
     state := AFTER_ESCAPED_CRLF; lineNum := 1 |}.

(** ** The loop over a line, by recursion on its characters

    [feedList l r]: the characters [l] still to come are given to
    [processChar] in order, each with an iterator on the characters
    after it; a NUL byte stops the loop with its error. *)
Fixpoint feedList (l : list ascii) (r : Reader) : Outcome unit :=
  match l with
  | [] => Normal tt r
  | c :: rest =>
      if Ascii.eqb c NUL then error "line contains NULL byte" r
      else
        match processChar c (HasNextIterator.new rest) r with
        | Normal _ r' => feedList rest r'
        | Throw m r' => Throw m r'
        end
  end.

(** An outcome without the value returned. *)
Definition forget {A : Type} (o : Outcome A) : Outcome unit :=
  match o with
  | Normal _ r => Normal tt r
  | Throw m r => Throw m r
  end.

(** ** The text of a row

    A field as it is written on a line: leading spaces, then either
    characters outside quotes, some of them after the escape character,
    or a quoted text whose characters are plain, escaped, or a doubled
    quote character. *)
Inductive Token : Type :=
| Plain (c : ascii)
| Escaped (c : ascii).

Inductive QToken : Type :=
| QPlain (c : ascii)
| QEscaped (c : ascii)
| QDoubled.

Inductive FieldSyntax : Type :=
| Unquoted (pad : nat) (ts : list Token)
| Quoted (pad : nat) (ts : list QToken).

Definition escapeOf (d : Dialect) : ascii := default NUL (escapeChar d).
Definition quoteOf (d : Dialect) : ascii := default NUL (quoteChar d).

Definition renderToken (d : Dialect) (t : Token) : list ascii :=
  match t with
  | Plain c => [c]
  | Escaped c => [escapeOf d; c]
  end.

Definition renderQToken (d : Dialect) (t : QToken) : list ascii :=
  match t with
  | QPlain c => [c]
  | QEscaped c => [escapeOf d; c]
  | QDoubled => [quoteOf d; quoteOf d]
  end.

Definition renderField (d : Dialect) (f : FieldSyntax) : list ascii :=
  match f with
  | Unquoted pad ts => replicate pad SPACE ++ mjoin (renderToken d <$> ts)
  | Quoted pad ts =>
      replicate pad SPACE
      ++ quoteOf d :: mjoin (renderQToken d <$> ts) ++ [quoteOf d]
  end.

(** The fields of a row with the delimiter between them. *)
Fixpoint renderRow (d : Dialect) (row : list FieldSyntax) : list ascii :=
  match row with
  | [] => []
  | f :: row' =>
      renderField d f
      ++ match row' with
         | [] => []
         | _ => delimiter d :: renderRow d row'
         end
  end.

Definition tokenChar (t : Token) : ascii :=
  match t with Plain c | Escaped c => c end.

Definition qtokenChar (d : Dialect) (t : QToken) : ascii :=
  match t with
  | QPlain c | QEscaped c => c
  | QDoubled => quoteOf d
  end.

(** The text a field stands for. *)
Definition fieldText (d : Dialect) (f : FieldSyntax) : string :=
  match f with
  | Unquoted _ ts => string_of_list_ascii (tokenChar <$> ts)
  | Quoted _ ts => string_of_list_ascii (qtokenChar d <$> ts)
  end.

(** A field that starts with a plain character outside quotes is a
    number under NON_NUMERIC quoting. *)
Definition marked (d : Dialect) (f : FieldSyntax) : bool :=
  match f with
  | Unquoted _ (Plain _ :: _) => Quoting_eqb (quoting d) NON_NUMERIC
  | _ => false
  end.

Definition fieldValue (d : Dialect) (f : FieldSyntax) : Field :=
  if marked d f then FNumber (Number (fieldText d f))
  else FString (fieldText d f).

(** A line without any character is the empty row. *)
Definition rowValue (d : Dialect) (row : list FieldSyntax) : Row :=
  match renderRow d row with
  | [] => []
  | _ => fieldValue d <$> row
  end.

(** Neither an end-of-record character nor a NUL byte. *)
Definition ordinary (c : ascii) : bool :=
  negb (endOfRecord c) && negb (Ascii.eqb c NUL).

Definition escapeOK (d : Dialect) : bool :=
  match escapeChar d with
  | Some e => ordinary e && negb (isQuote e d)
  | None => false
  end.

Definition tokenOK (d : Dialect) (t : Token) : bool :=
  match t with
  | Plain c =>
      ordinary c && negb (Ascii.eqb c (delimiter d))
      && negb (isChar c (escapeChar d))
  | Escaped c => ordinary c && escapeOK d
  end.

Definition startOK (d : Dialect) (ts : list Token) : bool :=
  match ts with
  | Plain c :: _ =>
      negb (isQuote c d) && negb (Ascii.eqb c SPACE && skipInitialSpace d)
  | _ => true
  end.

Definition quoteOK (d : Dialect) : bool :=
  match quoteChar d with
  | Some q =>
      ordinary q && negb (Quoting_eqb (quoting d) NONE)
      && negb (isChar q (escapeChar d))
  | None => false
  end.

Definition qtokenOK (d : Dialect) (t : QToken) : bool :=
  match t with
  | QPlain c =>
      ordinary c && negb (isChar c (escapeChar d)) && negb (isQuote c d)
  | QEscaped c => ordinary c && escapeOK d
  | QDoubled => doubleQuote d
  end.

Definition padOK (d : Dialect) (pad : nat) : bool :=
  (pad =? 0)%nat
  || (skipInitialSpace d && negb (isQuote SPACE d)
      && negb (isChar SPACE (escapeChar d))).

Definition fieldOK (d : Dialect) (f : FieldSyntax) : bool :=
  match f with
  | Unquoted pad ts =>
      padOK d pad && forallb (tokenOK d) ts && startOK d ts
      && (negb (marked d f) || negb (isNaN (Number (fieldText d f))))
  | Quoted pad ts => padOK d pad && quoteOK d && forallb (qtokenOK d) ts
  end.

Definition delimiterOK (d : Dialect) : bool :=
  let c := delimiter d in
  ordinary c && negb (isQuote c d) && negb (isChar c (escapeChar d))
  && negb (Ascii.eqb c SPACE && skipInitialSpace d).

Definition rowOK (d : Dialect) (row : list FieldSyntax) : bool :=
  delimiterOK d && forallb (fieldOK d) row.

(** The state after a field that [x] ends. *)
Definition stateAfter (x : ascii) : ParserState :=
  if endOfRecord x then START_RECORD else START_FIELD.

(** The field that [saveField] appends. *)
Definition completed (nf : bool) (f : string) : Field :=
  if nf then FNumber (Number f) else FString f.

(** [x] ends a field: an end-of-record character or the delimiter. *)
Definition separator (d : Dialect) (x : ascii) : Prop :=
  endOfRecord x = true ∨ x = delimiter d.

(** The line of a row, as the Reader consumes it. *)
Definition lineOfRow (d : Dialect) (row : list FieldSyntax) : string :=
  string_of_list_ascii (renderRow d row) +:+ chr LF.

(** The source made of the rows, each followed by [term]. *)
Fixpoint renderRows (d : Dialect) (term : string)
    (rows : list (list FieldSyntax)) : string :=
  match rows with
  | [] => ""
  | row :: rows' =>
      string_of_list_ascii (renderRow d row) +:+ term
      +:+ renderRows d term rows'
  end.

(** A text written between quotes, each quote character doubled. *)
Definition quoteField (d : Dialect) (text : list ascii) : FieldSyntax :=
  Quoted 0 ((λ c, if isQuote c d then QDoubled else QPlain c) <$> text).

(** A row of the excel dialect: [ab], a quoted text with a comma and a
    doubled quote, and an empty field. *)
Definition sampleRow : list FieldSyntax :=
  [Unquoted 0 [Plain "a"%char; Plain "b"%char];
   Quoted 0 [QPlain ","%char; QDoubled];
   Unquoted 0 []].

(** The rows of texts, every field written with [quoteField]. *)
Definition quoteRows (d : Dialect) (rows : list (list (list ascii)))
  : list (list FieldSyntax) :=
  (λ row : list (list ascii), quoteField d <$> row) <$> rows.

(** The rows of texts, as rows of string fields. *)
Definition textRows (rows : list (list (list ascii))) : list Row :=
  (λ row : list (list ascii),
     (λ text, FString (string_of_list_ascii text)) <$> row) <$> rows.

(** ** The errors of the Reader *)

(** The message of a strict dialect on a character after a closing
    quote. *)
Definition quoteMessage (d : Dialect) : string :=
  chr DQUOTE +:+ chr (delimiter d) +:+ chr DQUOTE +:+ " expected after "
  +:+ chr DQUOTE +:+ showChar (quoteChar d) +:+ chr DQUOTE.

(** [message, at line n] *)
Definition atLine (message : string) (n : nat) : string :=
  message +:+ ", at line " +:+ pretty n.

(** The messages [next] can throw under the dialect [d] with the lines
    [ls] to come, before [, at line n]. *)
Inductive ReaderError (d : Dialect) (ls : list string) : string → Prop :=
| UnexpectedEnd :
    strict d = true → ReaderError d ls "unexpected end of data"
| MalformedQuote :
    strict d = true → ReaderError d ls (quoteMessage d)
| ConversionFailure (text : string) :
    quoting d = NON_NUMERIC → isNaN (Number text) = true →
    ReaderError d ls ("could not convert string to number: " +:+ text)
| NullByte (line : string) :
    line ∈ ls → NUL ∈ list_ascii_of_string line →
    ReaderError d ls "line contains NULL byte".

(** Only NON_NUMERIC quoting marks a field numeric. *)
Definition markedByQuoting (r : Reader) : Prop :=
  numericField r = true → quoting (dialect r) = NON_NUMERIC.

(** A text without NUL byte. *)
Fixpoint noNul (s : string) : bool :=
  match s with
  | EmptyString => true
  | String c s' => negb (Ascii.eqb c NUL) && noNul s'
  end.

(** A source whose second line holds a NUL byte, the Reader before that
    line and the Reader the failure leaves. *)
Definition nulOnSecondLine : string := "a" +:+ chr LF +:+ chr NUL.

Definition beforeNulLine : Reader :=
  {| dialect := excel;
     lines := HasNextIterator.new [chr NUL +:+ chr LF];
     fields := []; field := ""; numericField := false;
     state := START_RECORD; lineNum := 1 |}.

Definition stoppedAtNul : Reader :=
  {| dialect := excel; lines := HasNextIterator.new [];
     fields := []; field := ""; numericField := false;
     state := START_RECORD; lineNum := 2 |}.

(** ** A quoted field over two lines *)

(** The fields [pre], each with the delimiter after it. *)
Definition renderPrefix (d : Dialect) (pre : list FieldSyntax)
  : list ascii :=
  mjoin ((λ f, renderField d f ++ [delimiter d]) <$> pre).

(** The first line of a row that a line end cuts inside a quoted field:
    the fields before it, the opening quote, the text up to the line end
    and the end-of-record character [t]. *)
Definition openLine (d : Dialect) (pre : list FieldSyntax) (pad : nat)
    (ts : list QToken) (t : ascii) : list ascii :=
  renderPrefix d pre ++ replicate pad SPACE
  ++ quoteOf d :: mjoin (renderQToken d <$> ts) ++ [t].

(** The line after it: the rest of the quoted text, the closing quote,
    the fields [post] and the end-of-record character [t]. *)
Definition closeLine (d : Dialect) (ts : list QToken)
    (post : list FieldSyntax) (t : ascii) : list ascii :=
  mjoin (renderQToken d <$> ts)
  ++ quoteOf d :: (match post with
                   | [] => []
                   | _ => delimiter d :: renderRow d post
                   end ++ [t]).

(** The text of a quoted field. *)
Definition quotedText (d : Dialect) (ts : list QToken) : string :=
  string_of_list_ascii (qtokenChar d <$> ts).

(** A quoted field with a CR LF inside, in the excel dialect. *)
Definition brokenCsv : string :=
  "1," +:+ String DQUOTE ("ab" +:+ CRLF +:+ "c" +:+ String DQUOTE (",2"
  +:+ CRLF)).

(** The two lines without their end-of-record characters. *)
Definition openBody (d : Dialect) (pre : list FieldSyntax) (pad : nat)
    (ts : list QToken) : list ascii :=
  renderPrefix d pre ++ replicate pad SPACE
  ++ quoteOf d :: mjoin (renderQToken d <$> ts).

Definition closeBody (d : Dialect) (ts : list QToken)
    (post : list FieldSyntax) : list ascii :=
  mjoin (renderQToken d <$> ts)
  ++ quoteOf d :: match post with
                  | [] => []
                  | _ => delimiter d :: renderRow d post
                  end.

(** [lineBreak term t]: the line break [term] of a source reaches the
    Reader as the end-of-record character [t]. *)
Definition lineBreak (term : string) (t : ascii) : Prop :=
  (term = CRLF ∧ t = LF) ∨ (term = chr LF ∧ t = LF)
  ∨ (term = chr CR ∧ t = CR).

(** The row read from the two lines, with [t] where the line ended. *)
Definition brokenRow (d : Dialect) (pre : list FieldSyntax)
    (ts1 : list QToken) (t : ascii) (ts2 : list QToken)
    (post : list FieldSyntax) : Row :=
  (fieldValue d <$> pre)
  ++ FString (quotedText d ts1 +:+ chr t +:+ quotedText d ts2)
     :: (fieldValue d <$> post).

(** ** An escaped line end outside quotes *)

(** The text of a field outside quotes. *)
Definition unquotedText (ts : list Token) : string :=
  string_of_list_ascii (tokenChar <$> ts).

(** The first line of a row whose field outside quotes ends the line
    with the escape character, without its end-of-record character. *)
Definition escapedBody (d : Dialect) (pre : list FieldSyntax) (pad : nat)
    (ts : list Token) : list ascii :=
  renderPrefix d pre ++ replicate pad SPACE
  ++ mjoin (renderToken d <$> ts) ++ [escapeOf d].

(** The line after it, without its end-of-record character: the rest of
    the field and the fields [post]. *)
Definition resumedBody (d : Dialect) (ts : list Token)
    (post : list FieldSyntax) : list ascii :=
  mjoin (renderToken d <$> ts)
  ++ match post with
     | [] => []
     | _ => delimiter d :: renderRow d post
     end.

(** The row read from the two lines, with [t] where the line ended. *)
Definition escapedRow (d : Dialect) (pre : list FieldSyntax)
    (ts1 : list Token) (t : ascii) (ts2 : list Token)
    (post : list FieldSyntax) : Row :=
  (fieldValue d <$> pre)
  ++ completed (marked d (Unquoted 0 ts1))
       (unquotedText ts1 +:+ chr t +:+ unquotedText ts2)
     :: (fieldValue d <$> post).

(** The excel dialect with an escape character, and a field of it that
    an escaped CR LF cuts. *)
Definition escaping : Dialect :=
  {| delimiter := ","%char; quoteChar := Some DQUOTE;
     escapeChar := Some "^"%char; doubleQuote := true;
     skipInitialSpace := false; lineTerminator := CRLF;
     quoting := MINIMAL; strict := false |}.

Definition escapedCsv : string := "1,ab^" +:+ CRLF +:+ "c,2" +:+ CRLF.

(** An escaped digit and a digit, under NON_NUMERIC quoting with the
    escape character [^]. *)
Definition escapedDigit : string := "^3,4".

(** ** A line with a NUL byte

    [feedBefore suffix pre r]: the characters [pre] given to
    [processChar] in order, each with the characters after it on the
    line still to come: the rest of [pre], then [suffix]. *)
Fixpoint feedBefore (suffix pre : list ascii) (r : Reader) : Outcome unit :=
  match pre with
  | [] => Normal tt r
  | c :: rest =>
      match processChar c (HasNextIterator.new (rest ++ suffix)) r with
      | Normal _ r' => feedBefore suffix rest r'
      | Throw m r' => Throw m r'
      end
  end.

(** The loop reaches a NUL byte after the outcome [o] of the characters
    before it: an error thrown before stands, otherwise the NUL byte
    throws, with the Reader as those characters left it. *)
Definition thenNul {A B : Type} (o : Outcome A) : Outcome B :=
  match o with
  | Normal _ r => error "line contains NULL byte" r
  | Throw m r => Throw m r
  end.


(** * Properties *)

Module HasNextIteratorFacts.
Import HasNextIterator.
Section Facts.
Context {T : Type}.
Implicit Types (it : t T) (cs : list call).

Lemma pending_new (l : list T) : pending (new l) = l.
Proof. reflexivity. Qed.

Lemma next_pending it :
  (next it).1 = head (pending it)
  ∧ pending (next it).2 = tail (pending it).
Proof.
  destruct it as [[|x xs] [|v vs]]; cbn; auto.
Qed.

Lemma hasNext_pending it : pending (hasNext it).2 = pending it.
Proof.
  destruct it as [[|x xs] [|v vs]]; reflexivity.
Qed.

Lemma hasNext_result it :
  (hasNext it).1 = match pending it with [] => false | _ => true end.
Proof.
  destruct it as [[|x xs] [|v vs]]; reflexivity.
Qed.

Lemma hasNext_again it : hasNext (hasNext it).2 = hasNext it.
Proof.
  destruct it as [[|x xs] [|v vs]]; reflexivity.
Qed.

Lemma hasNext_false it :
  (hasNext it).1 = false → (hasNext it).2 = it ∧ pending it = [].
Proof.
  destruct it as [[|x xs] [|v vs]]; cbn; intros; try discriminate; auto.
Qed.

Lemma run_nexts cs : ∀ it,
  (run cs it).1
  = (λ j, pending it !! j) <$> seq 0 (length (List.filter isNext cs)).
Proof.
  induction cs as [|[] cs IH]; intros it; cbn [run List.filter isNext].
  - reflexivity.
  - destruct (next it) as [v it1] eqn:E.
    specialize (IH it1). destruct (run cs it1) as [vs it2]. cbn in *.
    destruct (next_pending it) as [Hv Hp]. rewrite E in Hv, Hp. cbn in *.
    subst v. rewrite IH, Hp. f_equal.
    + by destruct (pending it).
    + rewrite <- fmap_S_seq, <- list_fmap_compose. apply list_fmap_ext.
      intros _ j _. cbn. by destruct (pending it).
  - rewrite IH, hasNext_pending. reflexivity.
Qed.
End Facts.
End HasNextIteratorFacts.

Lemma frame_refl r : frame r r.
Proof. by repeat split. Qed.

Lemma frame_trans r1 r2 r3 : frame r1 r2 → frame r2 r3 → frame r1 r3.
Proof.
  intros (?&?&?) (?&?&?). repeat split; etrans; eauto.
Qed.

Lemma set_lines_same r : set_lines (lines r) r = r.
Proof. by destruct r. Qed.

Lemma saveField_frame r : frame r (after (saveField r)).
Proof.
  unfold saveField, error. repeat case_match; by repeat split.
Qed.

Lemma endOfData_pending chars ls b chars' ls' :
  endOfData chars ls = (b, chars', ls') →
  HasNextIterator.pending chars' = HasNextIterator.pending chars
  ∧ HasNextIterator.pending ls' = HasNextIterator.pending ls.
Proof.
  unfold endOfData. intros H.
  pose proof (HasNextIteratorFacts.hasNext_pending chars) as Hc.
  pose proof (HasNextIteratorFacts.hasNext_pending ls) as Hl.
  destruct (HasNextIterator.hasNext chars) as [more c1].
  destruct more; [by inversion H; subst|].
  destruct (HasNextIterator.hasNext ls) as [moreLines l1].
  by inversion H; subst.
Qed.

Lemma processCharAt_frame s c chars r :
  frame r (after (processCharAt s c chars r)).
Proof.
  unfold processCharAt, saveFieldThen.
  destruct s; try apply frame_refl.
  all: try (destruct (endOfData chars (lines r)) as [[eod chars'] ls'] eqn:E;
            apply endOfData_pending in E as [_ E]).
  all: pose proof (saveField_frame r) as Hs.
  all: repeat case_match; cbn in *; try apply frame_refl; try exact Hs.
  all: unfold frame in *; cbn; auto.
Qed.

Lemma processChar_frame c chars r : frame r (after (processChar c chars r)).
Proof.
  unfold processChar.
  destruct (state r); try apply processCharAt_frame.
  all: case_match; try apply frame_refl.
  all: eapply frame_trans; [|apply processCharAt_frame]; by repeat split.
Qed.

Lemma processCharAt_chars s c chars r chars' r' :
  processCharAt s c chars r = Normal chars' r' →
  HasNextIterator.pending chars' = HasNextIterator.pending chars.
Proof.
  unfold processCharAt, saveFieldThen, error.
  destruct s.
  all: try (destruct (endOfData chars (lines r)) as [[eod chars1] ls'] eqn:E;
            apply endOfData_pending in E as [E _]).
  all: repeat case_match; intros ?; simplify_eq; auto.
Qed.

Lemma processChar_chars c chars r chars' r' :
  processChar c chars r = Normal chars' r' →
  HasNextIterator.pending chars' = HasNextIterator.pending chars.
Proof.
  unfold processChar.
  destruct (state r); try apply processCharAt_chars.
  all: case_match; try apply processCharAt_chars.
  all: by intros ?; simplify_eq.
Qed.

(** The loop over a line ends, and leaves the same things alone. *)
Lemma feedChars_total fuel : ∀ chars r,
  length (HasNextIterator.pending chars) < fuel →
  ∃ o, feedChars fuel chars r = Some o ∧ frame r (after o).
Proof.
  induction fuel as [|fuel IH]; intros chars r Hlen; [lia|].
  cbn [feedChars].
  destruct (HasNextIteratorFacts.next_pending chars) as [Hv Hp].
  destruct (HasNextIterator.next chars) as [res chars1]. cbn in Hv, Hp.
  destruct res as [c|].
  - case_match.
    + eexists. split; [done|]. apply frame_refl.
    + pose proof (processChar_frame c chars1 r) as Hf.
      destruct (processChar c chars1 r) as [chars2 r'|m r'] eqn:E.
      * apply processChar_chars in E.
        destruct (IH chars2 r') as (o & Ho & Hfo).
        { rewrite E, Hp. destruct (HasNextIterator.pending chars);
            cbn in *; [done|lia]. }
        exists o. split; [done|]. eapply frame_trans; eauto.
      * eexists. split; [done|]. exact Hf.
  - eexists. split; [done|]. apply frame_refl.
Qed.

Lemma length_list_ascii_of_string s :
  length (list_ascii_of_string s) = String.length s.
Proof. induction s; cbn; auto. Qed.

Lemma feedLine_total line r :
  ∃ o, feedLine line r = Some o ∧ frame r (after o).
Proof.
  apply feedChars_total. cbn. rewrite length_list_ascii_of_string. lia.
Qed.

Lemma nextLoop_counts fuel : ∀ r,
  length (HasNextIterator.pending (lines r)) < fuel →
  ∃ o k, nextLoop fuel r = Some o
    ∧ dialect (after o) = dialect r
    ∧ consumed r o k
    ∧ lineNum r ≤ lineNum (after o)
    ∧ (noEmptyLine r → lineNum (after o) = lineNum r + k).
Proof.
  unfold consumed, noEmptyLine.
  induction fuel as [|fuel IH]; intros r Hlen; [lia|].
  cbn [nextLoop].
  destruct (HasNextIteratorFacts.next_pending (lines r)) as [Hv Hp].
  destruct (HasNextIterator.next (lines r)) as [res lines1]. cbn in Hv, Hp.
  set (r1 := set_lines lines1 r).
  assert (Hr1 : dialect r1 = dialect r ∧ lineNum r1 = lineNum r
                ∧ HasNextIterator.pending (lines r1)
                  = tail (HasNextIterator.pending (lines r))) by done.
  destruct Hr1 as (Hd1 & Hn1 & Hp1).
  destruct (noLine res) eqn:Hno.
  - (* no line: the call ends here *)
    assert (Hk : ∃ k, k ≤ length (HasNextIterator.pending (lines r))
        ∧ tail (HasNextIterator.pending (lines r))
          = drop k (HasNextIterator.pending (lines r))
        ∧ (Forall (λ line, line ≠ "") (HasNextIterator.pending (lines r))
           → k = 0)).
    { destruct (HasNextIterator.pending (lines r)) as [|l ls] eqn:Ep.
      - exists 0. by repeat split.
      - exists 1. cbn. repeat split; [lia|].
        intros Hall. apply Forall_cons_1 in Hall as [Hl _].
        cbn in Hv. subst res. cbn in Hno. by destruct l. }
    destruct Hk as (k & Hk1 & Hk2 & Hk3).
    pose proof (saveField_frame r1) as (Hsd & Hsn & Hsp).
    assert (Hgoal : ∀ o : Outcome IteratorResult,
              dialect (after o) = dialect r1 →
              lineNum (after o) = lineNum r1 →
              HasNextIterator.pending (lines (after o))
              = HasNextIterator.pending (lines r1) →
              dialect (after o) = dialect r
              ∧ (k ≤ length (HasNextIterator.pending (lines r))
                 ∧ HasNextIterator.pending (lines (after o))
                   = drop k (HasNextIterator.pending (lines r)))
              ∧ lineNum r ≤ lineNum (after o)
              ∧ (Forall (λ line, line ≠ "")
                   (HasNextIterator.pending (lines r))
                 → lineNum (after o) = lineNum r + k)).
    { intros o Ho1 Ho2 Ho3. rewrite Ho1, Ho2, Ho3, Hd1, Hn1, Hp1, Hk2.
      split; [done|]. split; [done|]. split; [lia|].
      intros Hall. rewrite (Hk3 Hall). lia. }
    repeat case_match; eexists; exists k; (split; [reflexivity|]);
      apply Hgoal; cbn; try done.
    all: match goal with
         | E : saveField _ = _ |- _ => rewrite E in Hsd, Hsn, Hsp; done
         end.
  - (* a line: it is counted and fed to the transition function *)
    destruct res as [line|]; [|done]. cbn [default from_option id].
    destruct (HasNextIterator.pending (lines r)) as [|l ls] eqn:Ep;
      [done|]. cbn in Hv, Hp, Hp1, Hlen. injection Hv as ->.
    set (r2 := set_lineNum (S (lineNum r1)) r1).
    destruct (feedLine_total l r2) as (o' & Ho' & Hfd & Hfn & Hfp).
    rewrite Ho'. cbn in Hfd, Hfn, Hfp. rewrite Hp1 in Hfp.
    destruct o' as [[] r3|m r3]; cbn in Hfd, Hfn, Hfp.
    + destruct (ParserState_eqb (state r3) START_RECORD).
      * eexists. exists 1. split; [reflexivity|]. cbn.
        rewrite Hfd, Hfn, Hfp, drop_0.
        split; [done|]. split; [split; [lia|done]|]. split; lia.
      * destruct (IH r3) as (o & k & Ho & Hd & (Hk1 & Hk2) & Hle & Hex).
        { rewrite Hfp. lia. }
        exists o, (S k). split; [done|].
        rewrite Hfp in Hk1, Hk2, Hex. rewrite Hfn in Hle, Hex.
        split; [congruence|]. split; [split; [cbn; lia|done]|].
        split; [lia|].
        intros Hall. apply Forall_cons_1 in Hall as [_ Hall].
        rewrite (Hex Hall). lia.
    + eexists. exists 1. split; [reflexivity|]. cbn.
      rewrite Hfd, Hfn, Hfp, drop_0.
      split; [done|]. split; [split; [lia|done]|]. split; lia.
Qed.

Lemma next_counts r :
  ∃ o k, next r = Some o
    ∧ dialect (after o) = dialect r
    ∧ consumed r o k
    ∧ lineNum r ≤ lineNum (after o)
    ∧ (noEmptyLine r → lineNum (after o) = lineNum r + k).
Proof.
  unfold next.
  destruct (nextLoop_counts
              (S (length (HasNextIterator.pending (lines r)))) (reset r))
    as (o & k & Ho & H); [cbn; lia|].
  exists o, k. split; [exact Ho|]. exact H.
Qed.

Lemma pending_nil {T : Type} (it : HasNextIterator.t T) :
  HasNextIterator.pending it = [] → it = HasNextIterator.new [].
Proof.
  destruct it as [[|x xs] [|v vs]]; cbn; intros; by simplify_eq.
Qed.

Lemma next_at_end r :
  HasNextIterator.pending (lines r) = [] → field r = "" →
  next r = Some (Normal endMarker (reset r)).
Proof.
  intros Hp Hf. unfold next. rewrite Hp. cbn.
  apply pending_nil in Hp. destruct r as [d ls fs f nf st n].
  cbn in *. by subst.
Qed.

Section StringFacts.
Implicit Types s t u : string.

Lemma append_cons c s t : String c s +:+ t = String c (s +:+ t).
Proof. reflexivity. Qed.

Lemma append_nil_l s : "" +:+ s = s.
Proof. reflexivity. Qed.

Lemma append_nil_r s : s +:+ "" = s.
Proof.
  induction s as [|c s IH]; [done|]. by rewrite append_cons, IH.
Qed.

Lemma append_assoc s t u : (s +:+ t) +:+ u = s +:+ t +:+ u.
Proof.
  induction s as [|c s IH]; [done|]. by rewrite !append_cons, IH.
Qed.

Lemma length_append s t :
  String.length (s +:+ t) = String.length s + String.length t.
Proof.
  induction s as [|c s IH]; [done|]. rewrite append_cons. cbn.
  by rewrite IH.
Qed.

Lemma substring_append s t :
  String.substring 0 (String.length s) (s +:+ t) = s.
Proof.
  induction s as [|c s IH].
  - rewrite append_nil_l. by destruct t.
  - rewrite append_cons. cbn. by rewrite IH.
Qed.

Lemma endsWith_spec s t : endsWith s t = true ↔ ∃ p, s = p +:+ t.
Proof.
  induction s as [|c s IH]; cbn [endsWith].
  - rewrite orb_false_r, String.eqb_eq. split.
    + intros <-. by exists "".
    + intros [[|c p] Hp]; [by rewrite append_nil_l in Hp|].
      by rewrite append_cons in Hp.
  - rewrite orb_true_iff, String.eqb_eq, IH. split.
    + intros [<- | [p ->]]; [by exists ""|]. by exists (String c p).
    + intros [[|c' p] Hp]; [by left|].
      right. exists p. rewrite append_cons in Hp. by simplify_eq.
Qed.

Lemma concat_cons s (l : list string) :
  String.concat "" (s :: l) = s +:+ String.concat "" l.
Proof. destruct l; cbn; by rewrite ?append_nil_r. Qed.

Lemma list_ascii_of_string_append s t :
  list_ascii_of_string (s +:+ t)
  = list_ascii_of_string s ++ list_ascii_of_string t.
Proof.
  induction s as [|c s IH]; [done|]. rewrite append_cons. cbn.
  by rewrite IH.
Qed.

Lemma plain_append s t : plain (s +:+ t) = plain s && plain t.
Proof.
  induction s as [|c s IH]; [done|]. rewrite append_cons. cbn.
  by rewrite IH, andb_assoc.
Qed.
End StringFacts.

Lemma replaceCrlfAtEnd_crlf body :
  replaceCrlfAtEnd (body +:+ CRLF) = body +:+ chr LF.
Proof.
  unfold replaceCrlfAtEnd.
  assert (endsWith (body +:+ CRLF) (String CR (chr LF)) = true) as ->.
  { apply endsWith_spec. by exists body. }
  rewrite length_append. cbn [String.length CRLF chr].
  replace (String.length body + 2 - 2) with (String.length body) by lia.
  by rewrite substring_append.
Qed.

Lemma endsWith_crlf_plain body c :
  plain body = true → endsWith (body +:+ chr c) (String CR (chr LF)) = false.
Proof.
  intros Hb. induction body as [|x body IH].
  - rewrite append_nil_l. cbn. by destruct (Ascii.eqb c CR).
  - rewrite append_cons. cbn [endsWith]. cbn in Hb.
    apply andb_true_iff in Hb as [Hx Hb]. rewrite (IH Hb), orb_false_r.
    apply String.eqb_neq. intros Heq. by simplify_eq.
Qed.

Lemma replaceCrlfAtEnd_other body c :
  plain body = true → replaceCrlfAtEnd (body +:+ chr c) = body +:+ chr c.
Proof.
  intros Hb. unfold replaceCrlfAtEnd. by rewrite endsWith_crlf_plain.
Qed.

Lemma splitLinesFrom_shape n : ∀ s cur,
  String.length s ≤ n → plain cur = true →
  Forall (λ raw, lineOf raw (replaceCrlfAtEnd raw)) (splitLinesFrom cur s).
Proof.
  induction n as [|n IH]; intros [|c rest] cur Hlen Hcur; cbn in Hlen;
    try lia; try by constructor.
  assert (Hcrlf : lineOf (cur +:+ CRLF) (replaceCrlfAtEnd (cur +:+ CRLF))).
  { exists cur. split; [done|]. left. by rewrite replaceCrlfAtEnd_crlf. }
  assert (Hone : ∀ t, lineOf (cur +:+ chr t) (replaceCrlfAtEnd (cur +:+ chr t))
                      ∨ (t ≠ CR ∧ t ≠ LF)).
  { intros t. destruct (decide (t = CR)) as [->|];
      [|destruct (decide (t = LF)) as [->|]; [|by right]].
    - left. exists cur. split; [done|]. right. left.
      by rewrite replaceCrlfAtEnd_other.
    - left. exists cur. split; [done|]. right. right.
      by rewrite replaceCrlfAtEnd_other. }
  cbn [splitLinesFrom].
  destruct (Ascii.eqb_spec c CR) as [->|Hcr].
  - destruct (Hone CR) as [Hl|[? _]]; [|done].
    destruct rest as [|c' rest'].
    + constructor; [done|constructor].
    + destruct (Ascii.eqb_spec c' LF) as [->|].
      * constructor; [done|]. apply IH; [cbn in Hlen; lia|done].
      * constructor; [done|]. apply IH; [lia|done].
  - destruct (Ascii.eqb_spec c LF) as [->|Hlf].
    + destruct (Hone LF) as [Hl|[_ ?]]; [|done].
      constructor; [done|]. apply IH; [lia|done].
    + apply IH; [lia|]. rewrite plain_append, Hcur. cbn.
      apply Ascii.eqb_neq in Hcr, Hlf. by rewrite Hcr, Hlf.
Qed.

Lemma splitLinesFrom_concat n : ∀ p cur,
  String.length p ≤ n →
  String.concat "" (splitLinesFrom cur (p +:+ chr LF)) = cur +:+ p +:+ chr LF.
Proof.
  induction n as [|n IH]; intros [|c p'] cur Hlen; cbn in Hlen; try lia.
  - by rewrite append_nil_l.
  - by rewrite append_nil_l.
  - rewrite append_cons. cbn [splitLinesFrom].
    destruct (Ascii.eqb_spec c CR) as [->|Hcr].
    + destruct p' as [|c' p''].
      * by rewrite append_nil_l.
      * rewrite append_cons.
        destruct (Ascii.eqb_spec c' LF) as [->|].
        -- rewrite concat_cons, IH by (cbn in Hlen; lia).
           by rewrite append_nil_l, !append_assoc.
        -- rewrite concat_cons, <- append_cons, IH by lia.
           by rewrite append_nil_l, !append_assoc.
    + destruct (Ascii.eqb_spec c LF) as [->|Hlf].
      * rewrite concat_cons, IH by lia.
        by rewrite append_nil_l, !append_assoc.
      * rewrite IH by lia. by rewrite !append_assoc.
Qed.

Lemma terminated_ends source :
  terminated source = "" ∨ ∃ p, terminated source = p +:+ chr LF.
Proof.
  unfold terminated. destruct source as [|c s]; [by left|]. right.
  cbn [String.length Nat.eqb negb andb].
  destruct (endsWith (String c s) (chr LF)) eqn:E; cbn [negb].
  - by apply endsWith_spec in E.
  - by eexists.
Qed.

Lemma splitLines_concat source :
  String.concat "" (splitLines (terminated source)) = terminated source.
Proof.
  destruct (terminated_ends source) as [-> | [p ->]]; [done|].
  unfold splitLines. by rewrite (splitLinesFrom_concat (String.length p)).
Qed.

Lemma sourceLines_shape source :
  Forall2 lineOf (splitLines (terminated source)) (sourceLines source).
Proof.
  unfold sourceLines. apply Forall2_fmap_r, Forall_Forall2_diag.
  by apply (splitLinesFrom_shape (String.length (terminated source))).
Qed.

Lemma lineOf_end raw line :
  lineOf raw line →
  ∃ body c, line = body +:+ chr c ∧ plain body = true ∧ (c = LF ∨ c = CR).
Proof.
  intros (body & Hb & [[_ ->] | [[-> ->] | [-> ->]]]); exists body; eauto.
Qed.

Lemma sourceLines_ends source :
  Forall (λ line, ∃ body c, line = body +:+ chr c ∧ plain body = true
                            ∧ (c = LF ∨ c = CR))
    (sourceLines source).
Proof.
  pose proof (sourceLines_shape source) as H.
  induction H as [|raw line raws ls Hl _ IH]; constructor; [|done].
  by eapply lineOf_end.
Qed.

Lemma newReader_noEmptyLine source d : noEmptyLine (newReader source d).
Proof.
  unfold noEmptyLine. cbn.
  eapply Forall_impl; [apply sourceLines_ends|].
  intros line (body & c & -> & _) Heq.
  by destruct body.
Qed.

Lemma nextAfter_counts n : ∀ r,
  noEmptyLine r →
  ∃ o, nextAfter n r = Some o
    ∧ lineNum r ≤ lineNum (after o)
    ∧ lineNum (after o) + length (HasNextIterator.pending (lines (after o)))
      = lineNum r + length (HasNextIterator.pending (lines r)).
Proof.
  induction n as [|n IH]; intros r Hr; cbn [nextAfter];
    destruct (next_counts r) as (o & k & Ho & _ & [Hk Hp] & Hle & Hex).
  - exists o. rewrite Hp, length_drop, (Hex Hr). repeat split; auto; lia.
  - rewrite Ho. destruct (IH (after o)) as (o' & Ho' & Hle' & Heq').
    { unfold noEmptyLine. rewrite Hp. by apply Forall_drop. }
    exists o'. split; [done|]. split; [lia|].
    rewrite Heq', Hp, length_drop, (Hex Hr). lia.
Qed.

Lemma zip_pairs (a : list Key) : ∀ b : list Value,
  length a ≤ length b → zip a b = zip_with pair a b.
Proof.
  unfold zip. induction a as [|k a IH]; intros [|v b] Hlen; cbn in *;
    try lia; try done.
  f_equal. by rewrite <- IH by lia.
Qed.

Lemma length_keysOf_valuesOf headers opts row :
  length (keysOf headers opts row) = length (valuesOf headers opts row).
Proof.
  unfold keysOf, valuesOf.
  destruct (Nat.ltb_spec (length headers) (length row)).
  - rewrite !length_app, !length_fmap, length_take. cbn. lia.
  - rewrite !length_app, !length_fmap, length_replicate. cbn. lia.
Qed.

Lemma forOf_body {Y : Type} (body : Row → list Y) fuel : ∀ r,
  forOf fuel body r = recordsOfRows body <$> forOf fuel (λ row, [row]) r.
Proof.
  induction fuel as [|fuel IH]; intros r; [done|]. cbn [forOf].
  destruct (next r) as [[res r'|m r']|]; try done.
  destruct (done res); [done|]. rewrite IH.
  destruct (forOf fuel (λ row, [row]) r') as [g|]; [|done].
  done.
Qed.

Section RecordFacts.
Variable numberToString : number → string.
Implicit Types (es : list (Key * Value)) (k : Key) (v : Value).



Lemma recordsOf_entries headers opts row :
  row ≠ [] →
  recordsOf numberToString headers opts row
  = [fromEntries numberToString
       (zip_with pair (keysOf headers opts row)
                      (valuesOf headers opts row))].
Proof.
  intros Hrow. unfold recordsOf, keysOf, valuesOf.
  destruct row as [|x row]; [done|]. cbn [length Nat.eqb].
  set (xs := x :: row) in *. change (S (length row)) with (length xs).
  clearbody xs.
  destruct (Nat.ltb_spec (length headers) (length xs)) as [Hlt|Hge].
  - rewrite zip_pairs; [done|].
    rewrite !length_app, !length_fmap, length_take. cbn. lia.
  - rewrite app_nil_r. f_equal. f_equal.
    destruct (Nat.ltb_spec (length xs) (length headers)) as [Hlt|Hge'].
    + unfold fill, setLength.
      rewrite length_app, length_take, length_replicate, !length_fmap.
      rewrite (take_ge (VField <$> xs)) by (rewrite length_fmap; lia).
      rewrite take_app_length' by (by rewrite length_fmap).
      rewrite zip_pairs.
      * do 3 f_equal. lia.
      * rewrite length_app, length_replicate, !length_fmap. lia.
    + replace (length headers - length xs) with 0 by lia.
      cbn [replicate]. rewrite app_nil_r.
      rewrite zip_pairs; [done|]. rewrite !length_fmap. lia.
Qed.

End RecordFacts.

Lemma saveField_field r u r' : saveField r = Normal u r' → field r' = "".
Proof.
  unfold saveField, error. repeat case_match; intros ?; by simplify_eq.
Qed.

Lemma processCharAt_clean s c chars r chars' r' :
  s ≠ START_RECORD → state r = s →
  processCharAt s c chars r = Normal chars' r' → clean r'.
Proof.
  unfold processCharAt, saveFieldThen, error, clean. intros Hs Hst.
  destruct s; try done.
  all: try (destruct (endOfData chars (lines r)) as [[eod chars1] ls']).
  all: repeat case_match; intros ?; simplify_eq; cbn; try done.
  all: try (rewrite Hst; done).
  all: intros _; eapply saveField_field; eassumption.
Qed.

Lemma processChar_clean c chars r chars' r' :
  clean r → processChar c chars r = Normal chars' r' → clean r'.
Proof.
  unfold processChar. intros Hr.
  destruct (state r) eqn:Hst.
  - case_match; [by intros ?; simplify_eq|].
    by apply processCharAt_clean.
  - by apply processCharAt_clean.
  - by apply processCharAt_clean.
  - by apply processCharAt_clean.
  - by apply processCharAt_clean.
  - by apply processCharAt_clean.
  - by apply processCharAt_clean.
  - case_match.
    + intros ?; simplify_eq. unfold clean. by rewrite Hst.
    + by apply processCharAt_clean.
Qed.

Lemma feedChars_clean fuel : ∀ chars r u r',
  clean r → feedChars fuel chars r = Some (Normal u r') → clean r'.
Proof.
  induction fuel as [|fuel IH]; intros chars r u r' Hr; [done|].
  cbn [feedChars]. destruct (HasNextIterator.next chars) as [[c|] chars1].
  - case_match; [done|].
    destruct (processChar c chars1 r) as [chars2 r2|] eqn:E; [|done].
    apply IH. by eapply processChar_clean.
  - intros ?. by simplify_eq.
Qed.

(** A call that returns leaves no field text pending, and a call that
    returns a row has taken a line. *)
Lemma nextLoop_row fuel : ∀ r res r',
  clean r → nextLoop fuel r = Some (Normal res r') →
  field r' = ""
  ∧ length (HasNextIterator.pending (lines r'))
    ≤ length (HasNextIterator.pending (lines r))
  ∧ (done res = false → state r = START_RECORD →
     length (HasNextIterator.pending (lines r'))
     < length (HasNextIterator.pending (lines r))).
Proof.
  induction fuel as [|fuel IH]; intros r res r' Hr; [done|].
  cbn [nextLoop].
  destruct (HasNextIteratorFacts.next_pending (lines r)) as [Hv Hp].
  destruct (HasNextIterator.next (lines r)) as [result lines1].
  cbn in Hv, Hp. set (r1 := set_lines lines1 r).
  assert (Htail : length (tail (HasNextIterator.pending (lines r)))
                  ≤ length (HasNextIterator.pending (lines r))).
  { destruct (HasNextIterator.pending (lines r)); cbn; lia. }
  destruct (noLine result) eqn:Hno.
  - change (field r1) with (field r). change (state r1) with (state r).
    destruct (negb (String.length (field r) =? 0)%nat
              || ParserState_eqb (state r) IN_QUOTED_FIELD) eqn:Hcond.
    + destruct (strict (dialect r1)); [done|].
      pose proof (saveField_frame r1) as (_ & _ & Hsp).
      destruct (saveField r1) as [u r2|] eqn:E; [|done].
      unfold returnRow. intros ?; simplify_eq. cbn in *.
      split; [by eapply saveField_field|]. rewrite Hsp, Hp.
      split; [done|].
      intros _ Hst. rewrite Hst, (Hr Hst) in Hcond. done.
    + intros ?; simplify_eq. cbn. rewrite Hp.
      split; [|by split].
      apply orb_false_iff in Hcond as [Hf _].
      by destruct (field r).
  - destruct result as [line|]; [|done]. cbn [default from_option id].
    destruct (HasNextIterator.pending (lines r)) as [|l ls] eqn:Ep;
      [done|]. cbn in Hv, Hp. injection Hv as ->.
    set (r2 := set_lineNum (S (lineNum r1)) r1).
    destruct (feedLine_total l r2) as (o' & Ho' & _ & _ & Hfp).
    rewrite Ho'. destruct o' as [u r3|m r3]; [|done].
    cbn in Hfp. rewrite Hp in Hfp.
    assert (clean r3) as Hr3 by (by eapply (feedChars_clean _ _ r2)).
    destruct (ParserState_eqb (state r3) START_RECORD) eqn:Hst3.
    + unfold returnRow. intros ?; simplify_eq. cbn. rewrite Hfp.
      split; [|split; lia]. apply Hr3. by destruct (state r3).
    + intros Hloop.
      destruct (IH r3 res r' Hr3 Hloop) as (Hf & Hle & _).
      rewrite Hfp in Hle. cbn. split; [done|]. split; lia.
Qed.

Lemma next_row r res r' :
  field r = "" → next r = Some (Normal res r') →
  field r' = ""
  ∧ (done res = false →
     length (HasNextIterator.pending (lines r'))
     < length (HasNextIterator.pending (lines r))).
Proof.
  intros Hf Hnext. unfold next in Hnext.
  apply nextLoop_row in Hnext as (Hf' & _ & Hlt); [|by intros _].
  split; [done|]. intros Hd. by apply Hlt.
Qed.

(** The loop over the rows ends on the fuel the generators give it. *)
Lemma forOf_total {Y : Type} (body : Row → list Y) fuel : ∀ r,
  field r = "" →
  length (HasNextIterator.pending (lines r)) + 2 ≤ fuel →
  ∃ g, forOf fuel body r = Some g.
Proof.
  induction fuel as [|fuel IH]; intros r Hf Hlen; [lia|]. cbn [forOf].
  destruct (next_counts r) as (o & _ & Ho & _). rewrite Ho.
  destruct o as [res r'|m r']; [|by eexists].
  destruct (done res) eqn:Hd; [by eexists|].
  destruct (next_row r res r' Hf Ho) as [Hf' Hlt].
  destruct (IH r' Hf') as [g Hg]; [specialize (Hlt Hd); lia|].
  rewrite Hg. by eexists.
Qed.

Lemma reader_total source d : ∃ g, reader source d = Some g.
Proof. apply forOf_total; [done|]. unfold rowsLeft. lia. Qed.

Lemma recordReader_total numberToString source opts :
  ∃ g, recordReader numberToString source opts = Some g.
Proof.
  unfold recordReader. destruct (opt_fields opts).
  - apply forOf_total; [done|]. unfold rowsLeft. lia.
  - set (r := newReader source _).
    destruct (next_counts r) as (o & _ & Ho & _). rewrite Ho.
    destruct o as [res r'|m r']; [|by eexists].
    destruct (next_row r res r' eq_refl Ho) as [Hf' _].
    apply forOf_total; [done|]. unfold rowsLeft. lia.
Qed.

(** ** The loop over a line and the lookahead buffer *)

Lemma hasNext_same_pending {T : Type} (c1 c2 : HasNextIterator.t T) :
  HasNextIterator.pending c1 = HasNextIterator.pending c2 →
  (HasNextIterator.hasNext c1).1 = (HasNextIterator.hasNext c2).1.
Proof.
  intros H. by rewrite !HasNextIteratorFacts.hasNext_result, H.
Qed.

Lemma processCharAt_lookahead s c c1 c2 r :
  (HasNextIterator.hasNext c1).1 = (HasNextIterator.hasNext c2).1 →
  forget (processCharAt s c c1 r) = forget (processCharAt s c c2 r).
Proof.
  intros H.
  unfold processCharAt, saveFieldThen, error, endOfData.
  destruct (HasNextIterator.hasNext c1) as [b1 c1'],
           (HasNextIterator.hasNext c2) as [b2 c2']. cbn in H. subst b2.
  destruct s; try done; repeat case_match; simplify_eq; done.
Qed.

Lemma processChar_lookahead c c1 c2 r :
  (HasNextIterator.hasNext c1).1 = (HasNextIterator.hasNext c2).1 →
  forget (processChar c c1 r) = forget (processChar c c2 r).
Proof.
  intros H. unfold processChar.
  destruct (state r); try by apply processCharAt_lookahead.
  all: case_match; try by apply processCharAt_lookahead.
  all: done.
Qed.

Lemma processCharAt_pending s c c1 c2 r :
  HasNextIterator.pending c1 = HasNextIterator.pending c2 →
  forget (processCharAt s c c1 r) = forget (processCharAt s c c2 r).
Proof.
  intros H. by apply processCharAt_lookahead, hasNext_same_pending.
Qed.

Lemma processChar_pending c c1 c2 r :
  HasNextIterator.pending c1 = HasNextIterator.pending c2 →
  forget (processChar c c1 r) = forget (processChar c c2 r).
Proof.
  intros H. by apply processChar_lookahead, hasNext_same_pending.
Qed.

Lemma feedChars_feedList fuel : ∀ chars r,
  length (HasNextIterator.pending chars) < fuel →
  feedChars fuel chars r = Some (feedList (HasNextIterator.pending chars) r).
Proof.
  induction fuel as [|fuel IH]; intros chars r Hlen; [lia|].
  cbn [feedChars].
  destruct (HasNextIteratorFacts.next_pending chars) as [Hv Hp].
  destruct (HasNextIterator.next chars) as [res chars1]. cbn in Hv, Hp.
  destruct (HasNextIterator.pending chars) as [|c rest] eqn:E;
    cbn in Hv, Hp, Hlen; subst res; [done|]. cbn [feedList].
  case_match; [done|].
  pose proof (processChar_pending c chars1 (HasNextIterator.new rest) r Hp)
    as Hsame.
  destruct (processChar c chars1 r) as [chars2 r2|m2 r2] eqn:E1,
           (processChar c (HasNextIterator.new rest) r) as [x r3|m3 r3];
    cbn in Hsame; simplify_eq; [|done].
  apply processChar_chars in E1. rewrite IH by (rewrite E1; lia).
  by rewrite E1.
Qed.

Lemma feedLine_feedList line r :
  feedLine line r = Some (feedList (list_ascii_of_string line) r).
Proof.
  unfold feedLine. rewrite feedChars_feedList; [done|].
  cbn. rewrite length_list_ascii_of_string. lia.
Qed.

(** ** A line with a NUL byte *)

Lemma hasNext_new_more {T : Type} (l : list T) :
  l ≠ [] → (HasNextIterator.hasNext (HasNextIterator.new l)).1 = true.
Proof. by destruct l. Qed.

(** What comes after the characters fed matters only by being there. *)
Lemma feedBefore_suffix pre : ∀ r suffix1 suffix2,
  suffix1 ≠ [] → suffix2 ≠ [] →
  feedBefore suffix1 pre r = feedBefore suffix2 pre r.
Proof.
  induction pre as [|c rest IH]; intros r suffix1 suffix2 H1 H2; [done|].
  cbn [feedBefore].
  assert (Hsame : forget (processChar c
                            (HasNextIterator.new (rest ++ suffix1)) r)
                  = forget (processChar c
                              (HasNextIterator.new (rest ++ suffix2)) r)).
  { apply processChar_lookahead.
    rewrite !hasNext_new_more; [done| |]; intros H;
      by apply app_eq_nil in H as [_ ?]. }
  destruct (processChar c (HasNextIterator.new (rest ++ suffix1)) r),
           (processChar c (HasNextIterator.new (rest ++ suffix2)) r);
    cbn in Hsame; simplify_eq; [by apply IH|done].
Qed.

Lemma feedList_nul pre post : ∀ r,
  NUL ∉ pre →
  feedList (pre ++ NUL :: post) r = thenNul (feedBefore (NUL :: post) pre r).
Proof.
  induction pre as [|c rest IH]; intros r Hnot.
  - cbn [app feedList feedBefore thenNul]. by rewrite Ascii.eqb_refl.
  - apply not_elem_of_cons in Hnot as [Hc Hrest].
    assert (Ascii.eqb c NUL = false) as Hc'
      by (apply Ascii.eqb_neq; congruence).
    cbn [app feedList feedBefore]. rewrite Hc'.
    destruct (processChar c (HasNextIterator.new (rest ++ NUL :: post)) r);
      [by apply IH|done].
Qed.

Lemma feedBefore_frame suffix pre : ∀ r,
  frame r (after (feedBefore suffix pre r)).
Proof.
  induction pre as [|c rest IH]; intros r; [apply frame_refl|].
  cbn [feedBefore].
  pose proof (processChar_frame c (HasNextIterator.new (rest ++ suffix)) r)
    as Hf.
  destruct (processChar c (HasNextIterator.new (rest ++ suffix)) r);
    [|done].
  eapply frame_trans; [exact Hf|apply IH].
Qed.

(** An error among the characters fed is the error of [processChar] on
    one of them, with the Reader as the characters before it left it. *)
Lemma feedBefore_throw suffix pre : ∀ r m r',
  feedBefore suffix pre r = Throw m r' →
  ∃ p1 c p2 r0,
    pre = p1 ++ c :: p2
    ∧ feedBefore (c :: p2 ++ suffix) p1 r = Normal tt r0
    ∧ processChar c (HasNextIterator.new (p2 ++ suffix)) r0 = Throw m r'.
Proof.
  induction pre as [|c rest IH]; intros r m r'; [done|].
  cbn [feedBefore].
  destruct (processChar c (HasNextIterator.new (rest ++ suffix)) r)
    as [chars1 r1|m1 r1] eqn:E.
  - intros (p1 & c' & p2 & r0 & -> & Hfed & Hthrow)%IH.
    exists (c :: p1), c', p2, r0. split; [done|]. split; [|done].
    cbn [feedBefore]. rewrite <- app_assoc in E. cbn [app] in E.
    by rewrite E.
  - intros ?; simplify_eq. by exists [], c, rest, r.
Qed.

Lemma nextLoop_nul fuel r line lines1 pre post :
  HasNextIterator.next (lines r) = (Some line, lines1) →
  list_ascii_of_string line = pre ++ NUL :: post →
  NUL ∉ pre →
  nextLoop (S fuel) r
  = Some (thenNul
            (feedBefore (NUL :: post) pre
               (set_lineNum (S (lineNum r)) (set_lines lines1 r)))).
Proof.
  intros Hnext Hline Hnot. cbn [nextLoop]. rewrite Hnext.
  cbv beta iota zeta. cbn [noLine default from_option id].
  assert (Hne : (String.length line =? 0)%nat = false).
  { destruct line; [by destruct pre|done]. }
  rewrite Hne, feedLine_feedList, Hline, feedList_nul by done.
  by destruct (feedBefore _ _ _).
Qed.

(** ** Cutting the source into lines *)

(** A text without end-of-record characters, then CR LF or LF. *)
Lemma splitLinesFrom_plain body : ∀ cur s,
  plain body = true →
  splitLinesFrom cur (body +:+ CRLF +:+ s)
  = (cur +:+ body +:+ CRLF) :: splitLinesFrom "" s
  ∧ splitLinesFrom cur (body +:+ chr LF +:+ s)
    = (cur +:+ body +:+ chr LF) :: splitLinesFrom "" s.
Proof.
  induction body as [|c body IH]; intros cur s Hb.
  - rewrite !append_nil_l. by split.
  - cbn in Hb. apply andb_true_iff in Hb as [Hc Hb].
    apply negb_true_iff, orb_false_iff in Hc as [Hlf Hcr].
    rewrite !append_cons. cbn [splitLinesFrom]. rewrite Hlf, Hcr.
    destruct (IH (cur +:+ chr c) s Hb) as [-> ->].
    by rewrite !append_assoc.
Qed.

(** A text without end-of-record characters, then a lone CR. *)
Lemma splitLinesFrom_cr body : ∀ cur c s,
  plain body = true → Ascii.eqb c LF = false →
  splitLinesFrom cur (body +:+ chr CR +:+ String c s)
  = (cur +:+ body +:+ chr CR) :: splitLinesFrom "" (String c s).
Proof.
  induction body as [|x body IH]; intros cur c s Hb Hc.
  - rewrite !append_nil_l.
    change (chr CR +:+ String c s) with (String CR (String c s)).
    cbn [splitLinesFrom]. change (Ascii.eqb CR CR) with true. cbv iota.
    by rewrite Hc.
  - cbn in Hb. apply andb_true_iff in Hb as [Hx Hb].
    apply negb_true_iff, orb_false_iff in Hx as [Hlf Hcr].
    rewrite !append_cons. cbn [splitLinesFrom]. rewrite Hlf, Hcr.
    rewrite (IH (cur +:+ chr x) c s Hb Hc).
    by rewrite !append_assoc.
Qed.

Lemma splitLinesFrom_cr_end body : ∀ cur,
  plain body = true →
  splitLinesFrom cur (body +:+ chr CR) = [cur +:+ body +:+ chr CR].
Proof.
  induction body as [|x body IH]; intros cur Hb.
  - by rewrite !append_nil_l.
  - cbn in Hb. apply andb_true_iff in Hb as [Hx Hb].
    apply negb_true_iff, orb_false_iff in Hx as [Hlf Hcr].
    rewrite !append_cons. cbn [splitLinesFrom]. rewrite Hlf, Hcr.
    rewrite (IH (cur +:+ chr x) Hb). by rewrite !append_assoc.
Qed.

Lemma splitLinesFrom_tail body : ∀ cur,
  plain body = true → splitLinesFrom cur body = [].
Proof.
  induction body as [|x body IH]; intros cur Hb; [done|].
  cbn in Hb. apply andb_true_iff in Hb as [Hx Hb].
  apply negb_true_iff, orb_false_iff in Hx as [Hlf Hcr].
  cbn [splitLinesFrom]. rewrite Hlf, Hcr. by apply IH.
Qed.

(** [splitLines] on each way a text can begin: a text without
    end-of-record characters, then CR LF, LF, a CR that no LF follows,
    or nothing more. *)
Lemma splitLines_cut body s :
  plain body = true →
  splitLines (body +:+ CRLF +:+ s) = (body +:+ CRLF) :: splitLines s
  ∧ splitLines (body +:+ chr LF +:+ s) = (body +:+ chr LF) :: splitLines s
  ∧ (∀ c s', s = String c s' → c ≠ LF →
     splitLines (body +:+ chr CR +:+ s) = (body +:+ chr CR) :: splitLines s)
  ∧ splitLines (body +:+ chr CR) = [body +:+ chr CR]
  ∧ splitLines body = [].
Proof.
  intros Hb. unfold splitLines.
  destruct (splitLinesFrom_plain body "" s Hb) as [H1 H2].
  rewrite append_nil_l in H1, H2.
  split; [done|]. split; [done|]. split; [|split].
  - intros c s' -> Hc. apply Ascii.eqb_neq in Hc.
    by rewrite splitLinesFrom_cr, append_nil_l.
  - by rewrite splitLinesFrom_cr_end, append_nil_l.
  - by apply splitLinesFrom_tail.
Qed.

Lemma endsWith_append_LF p s :
  s ≠ "" → endsWith (p +:+ s) (chr LF) = endsWith s (chr LF).
Proof.
  intros Hs. induction p as [|c p IH]; [done|].
  rewrite append_cons. cbn [endsWith]. rewrite IH.
  assert (String.eqb (String c (p +:+ s)) (chr LF) = false) as ->; [|done].
  apply String.eqb_neq. intros H. injection H as _ H.
  destruct p; [by rewrite append_nil_l in H|by rewrite append_cons in H].
Qed.

Lemma terminated_append p s :
  s ≠ "" → terminated (p +:+ s) = p +:+ terminated s.
Proof.
  intros Hs. unfold terminated. rewrite endsWith_append_LF by done.
  destruct s as [|c s]; [done|].
  rewrite length_append. cbn [String.length]. rewrite Nat.add_succ_r.
  cbn [Nat.eqb negb andb].
  destruct (endsWith (String c s) (chr LF)); cbn [negb];
    [done|by rewrite append_assoc].
Qed.

Lemma plain_not_endsWith body :
  plain body = true → endsWith body (chr LF) = false.
Proof.
  intros Hb. destruct (endsWith body (chr LF)) eqn:E; [|done].
  apply endsWith_spec in E as [p ->]. rewrite plain_append in Hb.
  by apply andb_true_iff in Hb as [_ Hb].
Qed.

Lemma terminated_after_LF p s :
  terminated (p +:+ chr LF +:+ s) = p +:+ chr LF +:+ terminated s.
Proof.
  destruct s as [|c s].
  - rewrite append_nil_r. unfold terminated.
    rewrite endsWith_append_LF by done. cbn [endsWith]. by destruct p.
  - rewrite terminated_append by done.
    by rewrite (terminated_append (chr LF)) by done.
Qed.

(** The lines of the Reader on each way a source can begin. A CR at the
    very end of the source meets the LF the constructor appends. *)
Lemma sourceLines_cut body s :
  plain body = true →
  sourceLines (body +:+ CRLF +:+ s) = (body +:+ chr LF) :: sourceLines s
  ∧ sourceLines (body +:+ chr LF +:+ s) = (body +:+ chr LF) :: sourceLines s
  ∧ (∀ c s', s = String c s' → c ≠ LF →
     sourceLines (body +:+ chr CR +:+ s) = (body +:+ chr CR) :: sourceLines s)
  ∧ sourceLines (body +:+ chr CR) = [body +:+ chr LF]
  ∧ (body ≠ "" → sourceLines body = [body +:+ chr LF]).
Proof.
  intros Hb. unfold sourceLines.
  split; [|split; [|split; [|split]]].
  - change (body +:+ CRLF +:+ s)
      with (body +:+ chr CR +:+ chr LF +:+ s).
    rewrite <- (append_assoc body (chr CR)), terminated_after_LF.
    rewrite (append_assoc body (chr CR)).
    change (body +:+ chr CR +:+ chr LF +:+ terminated s)
      with (body +:+ CRLF +:+ terminated s).
    rewrite (proj1 (splitLines_cut body _ Hb)). cbn [fmap list_fmap].
    by rewrite replaceCrlfAtEnd_crlf.
  - rewrite terminated_after_LF.
    rewrite (proj1 (proj2 (splitLines_cut body _ Hb))). cbn [fmap list_fmap].
    by rewrite replaceCrlfAtEnd_other.
  - intros c s' -> Hc.
    rewrite terminated_append by done.
    rewrite (terminated_append (chr CR)) by done.
    assert (∃ s'', terminated (String c s') = String c s'') as [s'' Hs''].
    { unfold terminated. case_match; [|by eexists].
      rewrite append_cons. by eexists. }
    rewrite Hs''.
    destruct (splitLines_cut body (String c s'') Hb) as (_ & _ & Hcr & _).
    rewrite (Hcr c s'') by done. cbn [fmap list_fmap].
    by rewrite replaceCrlfAtEnd_other.
  - assert (terminated (body +:+ chr CR) = body +:+ CRLF +:+ "") as ->.
    { rewrite append_nil_r. unfold terminated.
      rewrite endsWith_append_LF by done. rewrite length_append.
      change (String.length (chr CR)) with 1. rewrite Nat.add_1_r.
      change (endsWith (chr CR) (chr LF)) with false.
      cbn [Nat.eqb negb andb]. by rewrite append_assoc. }
    rewrite (proj1 (splitLines_cut body _ Hb)). cbn [fmap list_fmap].
    by rewrite replaceCrlfAtEnd_crlf.
  - intros Hne.
    assert (terminated body = body +:+ chr LF +:+ "") as ->.
    { unfold terminated. rewrite plain_not_endsWith by done.
      destruct body; [done|]. by rewrite append_nil_r. }
    rewrite (proj1 (proj2 (splitLines_cut body _ Hb))). cbn [fmap list_fmap].
    by rewrite replaceCrlfAtEnd_other.
Qed.

(** ** Fields marked numeric *)

Lemma Quoting_eqb_eq a b : Quoting_eqb a b = true → a = b.
Proof. by destruct a, b. Qed.

Lemma saveField_marked r u r' :
  saveField r = Normal u r' → numericField r' = false.
Proof.
  unfold saveField, error. repeat case_match; intros ?; by simplify_eq.
Qed.

(** * The specification, claim by claim *)

(** C1, as stated, fails: under NON_NUMERIC quoting with escape
    character [^] and [strict] false, the source [x^] leaves the field
    [x\n], marked numeric, pending when the lines run out; the call does
    not return a row, [saveField] throws. *)
Lemma truncated_input_counterexample :
  strict nonNumericEscaping = false
  ∧ HasNextIterator.pending (lines strandedField) = []
  ∧ field strandedField ≠ ""
  ∧ sourceLines "x^" = ["x^" +:+ chr LF]
  ∧ feedLine ("x^" +:+ chr LF)
      (set_lineNum 1 (set_lines (HasNextIterator.new [])
                        (reset (newReader "x^" nonNumericEscaping))))
    = Some (Normal tt strandedField)
  ∧ nextLoop 1 strandedField
    = Some (Throw ("could not convert string to number: x" +:+ chr LF
                   +:+ ", at line 1")
              (set_numericField false strandedField))
  ∧ reader "x^" nonNumericEscaping
    = Some {| yielded := [];
              thrown := Some ("could not convert string to number: x"
                              +:+ chr LF +:+ ", at line 1") |}.
Proof.
  repeat split; by vm_compute.
Qed.

(** C1, amended. When the lines are exhausted during [next()] while the
    field text is non-empty or the state is IN_QUOTED_FIELD: with
    [strict] true the call throws [unexpected end of data, at line <n>];
    with [strict] false the pending field goes through [saveField]: not
    marked numeric, it is the last field of the row, as text, and the
    row is returned; marked numeric with a text that converts, it is the
    last field, as a number, and the row is returned; marked numeric
    with a text that does not convert, the call throws [could not
    convert string to number: <text>, at line <n>]. Under excel the
    source made of [a], a comma and a quote character reads as the one
    row ['a', '']; under excel with [strict] true the same source throws
    at line 1. *)
Theorem truncated_input (fuel : nat) (r : Reader) :
  HasNextIterator.pending (lines r) = [] →
  field r ≠ "" ∨ state r = IN_QUOTED_FIELD →
  (strict (dialect r) = true →
   nextLoop (S fuel) r
   = Some (Throw ("unexpected end of data" +:+ ", at line "
                  +:+ pretty (lineNum r)) r))
  ∧ (strict (dialect r) = false → numericField r = false →
     nextLoop (S fuel) r
     = Some (Normal {| value := fields r ++ [FString (field r)];
                       done := false |}
               (set_field "" (set_fields [] r))))
  ∧ (strict (dialect r) = false → numericField r = true →
     isNaN (Number (field r)) = false →
     nextLoop (S fuel) r
     = Some (Normal {| value := fields r ++ [FNumber (Number (field r))];
                       done := false |}
               (set_field "" (set_fields [] (set_numericField false r)))))
  ∧ (strict (dialect r) = false → numericField r = true →
     isNaN (Number (field r)) = true →
     nextLoop (S fuel) r
     = Some (Throw (("could not convert string to number: " +:+ field r)
                    +:+ ", at line " +:+ pretty (lineNum r))
               (set_numericField false r)))
  ∧ reader openQuote excel
    = Some {| yielded := [[FString "a"; FString ""]]; thrown := None |}
  ∧ reader openQuote strictExcel
    = Some {| yielded := [];
              thrown := Some "unexpected end of data, at line 1" |}.
Proof.
  intros Hp Hpend.
  assert (Hcond : negb (String.length (field r) =? 0)%nat
                  || ParserState_eqb (state r) IN_QUOTED_FIELD = true).
  { destruct Hpend as [Hf | ->]; [|by rewrite orb_true_r].
    destruct (field r); [done|reflexivity]. }
  apply pending_nil in Hp.
  assert (Hstep : nextLoop (S fuel) r
            = if strict (dialect r)
              then Some (error "unexpected end of data" r)
              else match saveField r with
                   | Normal _ r2 => Some (returnRow r2)
                   | Throw m r2 => Some (Throw m r2)
                   end).
  { cbn [nextLoop]. rewrite Hp. cbn. rewrite <- Hp, set_lines_same.
    by rewrite Hcond. }
  rewrite Hstep.
  split; [by intros ->|].
  split; [intros -> Hn; unfold saveField; by rewrite Hn|].
  split.
  { intros -> Hn Hnan. unfold saveField. rewrite Hn.
    change (field (set_numericField false r)) with (field r).
    by rewrite Hnan. }
  split.
  { intros -> Hn Hnan. unfold saveField, error. rewrite Hn.
    change (field (set_numericField false r)) with (field r).
    by rewrite Hnan. }
  split; by vm_compute.
Qed.

Lemma truncated_input_witness :
  nextLoop 1 (set_state IN_QUOTED_FIELD
                (set_fields [FString "a"] (newReader "" strictExcel)))
  = Some (Throw "unexpected end of data, at line 0"
            (set_state IN_QUOTED_FIELD
               (set_fields [FString "a"] (newReader "" strictExcel))))
  ∧ nextLoop 1 (set_state IN_QUOTED_FIELD
                  (set_fields [FString "a"] (newReader "" excel)))
    = Some (Normal {| value := [FString "a"; FString ""]; done := false |}
              (set_state IN_QUOTED_FIELD (newReader "" excel))).
Proof.
  split.
  - apply (truncated_input 0
             (set_state IN_QUOTED_FIELD
                (set_fields [FString "a"] (newReader "" strictExcel))));
      solve [reflexivity | by right].
  - apply (truncated_input 0
             (set_state IN_QUOTED_FIELD
                (set_fields [FString "a"] (newReader "" excel))));
      solve [reflexivity | by right].
Defined.

(** C2. In IN_QUOTED_FIELD, when the character is the last one of the
    last line (neither the characters of the line nor the lines have a
    next element), [processChar] absorbs it, whatever it is, a quote
    character included: the call returns normally and the Reader, field
    and state included, and the character iterator are exactly as
    before. A line made of that one character, if it is not a NUL byte,
    goes through the loop of [next] without an error and leaves the
    Reader as it was. *)
Theorem quoted_field_absorbs_last_char (c : ascii)
    (chars : HasNextIterator.t ascii) (r : Reader) :
  state r = IN_QUOTED_FIELD →
  (HasNextIterator.hasNext chars).1 = false →
  (HasNextIterator.hasNext (lines r)).1 = false →
  processChar c chars r = Normal chars r
  ∧ (c ≠ NUL → feedLine (chr c) r = Some (Normal tt r)).
Proof.
  intros Hs Hc Hl.
  assert (Habsorb : ∀ chars0,
            (HasNextIterator.hasNext chars0).1 = false →
            processChar c chars0 r = Normal chars0 r).
  { intros chars0 Hc0.
    apply HasNextIteratorFacts.hasNext_false in Hc0 as Hc'.
    apply HasNextIteratorFacts.hasNext_false in Hl as Hl'.
    destruct Hc' as [Hc' _], Hl' as [Hl' _].
    unfold processChar. rewrite Hs. unfold processCharAt, endOfData.
    destruct (HasNextIterator.hasNext chars0) as [b1 chars'].
    destruct (HasNextIterator.hasNext (lines r)) as [b2 lines'].
    cbn in *. subst. cbn. by rewrite set_lines_same. }
  split; [by apply Habsorb|].
  intros Hnul. apply Ascii.eqb_neq in Hnul.
  unfold feedLine. cbn. rewrite Hnul. by rewrite Habsorb.
Qed.

Lemma quoted_field_absorbs_last_char_witness :
  processChar DQUOTE (HasNextIterator.new []) danglingQuote
  = Normal (HasNextIterator.new []) danglingQuote
  ∧ feedLine (chr DQUOTE) danglingQuote = Some (Normal tt danglingQuote).
Proof.
  destruct (quoted_field_absorbs_last_char DQUOTE (HasNextIterator.new [])
              danglingQuote) as [Hp Hf]; [reflexivity..|].
  split; [exact Hp|]. by apply Hf.
Defined.

(** C3. In QUOTE_IN_QUOTED_FIELD, on a character that is neither the
    quote character, the delimiter nor an end-of-record character: when
    [strict] is false the character is appended to the field and the
    state becomes IN_FIELD; when [strict] is true the call throws the
    message made of the quoted delimiter, [ expected after ], the quoted
    quote character and [, at line <n>]. *)
Theorem malformed_quote (c : ascii) (chars : HasNextIterator.t ascii)
    (r : Reader) :
  state r = QUOTE_IN_QUOTED_FIELD →
  isChar c (quoteChar (dialect r)) = false →
  c ≠ delimiter (dialect r) →
  endOfRecord c = false →
  (strict (dialect r) = false →
   processChar c chars r
   = Normal chars (set_state IN_FIELD (set_field (field r +:+ chr c) r)))
  ∧ (strict (dialect r) = true →
     processChar c chars r
     = Throw ((chr DQUOTE +:+ chr (delimiter (dialect r)) +:+ chr DQUOTE
               +:+ " expected after "
               +:+ chr DQUOTE +:+ showChar (quoteChar (dialect r))
               +:+ chr DQUOTE)
              +:+ ", at line " +:+ pretty (lineNum r)) r).
Proof.
  intros Hs Hq Hd He.
  unfold processChar. rewrite Hs. unfold processCharAt.
  rewrite Hq, andb_false_r, He.
  apply Ascii.eqb_neq in Hd. rewrite Hd.
  split; intros ->; reflexivity.
Qed.

Lemma malformed_quote_witness :
  processChar "c" (HasNextIterator.new [LF]) (afterClosingQuote excel)
  = Normal (HasNextIterator.new [LF])
      (set_state IN_FIELD (set_field "abc" (afterClosingQuote excel)))
  ∧ ∃ r, processChar "c" (HasNextIterator.new [LF]) (afterClosingQuote strictExcel)
         = Throw commaExpected r.
Proof.
  split.
  - apply (malformed_quote "c" (HasNextIterator.new [LF])
             (afterClosingQuote excel)); done.
  - eexists.
    apply (malformed_quote "c" (HasNextIterator.new [LF])
             (afterClosingQuote strictExcel)); done.
Defined.

(** C4, as stated, fails: under NON_NUMERIC quoting with the escape
    character [^], the field [^3] starts outside quotes and is read as
    the string 3, not as a number; the field 4 after it is a number. *)
Lemma non_numeric_fields_counterexample :
  reader escapedDigit nonNumericEscaping
  = Some {| yielded := [[FString "3"; FNumber (Finite false 1 2)]];
            thrown := None |}.
Proof. by vm_compute. Qed.

(** C4, amended. Under NON_NUMERIC quoting a field is marked numeric by
    its first character, when that character is none of an end-of-record
    character, the quote character, the escape character, a space to
    skip and the delimiter; the character starts the text of the field.
    A field that starts with the escape character is not marked, nor is
    one that starts with the quote character, and no other step of
    [processChar] marks a field. [saveField] converts the text of a
    field marked numeric with [Number], to the nearest double, and
    throws [could not convert string to number: <text>, at line <n>]
    when the result is NaN; the text of a field not marked numeric is
    kept as a string. Under excel with NON_NUMERIC quoting, the source
    of the five fields empty, 3, quoted 5, 7.3 and space 9 reads as the
    one row ['', 3, '5', 7.3, 9]. *)
Theorem non_numeric_fields :
  (∀ c chars r,
     quoting (dialect r) = NON_NUMERIC →
     state r = START_RECORD ∨ state r = START_FIELD →
     endOfRecord c = false →
     isChar c (quoteChar (dialect r)) = false →
     isChar c (escapeChar (dialect r)) = false →
     Ascii.eqb c SPACE && skipInitialSpace (dialect r) = false →
     c ≠ delimiter (dialect r) →
     processChar c chars r
     = Normal chars (set_state IN_FIELD (addChar c (set_numericField true r))))
  ∧ (∀ c chars r,
       quoting (dialect r) = NON_NUMERIC →
       state r = START_RECORD ∨ state r = START_FIELD →
       endOfRecord c = false →
       isChar c (quoteChar (dialect r)) = false →
       isChar c (escapeChar (dialect r)) = true →
       processChar c chars r = Normal chars (set_state ESCAPED_CHAR r))
  ∧ (∀ c chars r,
       state r = ESCAPED_CHAR → endOfRecord c = false →
       processChar c chars r
       = Normal chars (set_state IN_FIELD (addChar c r)))
  ∧ (∀ c chars r,
       quoting (dialect r) = NON_NUMERIC →
       state r = START_RECORD ∨ state r = START_FIELD →
       endOfRecord c = false →
       isChar c (quoteChar (dialect r)) = true →
       processChar c chars r = Normal chars (set_state IN_QUOTED_FIELD r))
  ∧ (∀ c chars r chars' r',
       processChar c chars r = Normal chars' r' →
       numericField r = false → numericField r' = true →
       quoting (dialect r) = NON_NUMERIC
       ∧ (state r = START_RECORD ∨ state r = START_FIELD)
       ∧ endOfRecord c = false
       ∧ isChar c (quoteChar (dialect r)) = false
       ∧ isChar c (escapeChar (dialect r)) = false
       ∧ Ascii.eqb c SPACE && skipInitialSpace (dialect r) = false
       ∧ c ≠ delimiter (dialect r))
  ∧ (∀ r, numericField r = true →
       let r1 := set_numericField false r in
       saveField r
       = if isNaN (Number (field r)) then
           Throw (("could not convert string to number: " +:+ field r)
                  +:+ ", at line " +:+ pretty (lineNum r)) r1
         else
           Normal tt
             (set_field ""
                (set_fields (fields r ++ [FNumber (Number (field r))]) r1)))
  ∧ (∀ r, numericField r = false →
       saveField r
       = Normal tt
           (set_field "" (set_fields (fields r ++ [FString (field r)]) r)))
  ∧ reader mixedFields nonNumericExcel
    = Some {| yielded :=
                [[FString ""; FNumber (Finite false 3 0); FString "5";
                  FNumber (Finite false 8219069319951155 (-50));
                  FNumber (Finite false 9 0)]];
              thrown := None |}
  ∧ Number "7.3" = Finite false 8219069319951155 (-50)
  ∧ Number "1e400" = Infinity false
  ∧ Number "9007199254740993" = Finite false 1 53
  ∧ Number "1e-400" = Finite false 0 0
  ∧ Number "-0" = Finite true 0 0.
Proof.
  split; [|split; [|split; [|split; [|split; [|split; [|split]]]]]].
  - intros c chars r Hq Hs He Hqc Hec Hsp Hd.
    apply Ascii.eqb_neq in Hd.
    assert (Hat : ∀ r0, dialect r0 = dialect r →
              processCharAt START_FIELD c chars r0
              = Normal chars
                  (set_state IN_FIELD
                     (addChar c (set_numericField true r0)))).
    { intros r0 Hr0. unfold processCharAt, isQuote.
      by rewrite Hr0, He, Hqc, Hec, Hsp, Hd, Hq. }
    unfold processChar. destruct Hs as [Hs | Hs]; rewrite Hs.
    + rewrite He, Hat by done. by destruct r.
    + rewrite Hat by done. destruct r. by cbn in *.
  - intros c chars r Hq Hs He Hqc Hec.
    unfold processChar, processCharAt, isQuote.
    destruct Hs as [Hs | Hs]; rewrite Hs, ?He; cbn [dialect set_state];
      rewrite ?He, Hqc, Hec; cbn [andb]; [by destruct r|].
    destruct r. cbn in *. by subst.
  - intros c chars r Hs He. unfold processChar, processCharAt.
    by rewrite Hs, He.
  - intros c chars r Hq Hs He Hqc.
    unfold processChar, processCharAt, isQuote.
    destruct Hs as [Hs | Hs]; rewrite Hs, ?He; cbn [dialect set_state];
      rewrite ?He, Hqc, Hq; cbn [andb negb Quoting_eqb]; [by destruct r|].
    destruct r. cbn in *. by subst.
  - intros c chars r chars' r' Hstep Hf Ht.
    unfold processChar in Hstep.
    destruct (state r) eqn:Hst;
      unfold processCharAt, saveFieldThen, error in Hstep.
    all: try (destruct (endOfData chars (lines r)) as [[eod chars1] ls']).
    all: repeat case_match; simplify_eq.
    all: try match goal with
         | Hx : saveField _ = Normal _ _ |- _ =>
             apply saveField_marked in Hx; cbn in *; congruence
         end.
    all: try (cbn in Ht; congruence).
    all: unfold isQuote in *; cbn [dialect set_state] in *.
    all: destruct (quoting (dialect r)) eqn:Hq; try done.
    all: cbn [Quoting_eqb negb] in *; rewrite ?andb_true_r in *.
    all: repeat split; auto; by apply Ascii.eqb_neq.
  - intros r Hn. unfold saveField, error. by rewrite Hn.
  - intros r Hn. unfold saveField. by rewrite Hn.
  - repeat split; by vm_compute.
Qed.

Lemma non_numeric_fields_witness :
  processChar "3" (HasNextIterator.new []) fieldStart
  = Normal (HasNextIterator.new [])
      (set_state IN_FIELD (addChar "3" (set_numericField true fieldStart)))
  ∧ (∃ r', saveField (set_numericField true (set_field "7.3" fieldStart))
           = Normal tt r'
           ∧ fields r'
             = [FString ""; FNumber (Finite false 8219069319951155 (-50))])
  ∧ (∃ r', saveField (set_numericField true (set_field "abc" fieldStart))
           = Throw "could not convert string to number: abc, at line 1" r')
  ∧ (∃ r', saveField (set_field "5" fieldStart) = Normal tt r'
           ∧ fields r' = [FString ""; FString "5"]).
Proof.
  destruct non_numeric_fields
    as (Hstart & _ & _ & _ & _ & Hnum & Hstr & _).
  split; [|split; [|split]].
  - apply (Hstart "3"%char (HasNextIterator.new []) fieldStart);
      solve [reflexivity | by right | discriminate].
  - eexists. rewrite Hnum by reflexivity. by vm_compute.
  - eexists. rewrite Hnum by reflexivity. by vm_compute.
  - eexists. rewrite Hstr by reflexivity. by vm_compute.
Defined.

(** C5, as stated, fails: a CR that no LF follows ends a line and stays
    a CR, so the first line of [a CR b] ends with CR, not with LF. *)
Lemma input_preparation_counterexample :
  sourceLines ("a" +:+ chr CR +:+ "b") = ["a" +:+ chr CR; "b" +:+ chr LF]
  ∧ endsWith ("a" +:+ chr CR) (chr LF) = false.
Proof. split; reflexivity. Qed.

(** C5, amended. The constructor appends LF to the source exactly when
    the source is non-empty and does not end with LF; the text is then
    cut after each CR LF, after each LF and after each CR that no LF
    follows, a CR LF being one terminator, and what follows the last
    terminator is dropped (nothing, after the LF appended). The pieces
    make up the whole text and each is a text without CR or LF followed
    by its terminator. A CR LF terminator becomes LF, a lone CR or LF
    stays as it is, so every line the Reader consumes ends with one
    end-of-record character, LF or CR, and holds no other; a CR at the
    very end of the source meets the LF appended and the line ends with
    LF. *)
Theorem input_preparation (source : string) :
  (terminated source = source +:+ chr LF
   ↔ source ≠ "" ∧ endsWith source (chr LF) = false)
  ∧ (terminated source = source ∨ terminated source = source +:+ chr LF)
  ∧ String.concat "" (splitLines (terminated source)) = terminated source
  ∧ Forall2 lineOf (splitLines (terminated source)) (sourceLines source)
  ∧ Forall (λ line, ∃ body c, line = body +:+ chr c ∧ plain body = true
                              ∧ (c = LF ∨ c = CR) ∧ endOfRecord c = true)
      (sourceLines source)
  ∧ (∀ d, lines (newReader source d)
          = HasNextIterator.new (sourceLines source))
  ∧ (∀ body s,
       plain body = true →
       splitLines (body +:+ CRLF +:+ s) = (body +:+ CRLF) :: splitLines s
       ∧ splitLines (body +:+ chr LF +:+ s)
         = (body +:+ chr LF) :: splitLines s
       ∧ (∀ c s', s = String c s' → c ≠ LF →
          splitLines (body +:+ chr CR +:+ s)
          = (body +:+ chr CR) :: splitLines s)
       ∧ splitLines (body +:+ chr CR) = [body +:+ chr CR]
       ∧ splitLines body = [])
  ∧ (∀ body s,
       plain body = true →
       sourceLines (body +:+ CRLF +:+ s) = (body +:+ chr LF) :: sourceLines s
       ∧ sourceLines (body +:+ chr LF +:+ s)
         = (body +:+ chr LF) :: sourceLines s
       ∧ (∀ c s', s = String c s' → c ≠ LF →
          sourceLines (body +:+ chr CR +:+ s)
          = (body +:+ chr CR) :: sourceLines s)
       ∧ sourceLines (body +:+ chr CR) = [body +:+ chr LF]
       ∧ (body ≠ "" → sourceLines body = [body +:+ chr LF]))
  ∧ sourceLines "" = [].
Proof.
  split; [|split; [|split; [|split; [|split; [|split; [|split; [|split]]]]]]].
  - unfold terminated. split.
    + intros H.
      destruct (negb (String.length source =? 0)%nat
                && negb (endsWith source (chr LF))) eqn:E.
      * apply andb_true_iff in E as [E1 E2].
        split; [by destruct source|]. by destruct (endsWith source (chr LF)).
      * apply (f_equal String.length) in H.
        rewrite length_append in H. cbn in H. lia.
    + intros [Hne ->]. by destruct source.
  - unfold terminated. case_match; auto.
  - apply splitLines_concat.
  - apply sourceLines_shape.
  - eapply Forall_impl; [apply sourceLines_ends|].
    intros line (body & c & -> & Hb & [-> | ->]); exists body; eauto 10.
  - done.
  - apply splitLines_cut.
  - apply sourceLines_cut.
  - done.
Qed.

(** C6, as stated, fails: over the three lines the counter is 1 after
    the first pull and 2 after the second, not 3 after each pull. *)
Lemma line_counter_counterexample :
  lineNumAfter 0 (newReader threeLines excel) = Some 1
  ∧ lineNumAfter 1 (newReader threeLines excel) = Some 2.
Proof. split; by vm_compute. Qed.

(** C6, amended. The line counter starts at 0. Each [next()] call ends,
    takes some number [k] of lines from the Reader and adds exactly [k]
    to the counter, so the counter never decreases and is never reset;
    after any number of calls it is the number of lines consumed so far.
    Over the three lines the counter is 1, 2 and 3 after the first,
    second and third pull and still 3 after the fourth, which returns
    the end marker. A row whose quoted field spans two lines counts
    both. *)
Theorem line_counter (source : string) (d : Dialect) (n : nat) :
  lineNum (newReader source d) = 0
  ∧ (∀ r, ∃ o k,
       next r = Some o ∧ consumed r o k
       ∧ lineNum r ≤ lineNum (after o)
       ∧ (noEmptyLine r → lineNum (after o) = lineNum r + k))
  ∧ noEmptyLine (newReader source d)
  ∧ (∃ o, nextAfter n (newReader source d) = Some o
       ∧ lineNum (after o)
         + length (HasNextIterator.pending (lines (after o)))
         = length (sourceLines source))
  ∧ (λ i, lineNumAfter i (newReader threeLines excel)) <$> [0; 1; 2; 3]
    = [Some 1; Some 2; Some 3; Some 3]
  ∧ (∃ r, nextAfter 3 (newReader threeLines excel)
          = Some (Normal endMarker r))
  ∧ (∃ r, next (newReader quotedBreak excel)
          = Some (Normal {| value := [FString ("a" +:+ chr LF +:+ "b");
                                      FString "c"];
                            done := false |} r)
          ∧ lineNum r = 2
          ∧ HasNextIterator.pending (lines r) = []).
Proof.
  split; [done|]. split; [|split; [|split; [|split; [|split]]]].
  - intros r. destruct (next_counts r) as (o & k & Ho & _ & H).
    by exists o, k.
  - apply newReader_noEmptyLine.
  - destruct (nextAfter_counts n (newReader source d)
                (newReader_noEmptyLine source d)) as (o & Ho & _ & Heq).
    exists o. split; [done|]. rewrite Heq. cbn. lia.
  - by vm_compute.
  - eexists. by vm_compute.
  - eexists. split; [by vm_compute|]. split; by vm_compute.
Qed.

(** C7, as stated, fails: under a strict dialect the line made of a
    closed quoted field, a stray [c] and a NUL byte throws on the stray
    character, which comes before the NUL byte; the characters before a
    NUL byte are fed to the transition function first. *)
Lemma null_byte_counterexample :
  reader strayThenNul strictExcel
  = Some {| yielded := [];
            thrown := Some commaExpected |}.
Proof. by vm_compute. Qed.

(** C7, amended. When a consumed line contains a NUL byte, the
    characters before the first NUL byte are given to the transition
    function in order, each with the characters after it still to come;
    the loop then stops: with the error the transition function raised
    on one of those characters, the Reader as the characters before that
    one left it, or else, on reaching the NUL byte, with [line contains
    NULL byte, at line <n>] for the number of that line, the Reader as
    the characters before the NUL byte left it. No row is returned, and
    what follows the NUL byte on the line plays no part. So does the
    loop of [next()], which has taken the line and advanced the line
    counter, and [next()] itself, which has reset fields, state and
    flag before. A NUL byte at the start of the line throws at once:
    nothing is given to the transition function. *)
Theorem null_byte (line : string) (pre post : list ascii) (r : Reader) :
  list_ascii_of_string line = pre ++ NUL :: post →
  NUL ∉ pre →
  feedLine line r = Some (thenNul (feedBefore (NUL :: post) pre r))
  ∧ (∀ post', feedBefore (NUL :: post') pre r
              = feedBefore (NUL :: post) pre r)
  ∧ (∀ r1, feedBefore (NUL :: post) pre r = Normal tt r1 →
       feedLine line r = Some (Throw ("line contains NULL byte, at line "
                         +:+ pretty (lineNum r)) r1))
  ∧ (∀ m r1, feedBefore (NUL :: post) pre r = Throw m r1 →
       feedLine line r = Some (Throw m r1)
       ∧ ∃ p1 c p2 r0,
           pre = p1 ++ c :: p2
           ∧ feedBefore (c :: p2 ++ NUL :: post) p1 r = Normal tt r0
           ∧ processChar c (HasNextIterator.new (p2 ++ NUL :: post)) r0
             = Throw m r1)
  ∧ (pre = [] → feedLine line r = Some (Throw ("line contains NULL byte, at line "
                         +:+ pretty (lineNum r)) r))
  ∧ (∀ fuel lines1,
       HasNextIterator.next (lines r) = (Some line, lines1) →
       let r2 := set_lineNum (S (lineNum r)) (set_lines lines1 r) in
       nextLoop (S fuel) r
       = Some (thenNul (feedBefore (NUL :: post) pre r2))
       ∧ (pre = [] →
          nextLoop (S fuel) r
          = Some (Throw ("line contains NULL byte, at line "
                         +:+ pretty (S (lineNum r))) r2)))
  ∧ (∀ lines1,
       HasNextIterator.next (lines r) = (Some line, lines1) →
       let r2 := set_lineNum (S (lineNum r)) (set_lines lines1 (reset r)) in
       next r = Some (thenNul (feedBefore (NUL :: post) pre r2))
       ∧ (pre = [] →
          next r = Some (Throw ("line contains NULL byte, at line "
                         +:+ pretty (S (lineNum r))) r2))).
Proof.
  intros Hline Hnot.
  assert (Hfeed : feedLine line r
                  = Some (thenNul (feedBefore (NUL :: post) pre r))).
  { by rewrite feedLine_feedList, Hline, feedList_nul. }
  split; [done|]. split; [by intros post'; apply feedBefore_suffix|].
  split; [|split; [|split; [|split]]].
  - intros r1 H1. rewrite Hfeed, H1. cbn [thenNul]. unfold error.
    pose proof (feedBefore_frame (NUL :: post) pre r) as (_ & Hl & _).
    rewrite H1 in Hl. cbn in Hl. by rewrite Hl.
  - intros m r1 H1. split; [by rewrite Hfeed, H1|].
    by apply feedBefore_throw.
  - intros ->. by rewrite Hfeed.
  - intros fuel lines1 Hnext r2. split.
    + by apply (nextLoop_nul fuel r line lines1).
    + intros ->. by rewrite (nextLoop_nul fuel r line lines1 [] post).
  - intros lines1 Hnext r2. unfold next. split.
    + by apply (nextLoop_nul _ (reset r) line lines1).
    + intros ->.
      by rewrite (nextLoop_nul _ (reset r) line lines1 [] post).
Qed.

Lemma null_byte_witness :
  feedLine ("ab" +:+ chr NUL +:+ "c") (newReader "" excel)
  = Some (Throw "line contains NULL byte, at line 0"
            (set_state IN_FIELD (set_field "ab" (newReader "" excel))))
  ∧ feedLine (chr NUL +:+ "c") (newReader "" excel)
    = Some (Throw "line contains NULL byte, at line 0" (newReader "" excel)).
Proof.
  split.
  - destruct (null_byte ("ab" +:+ chr NUL +:+ "c") ["a"%char; "b"%char]
                ["c"%char] (newReader "" excel))
      as (_ & _ & Hnul & _).
    + reflexivity.
    + intros Hin. by repeat (apply elem_of_cons in Hin as [Hin|Hin];
                             [discriminate|]); apply elem_of_nil in Hin.
    + by apply Hnul.
  - destruct (null_byte (chr NUL +:+ "c") [] ["c"%char] (newReader "" excel))
      as (_ & _ & _ & _ & Hnil & _).
    + reflexivity.
    + apply not_elem_of_nil.
    + by apply Hnil.
Defined.




(** C9. [hasNext()] is idempotent and does not advance the iterator: a
    second call returns what the first did and changes nothing more; it
    returns true exactly when the next [next()] gives a value, that
    value is the same after it, and so are the elements still to come.
    [next()] returns the value buffered by [hasNext()] without touching
    the underlying iterator, and pulls from the underlying iterator when
    nothing is buffered. For any sequence of [next()] and [hasNext()]
    calls, the values the [next()] calls return are those the same
    [next()] calls return with every [hasNext()] call removed: the
    elements in order, none skipped or repeated, then the end marker. *)
Theorem hasNext_never_advances (T : Type) (it : HasNextIterator.t T)
    (cs : list HasNextIterator.call) :
  HasNextIterator.hasNext (HasNextIterator.hasNext it).2
  = HasNextIterator.hasNext it
  ∧ ((HasNextIterator.hasNext it).1 = true
     ↔ is_Some (HasNextIterator.next it).1)
  ∧ (HasNextIterator.next (HasNextIterator.hasNext it).2).1
    = (HasNextIterator.next it).1
  ∧ HasNextIterator.pending (HasNextIterator.hasNext it).2
    = HasNextIterator.pending it
  ∧ (∀ (u : list T) v vs,
       HasNextIterator.next (HasNextIterator.mk u (v :: vs))
       = (Some v, HasNextIterator.mk u vs))
  ∧ (∀ (x : T) xs,
       HasNextIterator.next (HasNextIterator.mk (x :: xs) [])
       = (Some x, HasNextIterator.mk xs []))
  ∧ (HasNextIterator.run cs it).1
    = (HasNextIterator.run (List.filter HasNextIterator.isNext cs) it).1
  ∧ (HasNextIterator.run cs it).1
    = (λ j, HasNextIterator.pending it !! j)
      <$> seq 0 (length (List.filter HasNextIterator.isNext cs)).
Proof.
  split; [apply HasNextIteratorFacts.hasNext_again|].
  split.
  { rewrite HasNextIteratorFacts.hasNext_result.
    rewrite (proj1 (HasNextIteratorFacts.next_pending it)).
    destruct (HasNextIterator.pending it); cbn; [|by eauto].
    split; [done|]. by intros [? ?]. }
  split.
  { rewrite !(proj1 (HasNextIteratorFacts.next_pending _)).
    by rewrite HasNextIteratorFacts.hasNext_pending. }
  split; [apply HasNextIteratorFacts.hasNext_pending|].
  split; [reflexivity|]. split; [reflexivity|].
  split; [|apply HasNextIteratorFacts.run_nexts].
  rewrite !HasNextIteratorFacts.run_nexts. do 3 f_equal.
  induction cs as [|[] cs IH]; cbn; by rewrite <- ?IH.
Qed.

(** C10. When the lines are exhausted and no field is pending, [next()]
    returns [{value: [], done: true}], whatever the state was before the
    call (which resets it to START_RECORD), and so does every later
    call; on an empty source already the first call does. *)
Theorem next_end_marker (r : Reader) (n : nat) :
  HasNextIterator.pending (lines r) = [] →
  field r = "" →
  next r = Some (Normal endMarker (reset r))
  ∧ nextAfter n r = Some (Normal endMarker (reset r))
  ∧ value endMarker = [] ∧ done endMarker = true
  ∧ ∀ d, next (newReader "" d)
         = Some (Normal endMarker (newReader "" d)).
Proof.
  intros Hp Hf. split; [by apply next_at_end|].
  split; [|by repeat split].
  revert r Hp Hf. induction n as [|n IH]; intros r Hp Hf; cbn [nextAfter].
  - by apply next_at_end.
  - rewrite next_at_end by done. cbn [after].
    rewrite IH by done. by destruct r.
Qed.

Lemma next_end_marker_witness :
  nextAfter 5 (newReader "" excel)
  = Some (Normal endMarker (newReader "" excel)).
Proof.
  apply (next_end_marker (newReader "" excel) 5); reflexivity.
Defined.

(** * More of the reader *)

(** ** Reading a well-formed row *)

Lemma ordinary_spec c :
  ordinary c = true → endOfRecord c = false ∧ Ascii.eqb c NUL = false.
Proof.
  unfold ordinary. intros [H1 H2]%andb_true_iff.
  by apply negb_true_iff in H1, H2.
Qed.

Lemma endOfRecord_not_nul x : endOfRecord x = true → Ascii.eqb x NUL = false.
Proof.
  unfold endOfRecord. intros [H|H]%orb_true_iff;
    apply Ascii.eqb_eq in H; by subst.
Qed.

(** A plain character inside a field outside quotes. *)
Lemma feed_in_field_plain c rest d ls fs f nf n :
  tokenOK d (Plain c) = true →
  feedList (c :: rest) (mkReader d ls fs f nf IN_FIELD n)
  = feedList rest (mkReader d ls fs (f +:+ chr c) nf IN_FIELD n).
Proof.
  cbn [tokenOK]. intros [[Ho Hd%negb_true_iff]%andb_true_iff
                          He%negb_true_iff]%andb_true_iff.
  apply ordinary_spec in Ho as [Heor Hnul].
  cbn [feedList]. rewrite Hnul. unfold processChar, processCharAt.
  cbn [state dialect]. by rewrite Heor, He, Hd.
Qed.

Lemma escapeOK_spec d :
  escapeOK d = true →
  escapeChar d = Some (escapeOf d)
  ∧ endOfRecord (escapeOf d) = false
  ∧ Ascii.eqb (escapeOf d) NUL = false
  ∧ isQuote (escapeOf d) d = false
  ∧ isChar (escapeOf d) (escapeChar d) = true.
Proof.
  unfold escapeOK, escapeOf. destruct (escapeChar d) as [e|]; [|done].
  cbn. intros [Ho Hq%negb_true_iff]%andb_true_iff.
  apply ordinary_spec in Ho as [? ?].
  by rewrite Ascii.eqb_refl.
Qed.

(** The escape character and the character after it. *)
Lemma feed_in_field_escaped c rest d ls fs f nf n :
  tokenOK d (Escaped c) = true →
  feedList (escapeOf d :: c :: rest) (mkReader d ls fs f nf IN_FIELD n)
  = feedList rest (mkReader d ls fs (f +:+ chr c) nf IN_FIELD n).
Proof.
  cbn [tokenOK]. intros [Ho He]%andb_true_iff.
  apply ordinary_spec in Ho as [Heor Hnul].
  apply escapeOK_spec in He as (_ & Heeor & Henul & _ & Hee).
  cbn [feedList]. rewrite Henul, Hnul. unfold processChar, processCharAt.
  cbn [state dialect set_state]. rewrite Heeor, Hee.
  cbn [state dialect set_state]. by rewrite Heor.
Qed.

Lemma string_of_list_ascii_cons c l :
  string_of_list_ascii (c :: l) = String c (string_of_list_ascii l).
Proof. reflexivity. Qed.

Lemma append_chr f c s : (f +:+ chr c) +:+ s = f +:+ String c s.
Proof. by rewrite append_assoc. Qed.

Lemma feed_tokens d ts : ∀ rest ls fs f nf n,
  forallb (tokenOK d) ts = true →
  feedList (mjoin (renderToken d <$> ts) ++ rest)
    (mkReader d ls fs f nf IN_FIELD n)
  = feedList rest
      (mkReader d ls fs (f +:+ string_of_list_ascii (tokenChar <$> ts)) nf
         IN_FIELD n).
Proof.
  induction ts as [|t ts IH]; intros rest ls fs f nf n Hok.
  - cbn. by rewrite append_nil_r.
  - cbn [forallb] in Hok. apply andb_true_iff in Hok as [Ht Hts].
    cbn [fmap list_fmap mjoin list_join tokenChar].
    rewrite string_of_list_ascii_cons, <- append_chr.
    destruct t as [c|c]; cbn [renderToken app tokenChar].
    + rewrite feed_in_field_plain by done. by apply IH.
    + rewrite feed_in_field_escaped by done. by apply IH.
Qed.

Lemma saveField_completed d ls fs f nf st n :
  negb nf || negb (isNaN (Number f)) = true →
  saveField (mkReader d ls fs f nf st n)
  = Normal tt (mkReader d ls (fs ++ [completed nf f]) "" false st n).
Proof.
  unfold saveField, completed. cbn. destruct nf; cbn; [|done].
  by intros ->%negb_true_iff.
Qed.

Lemma delimiterOK_spec d :
  delimiterOK d = true →
  endOfRecord (delimiter d) = false
  ∧ Ascii.eqb (delimiter d) NUL = false
  ∧ isQuote (delimiter d) d = false
  ∧ isChar (delimiter d) (escapeChar d) = false
  ∧ Ascii.eqb (delimiter d) SPACE && skipInitialSpace d = false.
Proof.
  unfold delimiterOK. cbn zeta.
  intros [[[Ho Hq%negb_true_iff]%andb_true_iff
             He%negb_true_iff]%andb_true_iff
            Hs%negb_true_iff]%andb_true_iff.
  by apply ordinary_spec in Ho as [? ?].
Qed.

Lemma quoteOK_spec d :
  quoteOK d = true →
  quoteChar d = Some (quoteOf d)
  ∧ endOfRecord (quoteOf d) = false
  ∧ Ascii.eqb (quoteOf d) NUL = false
  ∧ Quoting_eqb (quoting d) NONE = false
  ∧ isChar (quoteOf d) (escapeChar d) = false
  ∧ isChar (quoteOf d) (quoteChar d) = true.
Proof.
  unfold quoteOK, quoteOf. destruct (quoteChar d) as [q|]; [|done]. cbn.
  intros [[Ho Hn%negb_true_iff]%andb_true_iff
            He%negb_true_iff]%andb_true_iff.
  apply ordinary_spec in Ho as [? ?]. by rewrite Ascii.eqb_refl.
Qed.

Lemma separator_spec d x :
  delimiterOK d = true → separator d x →
  Ascii.eqb x NUL = false
  ∧ (endOfRecord x = true ∧ Ascii.eqb x (delimiter d) = false
                          ∧ stateAfter x = START_RECORD
     ∨ endOfRecord x = false ∧ x = delimiter d
       ∧ stateAfter x = START_FIELD).
Proof.
  intros Hd%delimiterOK_spec [Hx | ->]; destruct Hd as (He & Hn & _).
  - split; [by apply endOfRecord_not_nul|]. left.
    unfold stateAfter. rewrite Hx. repeat split.
    apply Ascii.eqb_neq. intros ->. congruence.
  - split; [done|]. right. unfold stateAfter. by rewrite He.
Qed.

(** A separator after a field outside quotes, or at its start. *)
Lemma feed_separator st x rest d ls fs f nf n :
  st = START_FIELD ∨ st = IN_FIELD →
  delimiterOK d = true → separator d x →
  negb nf || negb (isNaN (Number f)) = true →
  feedList (x :: rest) (mkReader d ls fs f nf st n)
  = feedList rest
      (mkReader d ls (fs ++ [completed nf f]) "" false (stateAfter x) n).
Proof.
  intros Hst Hd Hx Hnum.
  destruct (separator_spec d x Hd Hx) as [Hnul Hcase].
  apply delimiterOK_spec in Hd as (Hde & _ & Hdq & Hdesc & Hdsp).
  cbn [feedList]. rewrite Hnul. unfold processChar, processCharAt.
  destruct Hst as [-> | ->]; cbn [state dialect];
    destruct Hcase as [(He & Hxd & ->) | (He & -> & ->)];
    rewrite He; unfold saveFieldThen;
    rewrite ?Hdq, ?Hdesc, ?Hdsp, ?Ascii.eqb_refl;
    by rewrite saveField_completed.
Qed.

(** A separator after the quote that closes a field. *)
Lemma feed_separator_closed x rest d ls fs f n :
  delimiterOK d = true → quoteOK d = true → separator d x →
  feedList (x :: rest)
    (mkReader d ls fs f false
       (if doubleQuote d then QUOTE_IN_QUOTED_FIELD else IN_FIELD) n)
  = feedList rest
      (mkReader d ls (fs ++ [FString f]) "" false (stateAfter x) n).
Proof.
  intros Hd Hq Hx. destruct (doubleQuote d);
    [|by rewrite (feed_separator IN_FIELD) by auto].
  destruct (separator_spec d x Hd Hx) as [Hnul Hcase].
  apply delimiterOK_spec in Hd as (Hde & _ & Hdq & _).
  apply quoteOK_spec in Hq as (Hqc & Hqe & _ & Hnone & _).
  cbn [feedList]. rewrite Hnul. unfold processChar, processCharAt.
  cbn [state dialect]. rewrite Hnone. cbn [negb andb].
  destruct Hcase as [(He & Hxd & ->) | (He & -> & ->)].
  - assert (isChar x (quoteChar d) = false) as ->.
    { rewrite Hqc. cbn. apply Ascii.eqb_neq. intros ->. congruence. }
    rewrite Hxd, He. unfold saveFieldThen. by rewrite saveField_completed.
  - unfold isQuote in Hdq. rewrite Hnone, andb_true_r in Hdq.
    rewrite Hdq, Ascii.eqb_refl. unfold saveFieldThen.
    by rewrite saveField_completed.
Qed.

(** Leading spaces. *)
Lemma feed_pad d pad : ∀ rest ls fs f nf n,
  padOK d pad = true →
  feedList (replicate pad SPACE ++ rest)
    (mkReader d ls fs f nf START_FIELD n)
  = feedList rest (mkReader d ls fs f nf START_FIELD n).
Proof.
  intros rest ls fs f nf n Hok. induction pad as [|pad IH]; [done|].
  unfold padOK in Hok. cbn [Nat.eqb orb] in Hok.
  apply andb_true_iff in Hok
    as [[Hs Hq%negb_true_iff]%andb_true_iff He%negb_true_iff].
  cbn [replicate app feedList].
  change (Ascii.eqb SPACE NUL) with false. cbv iota.
  unfold processChar, processCharAt. cbn [state dialect].
  change (endOfRecord SPACE) with false. cbv iota.
  rewrite Hq, He, Hs, Ascii.eqb_refl. cbn [andb].
  apply IH. unfold padOK. by rewrite Hs, Hq, He, orb_true_r.
Qed.

Ltac reader_simpl :=
  unfold set_state, set_field, set_fields, set_numericField, set_lines,
    set_lineNum, addChar;
  cbn [dialect lines fields field numericField state lineNum].

(** A field outside quotes, from its first character to its last. *)
Lemma feed_unquoted d ts rest ls fs n :
  forallb (tokenOK d) ts = true → startOK d ts = true → ts ≠ [] →
  feedList (mjoin (renderToken d <$> ts) ++ rest)
    (mkReader d ls fs "" false START_FIELD n)
  = feedList rest
      (mkReader d ls fs (string_of_list_ascii (tokenChar <$> ts))
         (marked d (Unquoted 0 ts)) IN_FIELD n).
Proof.
  intros Hok Hstart Hne. destruct ts as [|t ts]; [done|].
  cbn [forallb] in Hok. apply andb_true_iff in Hok as [Ht Hts].
  cbn [fmap list_fmap mjoin list_join tokenChar].
  rewrite string_of_list_ascii_cons. rewrite <- app_assoc.
  destruct t as [c|c]; cbn [renderToken app tokenChar marked].
  - cbn [tokenOK] in Ht. cbn [startOK] in Hstart.
    apply andb_true_iff in Ht as [[Ho Hd%negb_true_iff]%andb_true_iff
                                   He%negb_true_iff].
    apply andb_true_iff in Hstart as [Hq%negb_true_iff Hs%negb_true_iff].
    apply ordinary_spec in Ho as [Heor Hnul].
    cbn [feedList]. rewrite Hnul. unfold processChar, processCharAt.
    cbn [state dialect]. rewrite Heor, Hq, He, Hs, Hd.
    destruct (Quoting_eqb (quoting d) NON_NUMERIC); reader_simpl;
      rewrite feed_tokens by done; by rewrite append_nil_l.
  - cbn [tokenOK] in Ht. apply andb_true_iff in Ht as [Ho He].
    apply ordinary_spec in Ho as [Heor Hnul].
    apply escapeOK_spec in He as (_ & Heeor & Henul & Heq & Hee).
    cbn [feedList]. rewrite Henul, Hnul. unfold processChar, processCharAt.
    cbn [state dialect]. rewrite Heeor, Heq, Hee.
    reader_simpl. rewrite Heor. reader_simpl.
    rewrite feed_tokens by done. by rewrite append_nil_l.
Qed.

Lemma feedList_cons c rest r :
  Ascii.eqb c NUL = false →
  feedList (c :: rest) r
  = match forget (processChar c (HasNextIterator.new rest) r) with
    | Normal _ r' => feedList rest r'
    | Throw m r' => Throw m r'
    end.
Proof.
  intros H. cbn [feedList]. rewrite H.
  by destruct (processChar c (HasNextIterator.new rest) r).
Qed.

(** Inside quotes, with a character still to come on the line. *)
Lemma processChar_in_quoted c y l d ls fs f nf n :
  forget (processChar c (HasNextIterator.new (y :: l))
            (mkReader d ls fs f nf IN_QUOTED_FIELD n))
  = Normal tt
      (if isChar c (escapeChar d) then
         mkReader d ls fs f nf ESCAPE_IN_QUOTED_FIELD n
       else if isQuote c d then
         mkReader d ls fs f nf
           (if doubleQuote d then QUOTE_IN_QUOTED_FIELD else IN_FIELD) n
       else mkReader d ls fs (f +:+ chr c) nf IN_QUOTED_FIELD n).
Proof.
  unfold processChar, processCharAt, endOfData.
  cbn [state dialect lines HasNextIterator.hasNext HasNextIterator.new
       HasNextIterator.next HasNextIterator.nextValues
       HasNextIterator.iterator negb].
  by repeat case_match.
Qed.

(** One token inside quotes, with a character after it. *)
Lemma feed_qtoken d t y rest ls fs f n :
  qtokenOK d t = true → quoteOK d = true →
  feedList (renderQToken d t ++ y :: rest)
    (mkReader d ls fs f false IN_QUOTED_FIELD n)
  = feedList (y :: rest)
      (mkReader d ls fs (f +:+ chr (qtokenChar d t)) false
         IN_QUOTED_FIELD n).
Proof.
  intros Ht Hq.
  apply quoteOK_spec in Hq as (Hqc & Hqeor & Hqnul & Hnone & Hqesc & Hqq).
  destruct t as [c|c|]; cbn [renderQToken app qtokenChar qtokenOK] in *.
  - apply andb_true_iff in Ht as [[Ho He%negb_true_iff]%andb_true_iff
                                   Hcq%negb_true_iff].
    apply ordinary_spec in Ho as [Heor Hnul].
    rewrite feedList_cons, processChar_in_quoted by done.
    by rewrite He, Hcq.
  - apply andb_true_iff in Ht as [Ho He].
    apply ordinary_spec in Ho as [Heor Hnul].
    apply escapeOK_spec in He as (_ & Heeor & Henul & Heq & Hee).
    rewrite feedList_cons, processChar_in_quoted by done.
    rewrite Hee. cbv beta iota. by rewrite feedList_cons by done.
  - rewrite feedList_cons, processChar_in_quoted by done.
    unfold isQuote. rewrite Hqesc, Hqq, Hnone, Ht.
    cbn [andb negb]. cbv beta iota.
    rewrite feedList_cons by done.
    unfold processChar, processCharAt. cbn [state dialect].
    by rewrite Hnone, Hqq.
Qed.

Lemma feed_qtokens d ts : ∀ y rest ls fs f n,
  forallb (qtokenOK d) ts = true → quoteOK d = true →
  feedList (mjoin (renderQToken d <$> ts) ++ y :: rest)
    (mkReader d ls fs f false IN_QUOTED_FIELD n)
  = feedList (y :: rest)
      (mkReader d ls fs (f +:+ string_of_list_ascii (qtokenChar d <$> ts))
         false IN_QUOTED_FIELD n).
Proof.
  induction ts as [|t ts IH]; intros y rest ls fs f n Hok Hq.
  - cbn. by rewrite append_nil_r.
  - cbn [forallb] in Hok. apply andb_true_iff in Hok as [Ht Hts].
    cbn [fmap list_fmap mjoin list_join].
    rewrite string_of_list_ascii_cons, <- append_chr, <- app_assoc.
    destruct (mjoin (renderQToken d <$> ts) ++ y :: rest) as [|z l] eqn:E.
    { by destruct (mjoin (renderQToken d <$> ts)). }
    rewrite feed_qtoken by done. rewrite <- E. by apply IH.
Qed.

(** A quoted field, from the opening quote to the closing one. *)
Lemma feed_quoted d ts x rest ls fs n :
  forallb (qtokenOK d) ts = true → quoteOK d = true →
  feedList (quoteOf d :: mjoin (renderQToken d <$> ts)
            ++ quoteOf d :: x :: rest)
    (mkReader d ls fs "" false START_FIELD n)
  = feedList (x :: rest)
      (mkReader d ls fs (string_of_list_ascii (qtokenChar d <$> ts)) false
         (if doubleQuote d then QUOTE_IN_QUOTED_FIELD else IN_FIELD) n).
Proof.
  intros Hok Hq.
  pose proof (quoteOK_spec d Hq)
    as (Hqc & Hqeor & Hqnul & Hnone & Hqesc & Hqq).
  cbn [feedList]. rewrite Hqnul. unfold processChar at 1.
  unfold processCharAt. cbn [state dialect].
  unfold isQuote. rewrite Hqeor, Hqq, Hnone. cbn [negb andb].
  reader_simpl. rewrite feed_qtokens by done. rewrite append_nil_l.
  rewrite feedList_cons, processChar_in_quoted by done.
  unfold isQuote. by rewrite Hqesc, Hqq, Hnone.
Qed.

(** A field and the separator after it. *)
Lemma feed_field d f x rest ls fs n :
  fieldOK d f = true → delimiterOK d = true → separator d x →
  feedList (renderField d f ++ x :: rest)
    (mkReader d ls fs "" false START_FIELD n)
  = feedList rest
      (mkReader d ls (fs ++ [fieldValue d f]) "" false (stateAfter x) n).
Proof.
  intros Hf Hd Hx. destruct f as [pad ts|pad ts]; cbn [fieldOK] in Hf.
  - apply andb_true_iff in Hf as [[[Hpad Hts]%andb_true_iff
                                    Hstart]%andb_true_iff Hnum].
    cbn [renderField]. rewrite <- app_assoc, feed_pad by done.
    destruct ts as [|t ts].
    + cbn [fmap list_fmap mjoin list_join app].
      by rewrite (feed_separator START_FIELD) by auto.
    + rewrite feed_unquoted by done.
      assert (marked d (Unquoted 0 (t :: ts))
              = marked d (Unquoted pad (t :: ts))) as -> by done.
      rewrite (feed_separator IN_FIELD) by auto.
      unfold fieldValue, completed. by cbn [fieldText].
  - apply andb_true_iff in Hf as [[Hpad Hq]%andb_true_iff Hts].
    cbn [renderField]. rewrite <- !app_assoc, feed_pad by done.
    cbn [app]. rewrite <- app_assoc. cbn [app].
    rewrite feed_quoted by done.
    by rewrite feed_separator_closed by done.
Qed.

Lemma ordinary_space : ordinary SPACE = true.
Proof. reflexivity. Qed.

Lemma renderField_ordinary d f :
  fieldOK d f = true → Forall (λ c, ordinary c = true) (renderField d f).
Proof.
  assert (Hesc : escapeOK d = true → ordinary (escapeOf d) = true).
  { unfold escapeOK, escapeOf. destruct (escapeChar d); [|done].
    by intros [? _]%andb_true_iff. }
  assert (Hquote : quoteOK d = true → ordinary (quoteOf d) = true).
  { unfold quoteOK, quoteOf. destruct (quoteChar d); [|done].
    by intros [[? _]%andb_true_iff _]%andb_true_iff. }
  destruct f as [pad ts|pad ts]; cbn [fieldOK renderField].
  - intros [[[_ Hts]%andb_true_iff _]%andb_true_iff _]%andb_true_iff.
    apply Forall_app. split; [by apply Forall_replicate|].
    induction ts as [|t ts IH]; [constructor|].
    cbn [forallb] in Hts. apply andb_true_iff in Hts as [Ht Hts].
    cbn. apply Forall_app. split; [|by apply IH].
    destruct t as [c|c]; cbn [tokenOK renderToken] in *.
    + apply andb_true_iff in Ht as [[Ho _]%andb_true_iff _].
      by repeat constructor.
    + apply andb_true_iff in Ht as [Ho He]. repeat constructor; auto.
  - intros [[_ Hq]%andb_true_iff Hts]%andb_true_iff.
    apply Forall_app. split; [by apply Forall_replicate|].
    constructor; [by apply Hquote|]. apply Forall_app.
    split; [|repeat constructor; by apply Hquote].
    induction ts as [|t ts IH]; [constructor|].
    cbn [forallb] in Hts. apply andb_true_iff in Hts as [Ht Hts].
    cbn. apply Forall_app. split; [|by apply IH].
    destruct t as [c|c|]; cbn [qtokenOK renderQToken] in *.
    + apply andb_true_iff in Ht as [[Ho _]%andb_true_iff _].
      by repeat constructor.
    + apply andb_true_iff in Ht as [Ho He]. repeat constructor; auto.
    + repeat constructor; by apply Hquote.
Qed.

Lemma renderRow_ordinary d row :
  rowOK d row = true → Forall (λ c, ordinary c = true) (renderRow d row).
Proof.
  unfold rowOK. intros [Hd Hrow]%andb_true_iff.
  assert (Hdel : ordinary (delimiter d) = true).
  { unfold delimiterOK in Hd. cbn zeta in Hd.
    by apply andb_true_iff in Hd
      as [[[? _]%andb_true_iff _]%andb_true_iff _]. }
  induction row as [|f row IH]; [constructor|].
  cbn [forallb] in Hrow. apply andb_true_iff in Hrow as [Hf Hrow].
  cbn [renderRow]. apply Forall_app. split; [by apply renderField_ordinary|].
  destruct row; [constructor|]. constructor; [done|]. by apply IH.
Qed.

Lemma renderRow_cons d f g row :
  renderRow d (f :: g :: row)
  = renderField d f ++ delimiter d :: renderRow d (g :: row).
Proof. reflexivity. Qed.

(** The fields of a row, from the start of the first one. *)
Lemma feed_fields d t ls n : ∀ row f fs,
  delimiterOK d = true → forallb (fieldOK d) (f :: row) = true →
  endOfRecord t = true →
  feedList (renderRow d (f :: row) ++ [t])
    (mkReader d ls fs "" false START_FIELD n)
  = Normal tt
      (mkReader d ls (fs ++ (fieldValue d <$> f :: row)) "" false
         START_RECORD n).
Proof.
  induction row as [|g row IH]; intros f fs Hd Hok Ht;
    cbn [forallb] in Hok; apply andb_true_iff in Hok as [Hf Hrow].
  - cbn [renderRow]. rewrite app_nil_r.
    rewrite feed_field by (auto; by left).
    unfold stateAfter. by rewrite Ht.
  - rewrite renderRow_cons, <- app_assoc. cbn [app].
    rewrite feed_field by (auto; by right).
    apply delimiterOK_spec in Hd as Hd'. destruct Hd' as (Hde & _).
    unfold stateAfter. rewrite Hde.
    rewrite IH by done. by rewrite <- app_assoc.
Qed.

Lemma feedList_start_record c l d ls fs f nf n :
  ordinary c = true →
  feedList (c :: l) (mkReader d ls fs f nf START_RECORD n)
  = feedList (c :: l) (mkReader d ls fs f nf START_FIELD n).
Proof.
  intros [Hc Hnul]%ordinary_spec. cbn [feedList]. rewrite Hnul.
  unfold processChar. cbn [state]. by rewrite Hc.
Qed.

(** A whole line, from the start of the record. *)
Lemma feed_row d row t ls n :
  rowOK d row = true → endOfRecord t = true →
  feedList (renderRow d row ++ [t])
    (mkReader d ls [] "" false START_RECORD n)
  = Normal tt (mkReader d ls (rowValue d row) "" false START_RECORD n).
Proof.
  intros Hok Ht. pose proof (renderRow_ordinary d row Hok) as Hord.
  unfold rowValue. apply andb_true_iff in Hok as [Hd Hrow].
  destruct (renderRow d row) as [|c l] eqn:E.
  - cbn [app feedList]. rewrite endOfRecord_not_nul by done.
    unfold processChar. cbn [state]. by rewrite Ht.
  - apply Forall_cons_1 in Hord as [Hc _].
    cbn [app]. rewrite feedList_start_record by done.
    destruct row as [|f row]; [done|].
    change (c :: l ++ [t]) with ((c :: l) ++ [t]). rewrite <- E.
    by rewrite feed_fields.
Qed.

Lemma nextLoop_line fuel d line rest fs f nf st n :
  line ≠ "" →
  nextLoop (S fuel) (mkReader d (HasNextIterator.new (line :: rest)) fs f
                       nf st n)
  = match feedLine line
            (mkReader d (HasNextIterator.new rest) fs f nf st (S n)) with
    | None => None
    | Some (Throw m r3) => Some (Throw m r3)
    | Some (Normal _ r3) =>
        if ParserState_eqb (state r3) START_RECORD then Some (returnRow r3)
        else nextLoop fuel r3
    end.
Proof. intros Hne. by destruct line. Qed.

Lemma next_line_row d row t line rest fs0 nf0 st0 n :
  rowOK d row = true → endOfRecord t = true →
  list_ascii_of_string line = renderRow d row ++ [t] →
  next (mkReader d (HasNextIterator.new (line :: rest)) fs0 "" nf0 st0 n)
  = Some (Normal {| value := rowValue d row; done := false |}
            (mkReader d (HasNextIterator.new rest) [] "" false START_RECORD
               (S n))).
Proof.
  intros Hok Ht Hline. unfold next, reset. reader_simpl.
  rewrite nextLoop_line by (intros ->; by destruct (renderRow d row)).
  rewrite feedLine_feedList, Hline, feed_row by done.
  by cbn.
Qed.

Lemma string_of_list_ascii_app l1 l2 :
  string_of_list_ascii (l1 ++ l2)
  = string_of_list_ascii l1 +:+ string_of_list_ascii l2.
Proof.
  induction l1 as [|c l1 IH]; [done|]. cbn. by rewrite IH.
Qed.

Lemma plain_ordinary l :
  Forall (λ c, ordinary c = true) l → plain (string_of_list_ascii l) = true.
Proof.
  induction 1 as [|c l Hc _ IH]; [done|]. cbn.
  apply ordinary_spec in Hc as [Hc _]. unfold endOfRecord in Hc.
  by rewrite Hc, IH.
Qed.

Lemma sourceLines_renderRows d term rows :
  term = CRLF ∨ term = chr LF →
  Forall (λ row, rowOK d row = true) rows →
  sourceLines (renderRows d term rows) = lineOfRow d <$> rows.
Proof.
  intros Hterm Hrows. unfold sourceLines.
  assert (Hsplit : splitLines (renderRows d term rows)
            = (λ row, string_of_list_ascii (renderRow d row) +:+ term)
              <$> rows).
  { unfold splitLines. induction Hrows as [|row rows Hrow _ IH]; [done|].
    cbn [renderRows fmap list_fmap].
    pose proof (plain_ordinary _ (renderRow_ordinary d row Hrow)) as Hp.
    destruct (splitLinesFrom_plain _ "" (renderRows d term rows) Hp)
      as [H1 H2].
    destruct Hterm as [-> | ->]; [rewrite H1 | rewrite H2];
      by rewrite IH, append_nil_l. }
  assert (Hterminated : terminated (renderRows d term rows)
                        = renderRows d term rows).
  { unfold terminated. destruct rows as [|row rows]; [done|].
    assert (endsWith (renderRows d term (row :: rows)) (chr LF) = true)
      as ->; [|by rewrite andb_false_r].
    apply endsWith_spec. clear Hsplit Hrows.
    revert row. induction rows as [|row' rows IH]; intros row.
    - cbn [renderRows]. rewrite append_nil_r.
      destruct Hterm as [-> | ->]; eexists.
      + unfold CRLF. change (String CR (chr LF)) with (chr CR +:+ chr LF).
        by rewrite <- append_assoc.
      + done.
    - destruct (IH row') as [p Hp]. cbn [renderRows] in *. rewrite Hp.
      eexists. by rewrite <- !append_assoc. }
  rewrite Hterminated, Hsplit, <- list_fmap_compose.
  apply Forall_fmap_ext_1. eapply Forall_impl; [exact Hrows|].
  intros row Hrow. cbn. unfold lineOfRow.
  pose proof (plain_ordinary _ (renderRow_ordinary d row Hrow)) as Hp.
  destruct Hterm as [-> | ->].
  - apply replaceCrlfAtEnd_crlf.
  - by apply replaceCrlfAtEnd_other.
Qed.

Lemma forOf_rows d : ∀ rows fuel n,
  length rows < fuel →
  Forall (λ row, rowOK d row = true) rows →
  forOf fuel (λ row, [row])
    (mkReader d (HasNextIterator.new (lineOfRow d <$> rows)) [] "" false
       START_RECORD n)
  = Some {| yielded := rowValue d <$> rows; thrown := None |}.
Proof.
  induction rows as [|row rows IH]; intros fuel n Hfuel Hrows;
    (destruct fuel as [|fuel]; [cbn in Hfuel; lia|]); cbn [forOf].
  - by rewrite next_at_end.
  - apply Forall_cons_1 in Hrows as [Hrow Hrows].
    cbn [fmap list_fmap].
    rewrite (next_line_row d row LF) by
      (try done; unfold lineOfRow;
       by rewrite list_ascii_of_string_append,
         list_ascii_of_string_of_list_ascii).
    cbn [done value]. rewrite IH by (cbn in Hfuel; done || lia). done.
Qed.

(** ** What the reader does on well-formed input *)

(** X1. The loop of [next] over a line depends on the character iterator
    only through the characters still to come: whatever [hasNext()] has
    buffered, the loop gives them to [processChar] in order, each with
    the characters after it still to come, and stops at a NUL byte. *)
Theorem line_loop_by_characters (fuel : nat)
    (chars : HasNextIterator.t ascii) (r : Reader) :
  length (HasNextIterator.pending chars) < fuel →
  feedChars fuel chars r = Some (feedList (HasNextIterator.pending chars) r)
  ∧ (∀ fuel' chars',
       HasNextIterator.pending chars' = HasNextIterator.pending chars →
       length (HasNextIterator.pending chars') < fuel' →
       feedChars fuel' chars' r = feedChars fuel chars r)
  ∧ ∀ line, feedLine line r
            = Some (feedList (list_ascii_of_string line) r).
Proof.
  intros Hlen. split; [by apply feedChars_feedList|]. split.
  - intros fuel' chars' Hp Hlen'.
    by rewrite !feedChars_feedList, Hp by done.
  - intros line. apply feedLine_feedList.
Qed.

Lemma line_loop_by_characters_witness :
  feedChars 3
    (HasNextIterator.hasNext (HasNextIterator.new ["a"%char; LF])).2
    (newReader "" excel)
  = feedChars 5 (HasNextIterator.new ["a"%char; LF]) (newReader "" excel).
Proof.
  destruct (line_loop_by_characters 5 (HasNextIterator.new ["a"%char; LF])
              (newReader "" excel)) as (_ & Hsame & _); [cbn; lia|].
  apply Hsame; [reflexivity|cbn; lia].
Defined.

(** X2. A line made of well-formed fields with the delimiter between
    them and an end-of-record character at the end is read by one
    [next()] as the row of the texts the fields stand for: escape
    characters and enclosing quotes removed, doubled quotes halved,
    leading spaces skipped when the dialect says so, a field that starts
    with a plain character converted to a number under NON_NUMERIC
    quoting; a line without any character before its terminator is the
    empty row. The call consumes that one line and leaves the Reader at
    the start of a record. *)
Theorem next_reads_row (d : Dialect) (row : list FieldSyntax) (t : ascii)
    (line : string) (rest : list string) (fs0 : Row) (nf0 : bool)
    (st0 : ParserState) (n : nat) :
  rowOK d row = true →
  endOfRecord t = true →
  list_ascii_of_string line = renderRow d row ++ [t] →
  next (mkReader d (HasNextIterator.new (line :: rest)) fs0 "" nf0 st0 n)
  = Some (Normal {| value := rowValue d row; done := false |}
            (mkReader d (HasNextIterator.new rest) [] "" false START_RECORD
               (S n))).
Proof. apply next_line_row. Qed.

Lemma next_reads_row_witness :
  next (newReader ("ab," +:+ String DQUOTE ("," +:+ String DQUOTE
          (String DQUOTE (String DQUOTE ",")))) excel)
  = Some (Normal {| value := [FString "ab";
                              FString ("," +:+ chr DQUOTE);
                              FString ""];
                    done := false |}
            (mkReader excel (HasNextIterator.new []) [] "" false
               START_RECORD 1)).
Proof.
  apply (next_reads_row excel sampleRow LF); reflexivity.
Defined.

Lemma reader_renderRows d term rows :
  term = CRLF ∨ term = chr LF →
  Forall (λ row, rowOK d row = true) rows →
  sourceLines (renderRows d term rows) = lineOfRow d <$> rows
  ∧ reader (renderRows d term rows) d
    = Some {| yielded := rowValue d <$> rows; thrown := None |}.
Proof.
  intros Hterm Hrows.
  pose proof (sourceLines_renderRows d term rows Hterm Hrows) as Hlines.
  split; [done|]. unfold reader, newReader, rowsLeft. cbn [lines].
  rewrite Hlines. apply forOf_rows; [|done].
  cbn. rewrite length_fmap. lia.
Qed.

(** X3. A source made of well-formed rows, each followed by CR LF (or
    each by LF), is read back by [reader] row by row as the texts the
    fields stand for, without an error. *)
Theorem reader_reads_rows (d : Dialect) (term : string)
    (rows : list (list FieldSyntax)) :
  term = CRLF ∨ term = chr LF →
  Forall (λ row, rowOK d row = true) rows →
  sourceLines (renderRows d term rows) = lineOfRow d <$> rows
  ∧ reader (renderRows d term rows) d
    = Some {| yielded := rowValue d <$> rows; thrown := None |}.
Proof. apply reader_renderRows. Qed.

Lemma reader_reads_rows_witness :
  reader (renderRows excel CRLF [sampleRow; []; sampleRow]) excel
  = Some {| yielded := rowValue excel <$> [sampleRow; []; sampleRow];
            thrown := None |}.
Proof.
  apply reader_reads_rows; [by left|].
  repeat constructor.
Defined.

Lemma forallb_Forall {A : Type} (f : A → bool) (l : list A) :
  Forall (λ x, f x = true) l → forallb f l = true.
Proof. induction 1 as [|x l Hx _ IH]; [done|]. cbn. by rewrite Hx. Qed.

Lemma quoteField_ok d text :
  quoteOK d = true → doubleQuote d = true → escapeChar d = None →
  Forall (λ c, ordinary c = true) text →
  fieldOK d (quoteField d text) = true
  ∧ fieldValue d (quoteField d text) = FString (string_of_list_ascii text).
Proof.
  intros Hq Hdq Hesc Htext.
  pose proof (quoteOK_spec d Hq) as (Hqc & _ & _ & Hnone & _).
  unfold quoteField, fieldValue. cbn [fieldOK marked fieldText]. split.
  - rewrite Hq. change (padOK d 0) with true. cbn [andb].
    induction Htext as [|c text Hc _ IH]; [done|].
    cbn [fmap list_fmap forallb]. rewrite IH, andb_true_r.
    destruct (isQuote c d) eqn:E; cbn [qtokenOK]; [done|].
    by rewrite Hc, Hesc, E.
  - do 2 f_equal. clear Htext.
    induction text as [|c text IH]; [done|].
    cbn [fmap list_fmap]. rewrite IH. f_equal.
    destruct (isQuote c d) eqn:E; [|done]. cbn [qtokenChar].
    unfold isQuote in E. apply andb_true_iff in E as [E _].
    rewrite Hqc in E. cbn in E. apply Ascii.eqb_eq in E.
    unfold quoteOf. by rewrite Hqc.
Qed.

(** X4. Round trip of quoted text. Under a dialect with a quote
    character, quote doubling and no escape character (excel is one),
    write every field of every row between quotes with each quote
    character doubled, the fields of a row joined by the delimiter and
    each row followed by CR LF: whatever the texts hold besides CR, LF
    and NUL (delimiters, quotes, spaces), [reader] gives back exactly
    the rows of texts. *)
Theorem quoted_round_trip (d : Dialect) (rows : list (list (list ascii))) :
  quoteOK d = true → doubleQuote d = true → escapeChar d = None →
  delimiterOK d = true →
  Forall (Forall (Forall (λ c, ordinary c = true))) rows →
  reader (renderRows d CRLF (quoteRows d rows)) d
  = Some {| yielded := textRows rows; thrown := None |}.
Proof.
  intros Hq Hdq Hesc Hd Hrows. unfold quoteRows, textRows.
  destruct (reader_renderRows d CRLF
              ((λ row : list (list ascii), quoteField d <$> row) <$> rows))
    as [_ ->]; [by left| |].
  - apply Forall_fmap. eapply Forall_impl; [exact Hrows|].
    intros row Hrow. cbn. unfold rowOK. rewrite Hd. cbn [andb].
    apply forallb_Forall, Forall_fmap.
    eapply Forall_impl; [exact Hrow|].
    intros text Htext. cbn. by apply quoteField_ok.
  - do 2 f_equal. rewrite <- list_fmap_compose.
    apply Forall_fmap_ext_1. eapply Forall_impl; [exact Hrows|].
    intros row Hrow. cbn. unfold rowValue.
    destruct row as [|text row]; [done|].
    assert (renderRow d (quoteField d <$> text :: row) ≠ []) as Hne.
    { cbn. by destruct ((λ c, if isQuote c d then QDoubled else QPlain c)
                          <$> text). }
    destruct (renderRow d (quoteField d <$> text :: row)); [done|].
    rewrite <- list_fmap_compose. apply Forall_fmap_ext_1.
    eapply Forall_impl; [exact Hrow|].
    intros text' Htext'. cbn. by apply quoteField_ok.
Qed.

Lemma quoted_round_trip_witness :
  reader (renderRows excel CRLF
            (quoteRows excel
               [[list_ascii_of_string "a,b"; [DQUOTE]]; [[]]]))
    excel
  = Some {| yielded := [[FString "a,b"; FString (chr DQUOTE)];
                        [FString ""]];
            thrown := None |}.
Proof.
  apply (quoted_round_trip excel
           [[list_ascii_of_string "a,b"; [DQUOTE]]; [[]]]);
    try reflexivity.
  repeat constructor.
Defined.

(** ** The errors of [next] *)

Lemma saveField_throw r m r' :
  markedByQuoting r → saveField r = Throw m r' →
  quoting (dialect r) = NON_NUMERIC
  ∧ isNaN (Number (field r)) = true
  ∧ m = atLine ("could not convert string to number: " +:+ field r)
          (lineNum r')
  ∧ lineNum r' = lineNum r.
Proof.
  unfold saveField, error, markedByQuoting. intros Hm.
  destruct (numericField r) eqn:Hn; [|done].
  change (field (set_numericField false r)) with (field r).
  destruct (isNaN (Number (field r))) eqn:Hnan; [|done].
  intros ?; simplify_eq. by repeat split; auto.
Qed.

Lemma processCharAt_throw s c chars r m r' :
  markedByQuoting r → processCharAt s c chars r = Throw m r' →
  lineNum r' = lineNum r
  ∧ ((strict (dialect r) = true ∧ m = atLine (quoteMessage (dialect r))
                                        (lineNum r'))
     ∨ ∃ text, quoting (dialect r) = NON_NUMERIC
               ∧ isNaN (Number text) = true
               ∧ m = atLine ("could not convert string to number: "
                             +:+ text) (lineNum r')).
Proof.
  intros Hm. unfold processCharAt, saveFieldThen.
  assert (Hsave : ∀ m r', saveField r = Throw m r' →
    lineNum r' = lineNum r
    ∧ ((strict (dialect r) = true ∧ m = atLine (quoteMessage (dialect r))
                                          (lineNum r'))
       ∨ ∃ text, quoting (dialect r) = NON_NUMERIC
                 ∧ isNaN (Number text) = true
                 ∧ m = atLine ("could not convert string to number: "
                               +:+ text) (lineNum r'))).
  { intros m0 r0 H0. apply saveField_throw in H0 as (? & ? & ? & ?);
      [|done]. split; [done|]. right. by eexists. }
  destruct s; try done.
  all: try (destruct (endOfData chars (lines r)) as [[eod chars1] ls']).
  all: repeat case_match; intros ?; simplify_eq; try by apply Hsave.
  unfold error in *. simplify_eq. split; [done|]. left.
  split; [|done]. by apply negb_false_iff.
Qed.

Lemma processChar_throw c chars r m r' :
  markedByQuoting r → processChar c chars r = Throw m r' →
  lineNum r' = lineNum r
  ∧ ((strict (dialect r) = true ∧ m = atLine (quoteMessage (dialect r))
                                        (lineNum r'))
     ∨ ∃ text, quoting (dialect r) = NON_NUMERIC
               ∧ isNaN (Number text) = true
               ∧ m = atLine ("could not convert string to number: "
                             +:+ text) (lineNum r')).
Proof.
  intros Hm. unfold processChar.
  destruct (state r); try by apply processCharAt_throw.
  all: case_match; try done.
  all: intros H1.
  all: apply (processCharAt_throw _ c chars (set_state _ r)) in H1;
    [exact H1 | exact Hm].
Qed.

Lemma processCharAt_marked s c chars r chars' r' :
  markedByQuoting r → processCharAt s c chars r = Normal chars' r' →
  markedByQuoting r'.
Proof.
  intros Hm. unfold processCharAt, saveFieldThen, error.
  assert (Hsave : ∀ u r0 st, saveField r = Normal u r0 →
                             markedByQuoting (set_state st r0)).
  { intros u r0 st H0. apply saveField_marked in H0.
    unfold markedByQuoting. cbn. by rewrite H0. }
  assert (Hsave' : ∀ u r0, saveField r = Normal u r0 → markedByQuoting r0).
  { intros u r0 H0. apply saveField_marked in H0.
    unfold markedByQuoting. by rewrite H0. }
  destruct s.
  all: try (destruct (endOfData chars (lines r)) as [[eod chars1] ls']).
  all: repeat case_match; intros ?; simplify_eq; eauto.
  all: unfold markedByQuoting in *; cbn; auto.
  all: intros _; by apply Quoting_eqb_eq.
Qed.

Lemma processChar_marked c chars r chars' r' :
  markedByQuoting r → processChar c chars r = Normal chars' r' →
  markedByQuoting r'.
Proof.
  intros Hm. unfold processChar.
  destruct (state r); try by apply processCharAt_marked.
  all: case_match; try (by intros ?; simplify_eq).
  all: intros H1.
  all: apply (processCharAt_marked _ c chars (set_state _ r)) in H1;
    [exact H1 | exact Hm].
Qed.

Lemma elem_of_drop_further {A : Type} (x : A) k : ∀ l : list A,
  x ∈ drop k l → x ∈ l.
Proof.
  induction k as [|k IH]; intros [|y l]; cbn; try done.
  intros H. by apply list_elem_of_further, IH.
Qed.

Lemma ReaderError_mono d ls ls' msg :
  ReaderError d ls msg → (∀ line, line ∈ ls → line ∈ ls') →
  ReaderError d ls' msg.
Proof.
  intros [H|H|text H1 H2|line H1 H2] Hsub.
  - by apply UnexpectedEnd.
  - by apply MalformedQuote.
  - by apply ConversionFailure.
  - apply (NullByte _ _ line); auto.
Qed.

Lemma feedList_throw l : ∀ r m r',
  markedByQuoting r → feedList l r = Throw m r' →
  lineNum r' = lineNum r
  ∧ ((NUL ∈ l ∧ m = atLine "line contains NULL byte" (lineNum r'))
     ∨ ∃ msg, ReaderError (dialect r) [] msg ∧ m = atLine msg (lineNum r')).
Proof.
  induction l as [|c rest IH]; intros r m r' Hm; [done|].
  cbn [feedList]. destruct (Ascii.eqb c NUL) eqn:Hc.
  - apply Ascii.eqb_eq in Hc as ->. unfold error. intros ?; simplify_eq.
    split; [done|]. left. split; [apply list_elem_of_here|done].
  - pose proof (processChar_frame c (HasNextIterator.new rest) r)
      as (Hd & Hn & _).
    destruct (processChar c (HasNextIterator.new rest) r)
      as [chars' r1|m1 r1] eqn:E.
    + intros Hrest. cbn in Hd, Hn.
      apply IH in Hrest as [Hn' Hcase]; [|by eapply processChar_marked].
      split; [congruence|].
      destruct Hcase as [[Hin ->]|(msg & He & ->)].
      * left. split; [by apply list_elem_of_further|done].
      * right. exists msg. by rewrite <- Hd.
    + intros ?; simplify_eq.
      apply processChar_throw in E as [Hn' Hcase]; [|done].
      split; [done|]. right.
      destruct Hcase as [[Hs ->]|(text & Hq & Hnan & ->)];
        eexists; (split; [|done]).
      * by apply MalformedQuote.
      * by apply ConversionFailure.
Qed.

Lemma feedList_marked l : ∀ r u r',
  markedByQuoting r → feedList l r = Normal u r' → markedByQuoting r'.
Proof.
  induction l as [|c rest IH]; intros r u r' Hm.
  - cbn. intros ?; by simplify_eq.
  - cbn [feedList]. destruct (Ascii.eqb c NUL); [done|].
    destruct (processChar c (HasNextIterator.new rest) r)
      as [chars' r1|m1 r1] eqn:E; [|done].
    apply IH. by eapply processChar_marked.
Qed.

Lemma nextLoop_throw fuel : ∀ r m r',
  markedByQuoting r → nextLoop fuel r = Some (Throw m r') →
  ∃ msg, ReaderError (dialect r) (HasNextIterator.pending (lines r)) msg
    ∧ m = atLine msg (lineNum r')
    ∧ lineNum r ≤ lineNum r'
    ∧ (state r = START_RECORD → field r = "" → lineNum r < lineNum r').
Proof.
  induction fuel as [|fuel IH]; intros r m r' Hm; [done|].
  cbn [nextLoop].
  destruct (HasNextIteratorFacts.next_pending (lines r)) as [Hv Hp].
  destruct (HasNextIterator.next (lines r)) as [result lines1].
  cbn in Hv, Hp. set (r1 := set_lines lines1 r).
  destruct (noLine result) eqn:Hno.
  - change (field r1) with (field r). change (state r1) with (state r).
    destruct (negb (String.length (field r) =? 0)%nat
              || ParserState_eqb (state r) IN_QUOTED_FIELD) eqn:Hcond;
      [|done].
    assert (Hstart : state r = START_RECORD → field r = "" →
                     lineNum r < lineNum r').
    { intros Hst Hf. by rewrite Hst, Hf in Hcond. }
    destruct (strict (dialect r1)) eqn:Hs.
    + unfold error. intros ?; simplify_eq.
      exists "unexpected end of data".
      split; [by apply UnexpectedEnd|]. split; [done|].
      split; [cbn; lia|done].
    + destruct (saveField r1) as [|m2 r2] eqn:E; [done|].
      intros ?; simplify_eq.
      apply saveField_throw in E as (Hq & Hnan & -> & Hn); [|done].
      eexists. split; [by apply ConversionFailure|]. split; [done|].
      split; [cbn in Hn; lia|done].
  - destruct result as [line|]; [|done]. cbn [default from_option id].
    destruct (HasNextIterator.pending (lines r)) as [|l ls] eqn:Ep;
      [done|]. cbn in Hv, Hp. injection Hv as ->.
    set (r2 := set_lineNum (S (lineNum r1)) r1).
    destruct (feedLine_total l r2) as (o' & Ho' & Hfd & Hfn & Hfp).
    rewrite feedLine_feedList in *. injection Ho' as <-.
    destruct (feedList (list_ascii_of_string l) r2) as [u r3|m3 r3] eqn:E.
    + cbn in Hfd, Hfn, Hfp. rewrite Hp in Hfp.
      destruct (ParserState_eqb (state r3) START_RECORD); [done|].
      intros Hloop.
      apply IH in Hloop as (msg & He & -> & Hle & _);
        [|eapply feedList_marked; [|exact E]; exact Hm].
      exists msg. rewrite Hfd, Hfp in He. rewrite Hfn in Hle.
      split; [|split; [done|split; [lia|intros; lia]]].
      eapply ReaderError_mono; [exact He|].
      intros x Hx. by apply list_elem_of_further.
    + intros ?; simplify_eq.
      apply feedList_throw in E as [Hn Hcase]; [|done]. cbn in Hn.
      destruct Hcase as [[Hin ->]|(msg & He & ->)].
      * exists "line contains NULL byte".
        split; [|split; [done|split; [lia|intros; lia]]].
        apply (NullByte _ _ l); [apply list_elem_of_here|done].
      * exists msg.
        split; [|split; [done|split; [lia|intros; lia]]].
        eapply ReaderError_mono; [exact He|].
        intros x Hx. by apply elem_of_nil in Hx.
Qed.

Lemma next_throw r m r' :
  next r = Some (Throw m r') →
  ∃ msg, ReaderError (dialect r) (HasNextIterator.pending (lines r)) msg
    ∧ m = atLine msg (lineNum r')
    ∧ lineNum r ≤ lineNum r'
    ∧ (field r = "" → lineNum r < lineNum r').
Proof.
  unfold next. intros H.
  apply nextLoop_throw in H as (msg & He & -> & Hle & Hlt); [|done].
  exists msg. split; [done|]. split; [done|]. split; [done|].
  intros Hf. by apply Hlt.
Qed.

Lemma forOf_thrown fuel : ∀ r g m,
  field r = "" → noEmptyLine r →
  forOf fuel (λ row, [row]) r = Some g → thrown g = Some m →
  ∃ msg n, ReaderError (dialect r) (HasNextIterator.pending (lines r)) msg
    ∧ m = atLine msg n
    ∧ lineNum r + length (yielded g) < n
    ∧ n ≤ lineNum r + length (HasNextIterator.pending (lines r)).
Proof.
  induction fuel as [|fuel IH]; intros r g m Hf Hno; [done|].
  cbn [forOf].
  destruct (next_counts r) as (o & k & Ho & Hd & [Hk Hdrop] & Hle & Hnum).
  specialize (Hnum Hno). rewrite Ho. destruct o as [res r'|m' r'].
  - destruct (done res) eqn:Hdone; [by intros ?; simplify_eq|].
    destruct (forOf fuel (λ row, [row]) r') as [g'|] eqn:Hg; [|done].
    intros ?; simplify_eq. cbn [thrown yielded]. intros Ht.
    cbn in Hd, Hdrop, Hnum.
    apply next_row in Ho as [Hf' Hlt]; [|done]. specialize (Hlt Hdone).
    eapply IH in Hg as (msg & n & He & -> & Hlo & Hhi); [|done| |done].
    + exists msg, n. rewrite Hd, Hdrop in He.
      rewrite Hdrop, length_drop in Hhi, Hlt.
      split; [|split; [done|split; cbn; lia]].
      eapply ReaderError_mono; [exact He|].
      intros x Hx. by eapply elem_of_drop_further.
    + unfold noEmptyLine in *. rewrite Hdrop. by apply Forall_drop.
  - intros ?; simplify_eq. cbn. intros ?; simplify_eq.
    apply next_throw in Ho as (msg & He & -> & _ & Hlt).
    exists msg, (lineNum r'). cbn in Hnum.
    split; [done|]. split; [done|]. split; [specialize (Hlt Hf); lia|lia].
Qed.

Lemma noNul_spec s : noNul s = true ↔ NUL ∉ list_ascii_of_string s.
Proof.
  induction s as [|c s IH]; cbn.
  - split; [intros _; apply not_elem_of_nil|done].
  - rewrite andb_true_iff, negb_true_iff, not_elem_of_cons, IH.
    split; intros [Hc Hs]; (split; [|done]).
    + intros <-. by rewrite Ascii.eqb_refl in Hc.
    + destruct (Ascii.eqb c NUL) eqn:E; [|done].
      by apply Ascii.eqb_eq in E as ->.
Qed.

Lemma noNul_append a b : noNul (a +:+ b) = noNul a && noNul b.
Proof.
  induction a as [|c a IH]; [done|]. rewrite append_cons. cbn.
  by rewrite IH, andb_assoc.
Qed.

Lemma noNul_concat l :
  noNul (String.concat "" l) = true → Forall (λ s, noNul s = true) l.
Proof.
  induction l as [|s l IH]; [by constructor|].
  rewrite concat_cons, noNul_append, andb_true_iff.
  intros [Hs Hl]. constructor; auto.
Qed.

Lemma noNul_terminated source :
  noNul source = true → noNul (terminated source) = true.
Proof.
  unfold terminated. intros H. case_match; [|done].
  by rewrite noNul_append, H.
Qed.

Lemma noNul_lineOf raw line :
  lineOf raw line → noNul raw = true → noNul line = true.
Proof.
  intros (body & _ & [[-> ->] | [[-> ->] | [-> ->]]]); try done.
  rewrite !noNul_append, !andb_true_iff. by intros [? _].
Qed.

Lemma noNul_sourceLines source :
  noNul source = true →
  Forall (λ line, noNul line = true) (sourceLines source).
Proof.
  intros H. apply noNul_terminated in H.
  rewrite <- splitLines_concat in H. apply noNul_concat in H.
  pose proof (sourceLines_shape source) as Hs.
  induction Hs as [|raw line raws ls Hl _ IH]; [by constructor|].
  apply Forall_cons in H as [Hraw Hraws].
  constructor; [by eapply noNul_lineOf|by apply IH].
Qed.

Lemma reader_thrown source d g m :
  reader source d = Some g → thrown g = Some m →
  ∃ msg n, ReaderError d (sourceLines source) msg
    ∧ m = atLine msg n
    ∧ length (yielded g) < n ≤ length (sourceLines source).
Proof.
  unfold reader. intros Hg Ht.
  destruct (forOf_thrown _ (newReader source d) g m eq_refl
              (newReader_noEmptyLine source d) Hg Ht)
    as (msg & n & He & -> & Hlo & Hhi).
  exists msg, n. cbn in *. split; [done|]. split; [done|lia].
Qed.

(** ** The errors, as a caller sees them *)

(** X5. Whatever [next] throws is one of the four messages of the
    Reader followed by [, at line n], where n is the line counter the
    call leaves: the end of the data inside a record or a character
    after a closing quote, both under a strict dialect only; a field
    that is no number, under NON_NUMERIC quoting only; a NUL byte in one
    of the lines still to come. The counter never goes back, and it has
    advanced when no field text was pending. *)
Theorem next_errors (r : Reader) (m : string) (r' : Reader) :
  next r = Some (Throw m r') →
  ∃ msg, ReaderError (dialect r) (HasNextIterator.pending (lines r)) msg
    ∧ m = atLine msg (lineNum r')
    ∧ lineNum r ≤ lineNum r'
    ∧ (field r = "" → lineNum r < lineNum r').
Proof. apply next_throw. Qed.

Lemma next_errors_witness :
  ∃ msg, ReaderError excel [chr NUL +:+ chr LF] msg
    ∧ atLine "line contains NULL byte" 2 = atLine msg 2
    ∧ 1 ≤ 2
    ∧ (@eq string "" "" → 1 < 2).
Proof.
  apply (next_errors beforeNulLine (atLine "line contains NULL byte" 2)
           stoppedAtNul).
  reflexivity.
Defined.

(** X6. When the generator [reader] throws, the message is one of the
    four messages of the Reader for the dialect and the lines of the
    source, followed by [, at line n] with n the number of a line of the
    source, counted from 1; the rows yielded before the error are fewer
    than n. *)
Theorem reader_errors (source : string) (d : Dialect)
    (g : Generated Row) (m : string) :
  reader source d = Some g → thrown g = Some m →
  ∃ msg n, ReaderError d (sourceLines source) msg
    ∧ m = atLine msg n
    ∧ length (yielded g) < n ≤ length (sourceLines source).
Proof. apply reader_thrown. Qed.

Lemma reader_errors_witness :
  ∃ msg n, ReaderError excel (sourceLines nulOnSecondLine) msg
    ∧ atLine "line contains NULL byte" 2 = atLine msg n
    ∧ 1 < n ≤ length (sourceLines nulOnSecondLine).
Proof.
  apply (reader_errors nulOnSecondLine excel
           {| yielded := [[FString "a"]];
              thrown := Some (atLine "line contains NULL byte" 2) |});
    reflexivity.
Defined.

(** X7. Under a dialect that is not strict and whose quoting is not
    NON_NUMERIC, [reader] reads every source without NUL byte to its
    end: it returns, and it throws nothing. *)
Theorem reader_never_throws (source : string) (d : Dialect) :
  strict d = false → quoting d ≠ NON_NUMERIC → noNul source = true →
  ∃ rows, reader source d = Some {| yielded := rows; thrown := None |}.
Proof.
  intros Hs Hq Hn. destruct (reader_total source d) as [[rows [m|]] Hg];
    [|by exists rows].
  exfalso.
  destruct (reader_thrown source d _ m Hg eq_refl)
    as (msg & n & He & _ & _).
  destruct He as [H|H|text H _|line Hin Hnul]; try congruence.
  apply noNul_sourceLines in Hn.
  rewrite Forall_forall in Hn. apply Hn in Hin.
  by apply noNul_spec in Hin.
Qed.

Lemma reader_never_throws_witness :
  ∃ rows, reader ("a,b" +:+ chr LF +:+ "c") excel
          = Some {| yielded := rows; thrown := None |}.
Proof.
  apply (reader_never_throws ("a,b" +:+ chr LF +:+ "c") excel);
    [reflexivity|discriminate|reflexivity].
Defined.

(** ** A quoted field over two lines *)

Lemma renderPrefix_cons d f pre :
  renderPrefix d (f :: pre)
  = renderField d f ++ delimiter d :: renderPrefix d pre.
Proof. unfold renderPrefix. cbn. by rewrite <- app_assoc. Qed.

Lemma feed_prefix d ls n : ∀ pre fs rest,
  delimiterOK d = true → forallb (fieldOK d) pre = true →
  feedList (renderPrefix d pre ++ rest)
    (mkReader d ls fs "" false START_FIELD n)
  = feedList rest
      (mkReader d ls (fs ++ (fieldValue d <$> pre)) "" false START_FIELD n).
Proof.
  induction pre as [|f pre IH]; intros fs rest Hd Hok.
  - cbn. by rewrite app_nil_r.
  - cbn [forallb] in Hok. apply andb_true_iff in Hok as [Hf Hpre].
    rewrite renderPrefix_cons, <- app_assoc. cbn [app].
    rewrite feed_field by (auto; by right).
    apply delimiterOK_spec in Hd as Hd'. destruct Hd' as (Hde & _).
    unfold stateAfter. rewrite Hde.
    rewrite IH by done. by rewrite <- app_assoc.
Qed.

Lemma feed_open d rest ls fs n :
  quoteOK d = true →
  feedList (quoteOf d :: rest) (mkReader d ls fs "" false START_FIELD n)
  = feedList rest (mkReader d ls fs "" false IN_QUOTED_FIELD n).
Proof.
  intros Hq.
  apply quoteOK_spec in Hq as (Hqc & Hqeor & Hqnul & Hnone & Hqesc & Hqq).
  cbn [feedList]. rewrite Hqnul. unfold processChar, processCharAt.
  cbn [state dialect].
  unfold isQuote. rewrite Hqeor, Hqq, Hnone. cbn [negb andb].
  by reader_simpl.
Qed.

Lemma feed_close d x rest ls fs f n :
  quoteOK d = true →
  feedList (quoteOf d :: x :: rest)
    (mkReader d ls fs f false IN_QUOTED_FIELD n)
  = feedList (x :: rest)
      (mkReader d ls fs f false
         (if doubleQuote d then QUOTE_IN_QUOTED_FIELD else IN_FIELD) n).
Proof.
  intros Hq.
  apply quoteOK_spec in Hq as (Hqc & Hqeor & Hqnul & Hnone & Hqesc & Hqq).
  rewrite feedList_cons, processChar_in_quoted by done.
  unfold isQuote. by rewrite Hqesc, Hqq, Hnone.
Qed.

(** The end of a line inside quotes, with another line to come. *)
Lemma feed_break t d l2 rest fs f nf n :
  endOfRecord t = true → isChar t (escapeChar d) = false →
  quoteOK d = true →
  feedList [t]
    (mkReader d (HasNextIterator.new (l2 :: rest)) fs f nf
       IN_QUOTED_FIELD n)
  = Normal tt
      (mkReader d (HasNextIterator.mk rest [l2]) fs (f +:+ chr t) nf
         IN_QUOTED_FIELD n).
Proof.
  intros Ht He Hq. apply quoteOK_spec in Hq as (Hqc & Hqeor & _).
  assert (isChar t (quoteChar d) = false) as Htq.
  { rewrite Hqc. cbn. apply Ascii.eqb_neq. intros ->. congruence. }
  cbn [feedList]. rewrite endOfRecord_not_nul by done.
  unfold processChar, processCharAt, endOfData.
  cbn [state dialect lines HasNextIterator.hasNext HasNextIterator.new
       HasNextIterator.next HasNextIterator.nextValues
       HasNextIterator.iterator negb app].
  unfold isQuote. rewrite He, Htq. cbn [andb]. by reader_simpl.
Qed.

Lemma feed_closeLine d ts post t ls fs f n :
  delimiterOK d = true → quoteOK d = true →
  forallb (qtokenOK d) ts = true → forallb (fieldOK d) post = true →
  endOfRecord t = true →
  feedList (closeLine d ts post t)
    (mkReader d ls fs f false IN_QUOTED_FIELD n)
  = Normal tt
      (mkReader d ls
         (fs ++ FString (f +:+ quotedText d ts) :: (fieldValue d <$> post))
         "" false START_RECORD n).
Proof.
  intros Hd Hq Hts Hpost Ht. unfold closeLine, quotedText.
  rewrite feed_qtokens by done. destruct post as [|g post].
  - cbn [app]. rewrite feed_close by done.
    rewrite feed_separator_closed by (auto; by left).
    unfold stateAfter. by rewrite Ht.
  - cbn [app]. rewrite feed_close by done.
    rewrite feed_separator_closed by (auto; by right).
    apply delimiterOK_spec in Hd as Hd'. destruct Hd' as (Hde & _).
    unfold stateAfter. rewrite Hde.
    rewrite feed_fields by done. by rewrite <- app_assoc.
Qed.

Lemma renderPrefix_ordinary d pre :
  delimiterOK d = true → forallb (fieldOK d) pre = true →
  Forall (λ c, ordinary c = true) (renderPrefix d pre).
Proof.
  intros Hd Hpre.
  assert (Hdel : ordinary (delimiter d) = true).
  { unfold delimiterOK in Hd. cbn zeta in Hd.
    by apply andb_true_iff in Hd
      as [[[? _]%andb_true_iff _]%andb_true_iff _]. }
  induction pre as [|f pre IH]; [constructor|].
  cbn [forallb] in Hpre. apply andb_true_iff in Hpre as [Hf Hpre].
  rewrite renderPrefix_cons. apply Forall_app.
  split; [by apply renderField_ordinary|]. constructor; [done|by apply IH].
Qed.

Lemma openLine_head d pre pad ts t :
  delimiterOK d = true → quoteOK d = true →
  forallb (fieldOK d) pre = true →
  ∃ c l, openLine d pre pad ts t = c :: l ∧ ordinary c = true.
Proof.
  intros Hd Hq Hpre.
  pose proof (renderPrefix_ordinary d pre Hd Hpre) as Hord.
  apply quoteOK_spec in Hq as (_ & Hqeor & Hqnul & _).
  assert (Hquote : ordinary (quoteOf d) = true).
  { unfold ordinary. by rewrite Hqeor, Hqnul. }
  unfold openLine. destruct (renderPrefix d pre) as [|c l].
  - destruct pad as [|pad]; cbn; eauto using ordinary_space.
  - apply Forall_cons_1 in Hord as [Hc _]. cbn. eauto.
Qed.

Lemma feed_openLine d pre pad ts t l2 rest n :
  delimiterOK d = true → quoteOK d = true → padOK d pad = true →
  forallb (fieldOK d) pre = true → forallb (qtokenOK d) ts = true →
  endOfRecord t = true → isChar t (escapeChar d) = false →
  feedList (openLine d pre pad ts t)
    (mkReader d (HasNextIterator.new (l2 :: rest)) [] "" false
       START_RECORD n)
  = Normal tt
      (mkReader d (HasNextIterator.mk rest [l2]) (fieldValue d <$> pre)
         (quotedText d ts +:+ chr t) false IN_QUOTED_FIELD n).
Proof.
  intros Hd Hq Hpad Hpre Hts Ht He.
  destruct (openLine_head d pre pad ts t Hd Hq Hpre) as (c & l & E & Hc).
  rewrite E, feedList_start_record, <- E by done.
  unfold openLine, quotedText.
  rewrite feed_prefix, feed_pad, feed_open, feed_qtokens by done.
  rewrite append_nil_l. cbn [app]. by rewrite feed_break.
Qed.

Lemma nextLoop_buffered fuel d line rest fs f nf st n :
  line ≠ "" →
  nextLoop (S fuel) (mkReader d (HasNextIterator.mk rest [line]) fs f
                       nf st n)
  = match feedLine line
            (mkReader d (HasNextIterator.new rest) fs f nf st (S n)) with
    | None => None
    | Some (Throw m r3) => Some (Throw m r3)
    | Some (Normal _ r3) =>
        if ParserState_eqb (state r3) START_RECORD then Some (returnRow r3)
        else nextLoop fuel r3
    end.
Proof. intros Hne. by destruct line. Qed.

Lemma next_broken_row d pre pad ts1 t1 ts2 post t2 l1 l2 rest fs0 nf0 st0 n :
  delimiterOK d = true → quoteOK d = true → padOK d pad = true →
  forallb (fieldOK d) pre = true → forallb (qtokenOK d) ts1 = true →
  forallb (qtokenOK d) ts2 = true → forallb (fieldOK d) post = true →
  endOfRecord t1 = true → isChar t1 (escapeChar d) = false →
  endOfRecord t2 = true →
  list_ascii_of_string l1 = openLine d pre pad ts1 t1 →
  list_ascii_of_string l2 = closeLine d ts2 post t2 →
  next (mkReader d (HasNextIterator.new (l1 :: l2 :: rest)) fs0 "" nf0 st0
          n)
  = Some (Normal
            {| value :=
                 (fieldValue d <$> pre)
                 ++ FString (quotedText d ts1 +:+ chr t1
                             +:+ quotedText d ts2)
                    :: (fieldValue d <$> post);
               done := false |}
            (mkReader d (HasNextIterator.new rest) [] "" false START_RECORD
               (S (S n)))).
Proof.
  intros Hd Hq Hpad Hpre Hts1 Hts2 Hpost Ht1 He Ht2 H1 H2.
  unfold next, reset. reader_simpl.
  rewrite nextLoop_line.
  2: { intros ->. cbn in H1.
       destruct (openLine_head d pre pad ts1 t1 Hd Hq Hpre)
         as (c & l & E & _). congruence. }
  rewrite feedLine_feedList, H1, feed_openLine by done.
  cbn [state ParserState_eqb HasNextIterator.pending HasNextIterator.new
       HasNextIterator.nextValues HasNextIterator.iterator app length].
  rewrite nextLoop_buffered.
  2: { intros ->. cbn in H2. unfold closeLine in H2.
       by destruct (mjoin (renderQToken d <$> ts2)). }
  rewrite feedLine_feedList, H2, feed_closeLine by done.
  cbn [state ParserState_eqb]. unfold returnRow. reader_simpl.
  by rewrite append_assoc.
Qed.

Lemma openLine_body d pre pad ts t :
  openLine d pre pad ts t = openBody d pre pad ts ++ [t].
Proof.
  unfold openLine, openBody. rewrite <- !app_assoc. by cbn [app].
Qed.

Lemma closeLine_body d ts post t :
  closeLine d ts post t = closeBody d ts post ++ [t].
Proof.
  unfold closeLine, closeBody. rewrite <- !app_assoc. by cbn [app].
Qed.

Lemma openBody_ordinary d pre pad ts :
  delimiterOK d = true → quoteOK d = true → padOK d pad = true →
  forallb (fieldOK d) pre = true → forallb (qtokenOK d) ts = true →
  Forall (λ c, ordinary c = true) (openBody d pre pad ts).
Proof.
  intros Hd Hq Hpad Hpre Hts. unfold openBody.
  apply Forall_app. split; [by apply renderPrefix_ordinary|].
  assert (fieldOK d (Quoted pad ts) = true) as Hf.
  { cbn [fieldOK]. by rewrite Hpad, Hq, Hts. }
  apply renderField_ordinary in Hf. cbn [renderField] in Hf.
  change (quoteOf d :: mjoin (renderQToken d <$> ts) ++ [quoteOf d])
    with ((quoteOf d :: mjoin (renderQToken d <$> ts)) ++ [quoteOf d])
    in Hf.
  rewrite app_assoc in Hf. by apply Forall_app in Hf as [Hf _].
Qed.

Lemma closeBody_ordinary d ts post :
  delimiterOK d = true → quoteOK d = true →
  forallb (qtokenOK d) ts = true → forallb (fieldOK d) post = true →
  Forall (λ c, ordinary c = true) (closeBody d ts post).
Proof.
  intros Hd Hq Hts Hpost.
  assert (rowOK d (Quoted 0 ts :: post) = true) as Hrow.
  { unfold rowOK. cbn [forallb fieldOK]. rewrite Hd, Hq, Hts, Hpost.
    done. }
  apply renderRow_ordinary in Hrow.
  assert (renderRow d (Quoted 0 ts :: post)
          = quoteOf d :: closeBody d ts post) as E.
  { unfold closeBody. destruct post; cbn [renderRow renderField replicate app].
    - by rewrite app_nil_r.
    - by rewrite <- app_assoc. }
  rewrite E in Hrow. by apply Forall_cons_1 in Hrow as [_ ?].
Qed.

Lemma sourceLines_two body1 term t body2 term2 :
  plain body1 = true → plain body2 = true → body2 ≠ "" →
  lineBreak term t → term2 = CRLF ∨ term2 = chr LF →
  sourceLines (body1 +:+ term +:+ body2 +:+ term2)
  = [body1 +:+ chr t; body2 +:+ chr LF].
Proof.
  intros Hb1 Hb2 Hne Hbreak Hterm2. unfold sourceLines.
  assert (Hlast : splitLinesFrom "" (body2 +:+ term2) = [body2 +:+ term2]).
  { destruct (splitLinesFrom_plain body2 "" "" Hb2) as [H1 H2].
    rewrite !append_nil_r, !append_nil_l in H1, H2.
    by destruct Hterm2 as [-> | ->]. }
  assert (Hsplit : splitLines (body1 +:+ term +:+ body2 +:+ term2)
                   = [body1 +:+ term; body2 +:+ term2]).
  { unfold splitLines.
    destruct (splitLinesFrom_plain body1 "" (body2 +:+ term2) Hb1)
      as [H1 H2].
    rewrite append_nil_l in H1, H2.
    destruct Hbreak as [[-> _] | [[-> _] | [-> _]]].
    - by rewrite H1, Hlast.
    - by rewrite H2, Hlast.
    - destruct body2 as [|c body2]; [done|].
      cbn in Hb2. apply andb_true_iff in Hb2 as [Hc _].
      apply negb_true_iff, orb_false_iff in Hc as [Hlf _].
      rewrite append_cons, splitLinesFrom_cr by done.
      rewrite <- append_cons, Hlast. by rewrite append_nil_l. }
  assert (Hterminated : terminated (body1 +:+ term +:+ body2 +:+ term2)
                        = body1 +:+ term +:+ body2 +:+ term2).
  { unfold terminated.
    assert (endsWith (body1 +:+ term +:+ body2 +:+ term2) (chr LF) = true)
      as ->; [|by rewrite andb_false_r].
    apply endsWith_spec. destruct Hterm2 as [-> | ->].
    - exists (body1 +:+ term +:+ body2 +:+ chr CR).
      unfold CRLF. change (String CR (chr LF)) with (chr CR +:+ chr LF).
      by rewrite !append_assoc.
    - exists (body1 +:+ term +:+ body2). by rewrite !append_assoc. }
  rewrite Hterminated, Hsplit. cbn [fmap list_fmap]. f_equal.
  - destruct Hbreak as [[-> ->] | [[-> ->] | [-> ->]]].
    + apply replaceCrlfAtEnd_crlf.
    + by apply replaceCrlfAtEnd_other.
    + by apply replaceCrlfAtEnd_other.
  - f_equal. destruct Hterm2 as [-> | ->].
    + apply replaceCrlfAtEnd_crlf.
    + by apply replaceCrlfAtEnd_other.
Qed.

Lemma forOf_step {Y : Type} (body : Row → list Y) fuel r :
  forOf (S fuel) body r
  = match next r with
    | None => None
    | Some (Throw m _) => Some {| yielded := []; thrown := Some m |}
    | Some (Normal res r') =>
        if done res then Some {| yielded := []; thrown := None |}
        else
          match forOf fuel body r' with
          | None => None
          | Some g =>
              Some {| yielded := body (value res) ++ yielded g;
                      thrown := thrown g |}
          end
    end.
Proof. reflexivity. Qed.

Lemma closeBody_not_empty d ts post :
  string_of_list_ascii (closeBody d ts post) ≠ "".
Proof.
  intros E. apply (f_equal list_ascii_of_string) in E.
  rewrite list_ascii_of_string_of_list_ascii in E. unfold closeBody in E.
  by destruct (mjoin (renderQToken d <$> ts)).
Qed.

Lemma reader_broken_row d pre pad ts1 ts2 post term t term2 :
  delimiterOK d = true → quoteOK d = true → padOK d pad = true →
  forallb (fieldOK d) pre = true → forallb (qtokenOK d) ts1 = true →
  forallb (qtokenOK d) ts2 = true → forallb (fieldOK d) post = true →
  isChar t (escapeChar d) = false →
  lineBreak term t → term2 = CRLF ∨ term2 = chr LF →
  reader (string_of_list_ascii (openBody d pre pad ts1) +:+ term
          +:+ string_of_list_ascii (closeBody d ts2 post) +:+ term2) d
  = Some {| yielded := [brokenRow d pre ts1 t ts2 post]; thrown := None |}.
Proof.
  intros Hd Hq Hpad Hpre Hts1 Hts2 Hpost He Hbreak Hterm2.
  assert (Ht : endOfRecord t = true).
  { by destruct Hbreak as [[_ ->] | [[_ ->] | [_ ->]]]. }
  unfold reader, newReader, rowsLeft.
  rewrite (sourceLines_two _ term t) by
    (auto using closeBody_not_empty, plain_ordinary, openBody_ordinary,
       closeBody_ordinary).
  cbn [lines HasNextIterator.pending HasNextIterator.new
       HasNextIterator.nextValues HasNextIterator.iterator app length].
  rewrite forOf_step.
  rewrite (next_broken_row d pre pad ts1 t ts2 post LF) by
    (try done;
     by rewrite list_ascii_of_string_append,
       list_ascii_of_string_of_list_ascii,
       ?openLine_body, ?closeLine_body).
  cbn [done value]. rewrite forOf_step, next_at_end by done.
  by cbn.
Qed.

(** ** Line breaks inside quotes *)

(** X8. A quoted field that a line end cuts goes on with the next line:
    [next] takes both lines and gives one row, the line counter two
    further, in which the end-of-record character of the first line
    stands in the text of the field. A source with such a field is thus
    read as one row where a CR LF or a LF inside the quotes has become
    LF and a lone CR has stayed CR. *)
Theorem quoted_line_break (d : Dialect) (pre : list FieldSyntax)
    (pad : nat) (ts1 ts2 : list QToken) (post : list FieldSyntax) :
  delimiterOK d = true → quoteOK d = true → padOK d pad = true →
  forallb (fieldOK d) pre = true → forallb (qtokenOK d) ts1 = true →
  forallb (qtokenOK d) ts2 = true → forallb (fieldOK d) post = true →
  (∀ t1 t2 l1 l2 rest fs0 nf0 st0 n,
     endOfRecord t1 = true → isChar t1 (escapeChar d) = false →
     endOfRecord t2 = true →
     list_ascii_of_string l1 = openLine d pre pad ts1 t1 →
     list_ascii_of_string l2 = closeLine d ts2 post t2 →
     next (mkReader d (HasNextIterator.new (l1 :: l2 :: rest)) fs0 "" nf0
             st0 n)
     = Some (Normal {| value := brokenRow d pre ts1 t1 ts2 post;
                       done := false |}
               (mkReader d (HasNextIterator.new rest) [] "" false
                  START_RECORD (S (S n)))))
  ∧ (∀ term t term2,
       lineBreak term t → isChar t (escapeChar d) = false →
       term2 = CRLF ∨ term2 = chr LF →
       reader (string_of_list_ascii (openBody d pre pad ts1) +:+ term
               +:+ string_of_list_ascii (closeBody d ts2 post) +:+ term2) d
       = Some {| yielded := [brokenRow d pre ts1 t ts2 post];
                 thrown := None |}).
Proof.
  intros Hd Hq Hpad Hpre Hts1 Hts2 Hpost. split.
  - intros t1 t2 l1 l2 rest fs0 nf0 st0 n Ht1 He Ht2 H1 H2.
    by apply (next_broken_row d pre pad ts1 t1 ts2 post t2).
  - intros term t term2 Hbreak He Hterm2.
    by apply (reader_broken_row d pre pad).
Qed.

Lemma quoted_line_break_witness :
  reader brokenCsv excel
  = Some {| yielded :=
              [[FString "1"; FString ("ab" +:+ chr LF +:+ "c");
                FString "2"]];
            thrown := None |}.
Proof.
  apply (proj2 (quoted_line_break excel [Unquoted 0 [Plain "1"%char]] 0
                  [QPlain "a"%char; QPlain "b"%char] [QPlain "c"%char]
                  [Unquoted 0 [Plain "2"%char]]
                  eq_refl eq_refl eq_refl eq_refl eq_refl eq_refl eq_refl)
           CRLF LF CRLF);
    [left; split; reflexivity | reflexivity | left; reflexivity].
Defined.

(** ** Rows and lines *)

Lemma forOf_length fuel : ∀ r g,
  field r = "" → forOf fuel (λ row, [row]) r = Some g →
  length (yielded g) ≤ length (HasNextIterator.pending (lines r)).
Proof.
  induction fuel as [|fuel IH]; intros r g Hf; [done|]. cbn [forOf].
  destruct (next r) as [[res r'|m r']|] eqn:Ho; [| |done].
  - destruct (done res) eqn:Hd; [intros ?; simplify_eq; cbn; lia|].
    destruct (forOf fuel (λ row, [row]) r') as [g'|] eqn:Hg; [|done].
    intros ?; simplify_eq. cbn.
    apply next_row in Ho as [Hf' Hlt]; [|done]. specialize (Hlt Hd).
    apply IH in Hg; [|done]. lia.
  - intros ?; simplify_eq. cbn. lia.
Qed.

(** X9. [reader] never yields more rows than the source has lines:
    every row takes at least one line. *)
Theorem rows_at_most_lines (source : string) (d : Dialect) :
  ∃ g, reader source d = Some g
       ∧ length (yielded g) ≤ length (sourceLines source).
Proof.
  destruct (reader_total source d) as [g Hg]. exists g. split; [done|].
  by apply forOf_length in Hg.
Qed.

(** ** The buffer of HasNextIterator *)

Lemma next_buffer {T : Type} (it : HasNextIterator.t T) :
  length (HasNextIterator.nextValues it) ≤ 1 →
  length (HasNextIterator.nextValues (HasNextIterator.next it).2) = 0.
Proof.
  destruct it as [[|x xs] [|v [|w vs]]]; cbn; lia.
Qed.

Lemma hasNext_buffer {T : Type} (it : HasNextIterator.t T) :
  length (HasNextIterator.nextValues it) ≤ 1 →
  length (HasNextIterator.nextValues (HasNextIterator.hasNext it).2) ≤ 1.
Proof.
  destruct it as [[|x xs] [|v [|w vs]]]; cbn; lia.
Qed.

Lemma run_buffer {T : Type} (cs : list HasNextIterator.call) :
  ∀ it : HasNextIterator.t T,
  length (HasNextIterator.nextValues it) ≤ 1 →
  length (HasNextIterator.nextValues (HasNextIterator.run cs it).2) ≤ 1.
Proof.
  induction cs as [|[] cs IH]; intros it Hit; cbn [HasNextIterator.run].
  - done.
  - pose proof (next_buffer it Hit) as Hn.
    destruct (HasNextIterator.next it) as [v it1]. cbn in Hn.
    specialize (IH it1). destruct (HasNextIterator.run cs it1) as [vs it2].
    cbn in *. apply IH. lia.
  - apply IH. by apply hasNext_buffer.
Qed.

(** X10. Whatever calls a client makes on a new HasNextIterator, the
    buffer holds at most one value, and none right after a [next()]:
    [hasNext()] looks one element ahead, never further. *)
Theorem buffer_at_most_one (T : Type) (l : list T)
    (cs : list HasNextIterator.call) :
  let it := (HasNextIterator.run cs (HasNextIterator.new l)).2 in
  length (HasNextIterator.nextValues it) ≤ 1
  ∧ length (HasNextIterator.nextValues (HasNextIterator.hasNext it).2) ≤ 1
  ∧ HasNextIterator.nextValues (HasNextIterator.next it).2 = [].
Proof.
  cbn zeta.
  pose proof (run_buffer cs (HasNextIterator.new l)) as H.
  specialize (H (Nat.le_0_l 1)).
  split; [done|]. split; [by apply hasNext_buffer|].
  apply nil_length_inv. by apply next_buffer.
Qed.

(** ** The final line break *)

Lemma terminated_newline s :
  s ≠ "" → endsWith s (chr LF) = false →
  terminated (s +:+ chr LF) = terminated s.
Proof.
  intros Hne Hend. unfold terminated. rewrite Hend.
  assert (endsWith (s +:+ chr LF) (chr LF) = true) as ->.
  { apply endsWith_spec. by exists s. }
  rewrite andb_false_r. by destruct s.
Qed.

(** X11. The line break after the last line is optional: a non-empty
    source that does not end with LF is read as the same source with LF
    added, by [reader] and by [recordReader]; and the empty source gives
    no row and no error. *)
Theorem final_newline_optional (numberToString : number → string)
    (s : string) (d : Dialect) (opts : RecordReaderOpts) :
  (s ≠ "" → endsWith s (chr LF) = false →
   reader (s +:+ chr LF) d = reader s d
   ∧ recordReader numberToString (s +:+ chr LF) opts
     = recordReader numberToString s opts)
  ∧ reader "" d = Some {| yielded := []; thrown := None |}
  ∧ recordReader numberToString "" opts
    = Some {| yielded := []; thrown := None |}.
Proof.
  split.
  - intros Hne Hend.
    assert (Hlines : sourceLines (s +:+ chr LF) = sourceLines s).
    { unfold sourceLines. by rewrite terminated_newline. }
    unfold reader, recordReader, newReader. by rewrite Hlines.
  - split; [done|]. unfold recordReader. by destruct (opt_fields opts).
Qed.

Lemma final_newline_optional_witness :
  reader ("a,b" +:+ chr LF) excel = reader "a,b" excel
  ∧ recordReader (λ _, "") ("a,b" +:+ chr LF) noOpts
    = recordReader (λ _, "") "a,b" noOpts.
Proof.
  apply (proj1 (final_newline_optional (λ _, "") "a,b" excel noOpts));
    [discriminate|reflexivity].
Defined.

(** ** The errors and the keys of recordReader *)

Lemma recordReader_thrown numberToString source opts g m :
  recordReader numberToString source opts = Some g → thrown g = Some m →
  ∃ msg n,
    ReaderError (default excel (opt_dialect opts)) (sourceLines source) msg
    ∧ m = atLine msg n
    ∧ 1 ≤ n ≤ length (sourceLines source).
Proof.
  unfold recordReader. set (d := default excel (opt_dialect opts)).
  set (r := newReader source d).
  pose proof (newReader_noEmptyLine source d) as Hno. fold r in Hno.
  destruct (opt_fields opts) as [fs|].
  - rewrite forOf_body.
    destruct (forOf (rowsLeft r) (λ row, [row]) r) as [g0|] eqn:Hg; [|done].
    cbn. intros ?; simplify_eq. cbn [thrown recordsOfRows]. intros Ht.
    destruct (forOf_thrown _ r g0 m eq_refl Hno Hg Ht)
      as (msg & n & He & -> & Hlo & Hhi).
    exists msg, n. cbn in *. split; [done|]. split; [done|lia].
  - destruct (next_counts r) as (o & k & Ho & Hd & [Hk Hdrop] & Hle & Hnum).
    specialize (Hnum Hno). rewrite Ho. destruct o as [res r'|m' r'].
    + rewrite forOf_body.
      destruct (forOf (rowsLeft r') (λ row, [row]) r') as [g0|] eqn:Hg;
        [|done].
      cbn. intros ?; simplify_eq. cbn [thrown recordsOfRows]. intros Ht.
      cbn in Hd, Hdrop, Hnum, Hk.
      apply next_row in Ho as [Hf' _]; [|done].
      assert (Hno' : noEmptyLine r').
      { unfold noEmptyLine in *. rewrite Hdrop. by apply Forall_drop. }
      destruct (forOf_thrown _ r' g0 m Hf' Hno' Hg Ht)
        as (msg & n & He & -> & Hlo & Hhi).
      exists msg, n. rewrite Hd, Hdrop in He.
      rewrite Hdrop, length_drop in Hhi.
      split; [|split; [done|lia]].
      eapply ReaderError_mono; [exact He|].
      intros x Hx. by eapply elem_of_drop_further.
    + intros ?; simplify_eq. cbn. intros ?; simplify_eq.
      apply next_throw in Ho as (msg & He & -> & _ & Hlt).
      specialize (Hlt eq_refl). cbn in *.
      exists msg, (lineNum r'). split; [done|]. split; [done|lia].
Qed.

(** X12. [recordReader] returns, and what it throws is what the Reader
    throws: one of the four messages for the dialect and the lines of
    the source, followed by [, at line n] with n the number of a line of
    the source. Under a dialect that is not strict and whose quoting is
    not NON_NUMERIC it throws nothing on a source without NUL byte. *)
Theorem record_reader_errors (numberToString : number → string)
    (source : string) (opts : RecordReaderOpts) :
  let d := default excel (opt_dialect opts) in
  ∃ g, recordReader numberToString source opts = Some g
    ∧ (∀ m, thrown g = Some m →
         ∃ msg n, ReaderError d (sourceLines source) msg
           ∧ m = atLine msg n
           ∧ 1 ≤ n ≤ length (sourceLines source))
    ∧ (strict d = false → quoting d ≠ NON_NUMERIC →
       noNul source = true → thrown g = None).
Proof.
  cbn zeta.
  destruct (recordReader_total numberToString source opts) as [g Hg].
  exists g. split; [done|]. split.
  - intros m Ht. by apply (recordReader_thrown numberToString _ _ g).
  - intros Hs Hq Hn. destruct (thrown g) as [m|] eqn:Ht; [|done]. exfalso.
    destruct (recordReader_thrown numberToString _ _ g m Hg Ht)
      as (msg & n & He & _ & _).
    destruct He as [H|H|text H _|line Hin Hnul]; try congruence.
    apply noNul_sourceLines in Hn.
    rewrite Forall_forall in Hn. apply Hn in Hin.
    by apply noNul_spec in Hin.
Qed.

Section RecordKeys.
Variable numberToString : number → string.

Lemma foldl_insert_is_Some (es : list (Key * Value)) (name : string) :
  ∀ o : gmap string Value,
  is_Some (foldl (λ o e, <[toPropertyKey numberToString e.1 := e.2]> o)
             o es !! name)
  ↔ is_Some (o !! name)
    ∨ name ∈ toPropertyKey numberToString <$> es.*1.
Proof.
  induction es as [|e es IH]; intros o; cbn.
  - rewrite elem_of_nil. tauto.
  - rewrite IH, lookup_insert_is_Some, elem_of_cons.
    destruct (decide (toPropertyKey numberToString e.1 = name))
      as [Heq|Hne].
    + split; intros _; [right|left]; left; done.
    + split.
      * intros [[?|[_ ?]]|?]; auto.
      * intros [?|[?|?]]; auto.
Qed.

Lemma fromEntries_is_Some (keys : list Key) (values : list Value) name :
  length keys = length values →
  is_Some (fromEntries numberToString (zip_with pair keys values) !! name)
  ↔ name ∈ toPropertyKey numberToString <$> keys.
Proof.
  intros Hlen. unfold fromEntries.
  rewrite foldl_insert_is_Some, lookup_empty, is_Some_alt.
  rewrite fst_zip by lia. tauto.
Qed.

Lemma record_names headers opts row :
  row ≠ [] →
  ∃ record,
    recordsOf numberToString headers opts row = [record]
    ∧ ∀ name,
        is_Some (record !! name)
        ↔ (∃ hd, hd ∈ headers
                 ∧ name = toPropertyKey numberToString (KField hd))
          ∨ (length headers < length row
             ∧ name = match opt_restKey opts with
                      | Some k => k
                      | None => "undefined"
                      end).
Proof.
  intros Hrow. eexists. split; [by apply recordsOf_entries|].
  intros name.
  assert (toPropertyKey numberToString (restKeyOf opts)
          = match opt_restKey opts with
            | Some k => k
            | None => "undefined"
            end) as <-.
  { unfold restKeyOf. by destruct (opt_restKey opts). }
  rewrite fromEntries_is_Some by apply length_keysOf_valuesOf.
  unfold keysOf. rewrite fmap_app, elem_of_app, <- list_fmap_compose.
  rewrite list_elem_of_fmap.
  destruct (Nat.ltb_spec (length headers) (length row)) as [Hlt|Hge].
  - cbn. rewrite list_elem_of_singleton. split.
    + intros [(hd & -> & Hin) | ->]; [left; by exists hd|by right].
    + intros [(hd & Hin & ->)|[_ ->]]; [left; by exists hd|by right].
  - cbn. rewrite elem_of_nil. split.
    + intros [(hd & -> & Hin)|[]]. left. by exists hd.
    + intros [(hd & Hin & ->)|[Hlt _]]; [left; by exists hd|lia].
Qed.
End RecordKeys.

(** X13. The record of a non-empty row has a property for every header
    and, when the row has more values than there are headers, one for
    the rest key, the [restKey] option or [undefined] when that is not
    set; it has no other property. *)
Theorem record_keys (numberToString : number → string)
    (headers : list Field) (opts : RecordReaderOpts) (row : Row) :
  row ≠ [] →
  ∃ record,
    recordsOf numberToString headers opts row = [record]
    ∧ ∀ name,
        is_Some (record !! name)
        ↔ (∃ hd, hd ∈ headers
                 ∧ name = toPropertyKey numberToString (KField hd))
          ∨ (length headers < length row
             ∧ name = match opt_restKey opts with
                      | Some k => k
                      | None => "undefined"
                      end).
Proof. apply record_names. Qed.

Lemma record_keys_witness :
  ∃ record,
    recordsOf (λ _, "") [FString "a"] noOpts [FString "1"; FString "2"]
    = [record]
    ∧ ∀ name,
        is_Some (record !! name)
        ↔ (∃ hd, hd ∈ [FString "a"]
                 ∧ name = toPropertyKey (λ _, "") (KField hd))
          ∨ (1 < 2 ∧ name = "undefined").
Proof.
  apply (record_keys (λ _, "") [FString "a"] noOpts
           [FString "1"; FString "2"]).
  discriminate.
Defined.

(** ** An escaped line end outside quotes *)

Lemma renderTokens_ordinary d ts :
  forallb (tokenOK d) ts = true →
  Forall (λ c, ordinary c = true) (mjoin (renderToken d <$> ts)).
Proof.
  induction ts as [|t ts IH]; [constructor|].
  cbn [forallb]. intros [Ht Hts]%andb_true_iff.
  cbn. apply Forall_app. split; [|by apply IH].
  destruct t as [c|c]; cbn [tokenOK renderToken] in *.
  - apply andb_true_iff in Ht as [[Ho _]%andb_true_iff _].
    by repeat constructor.
  - apply andb_true_iff in Ht as [Ho He].
    apply escapeOK_spec in He as (_ & Heeor & Henul & _).
    repeat constructor; [|done]. unfold ordinary. by rewrite Heeor, Henul.
Qed.

Lemma ordinary_head (l rest : list ascii) :
  Forall (λ c, ordinary c = true) l → l ≠ [] →
  ∃ c l', l ++ rest = c :: l' ∧ ordinary c = true.
Proof.
  intros Hl Hne. destruct l as [|c l]; [done|].
  apply Forall_cons_1 in Hl as [Hc _]. by exists c, (l ++ rest).
Qed.

Lemma escapedBody_ordinary d pre pad ts :
  delimiterOK d = true → escapeOK d = true →
  forallb (fieldOK d) pre = true → forallb (tokenOK d) ts = true →
  Forall (λ c, ordinary c = true) (escapedBody d pre pad ts).
Proof.
  intros Hd He Hpre Hts. unfold escapedBody.
  apply Forall_app. split; [by apply renderPrefix_ordinary|].
  apply Forall_app. split; [by apply Forall_replicate|].
  apply Forall_app. split; [by apply renderTokens_ordinary|].
  apply escapeOK_spec in He as (_ & Heeor & Henul & _).
  repeat constructor. unfold ordinary. by rewrite Heeor, Henul.
Qed.

Lemma resumedBody_ordinary d ts post :
  delimiterOK d = true →
  forallb (tokenOK d) ts = true → forallb (fieldOK d) post = true →
  Forall (λ c, ordinary c = true) (resumedBody d ts post).
Proof.
  intros Hd Hts Hpost. unfold resumedBody.
  apply Forall_app. split; [by apply renderTokens_ordinary|].
  destruct post as [|g post]; [constructor|].
  constructor.
  - unfold delimiterOK in Hd. cbn zeta in Hd.
    by apply andb_true_iff in Hd
      as [[[? _]%andb_true_iff _]%andb_true_iff _].
  - apply renderRow_ordinary. unfold rowOK. by rewrite Hd, Hpost.
Qed.

(** The escape character and the end of the line after it. *)
Lemma feed_escaped_break st t rest d ls fs f nf n :
  st = START_FIELD ∨ st = IN_FIELD →
  escapeOK d = true → endOfRecord t = true →
  feedList (escapeOf d :: t :: rest) (mkReader d ls fs f nf st n)
  = feedList rest
      (mkReader d ls fs (f +:+ chr t) nf AFTER_ESCAPED_CRLF n).
Proof.
  intros Hst He Ht.
  apply escapeOK_spec in He as (_ & Heeor & Henul & Heq & Hee).
  cbn [feedList]. rewrite Henul, endOfRecord_not_nul by done.
  unfold processChar, processCharAt.
  destruct Hst as [-> | ->]; cbn [state dialect set_state];
    rewrite Heeor, ?Heq, Hee; cbn [state dialect set_state];
    by rewrite Ht.
Qed.

Lemma feedList_after_escaped c l d ls fs f nf n :
  ordinary c = true →
  feedList (c :: l) (mkReader d ls fs f nf AFTER_ESCAPED_CRLF n)
  = feedList (c :: l) (mkReader d ls fs f nf IN_FIELD n).
Proof.
  intros [Hc Hnul]%ordinary_spec. cbn [feedList]. rewrite Hnul.
  unfold processChar. cbn [state]. by rewrite Hc.
Qed.

Lemma feed_escapedOpen d pre pad ts t ls n :
  delimiterOK d = true → escapeOK d = true → padOK d pad = true →
  forallb (fieldOK d) pre = true →
  forallb (tokenOK d) ts = true → startOK d ts = true →
  endOfRecord t = true →
  feedList (escapedBody d pre pad ts ++ [t])
    (mkReader d ls [] "" false START_RECORD n)
  = Normal tt
      (mkReader d ls (fieldValue d <$> pre) (unquotedText ts +:+ chr t)
         (marked d (Unquoted 0 ts)) AFTER_ESCAPED_CRLF n).
Proof.
  intros Hd He Hpad Hpre Hts Hstart Ht.
  destruct (ordinary_head (escapedBody d pre pad ts) [t])
    as (c & l & E & Hc).
  { by apply escapedBody_ordinary. }
  { unfold escapedBody. intros H.
    apply app_eq_nil in H as [_ H]. apply app_eq_nil in H as [_ H].
    by apply app_eq_nil in H as [_ H]. }
  rewrite E, feedList_start_record, <- E by done.
  unfold escapedBody, unquotedText. rewrite <- !app_assoc.
  rewrite feed_prefix, feed_pad by done. cbn [app].
  destruct ts as [|tk ts].
  - cbn [fmap list_fmap mjoin list_join app].
    by rewrite (feed_escaped_break START_FIELD) by auto.
  - rewrite feed_unquoted by done.
    by rewrite (feed_escaped_break IN_FIELD) by auto.
Qed.

Lemma feed_resumed d ts post t ls fs f nf n :
  delimiterOK d = true →
  forallb (tokenOK d) ts = true → forallb (fieldOK d) post = true →
  ts ≠ [] ∨ post ≠ [] → endOfRecord t = true →
  negb nf || negb (isNaN (Number (f +:+ unquotedText ts))) = true →
  feedList (resumedBody d ts post ++ [t])
    (mkReader d ls fs f nf AFTER_ESCAPED_CRLF n)
  = Normal tt
      (mkReader d ls
         (fs ++ completed nf (f +:+ unquotedText ts)
             :: (fieldValue d <$> post))
         "" false START_RECORD n).
Proof.
  intros Hd Hts Hpost Hne Ht Hnum.
  destruct (ordinary_head (resumedBody d ts post) [t])
    as (c & l & E & Hc).
  { by apply resumedBody_ordinary. }
  { unfold resumedBody. intros H. apply app_eq_nil in H as [H1 H2].
    destruct Hne as [Hne|Hne].
    - destruct ts as [|[x|x] ts]; done.
    - by destruct post. }
  rewrite E, feedList_after_escaped, <- E by done.
  unfold resumedBody, unquotedText in *. rewrite <- app_assoc.
  rewrite feed_tokens by done.
  destruct post as [|g post].
  - cbn [app]. rewrite (feed_separator IN_FIELD) by (auto; by left).
    unfold stateAfter. by rewrite Ht.
  - cbn [app]. rewrite (feed_separator IN_FIELD) by (auto; by right).
    apply delimiterOK_spec in Hd as Hd'. destruct Hd' as (Hde & _).
    unfold stateAfter. rewrite Hde.
    rewrite feed_fields by done. by rewrite <- app_assoc.
Qed.

Lemma resumedBody_not_empty d ts post :
  ts ≠ [] ∨ post ≠ [] → resumedBody d ts post ≠ [].
Proof.
  unfold resumedBody. intros Hne H. apply app_eq_nil in H as [H1 H2].
  destruct Hne as [Hne|Hne].
  - destruct ts as [|[x|x] ts]; done.
  - by destruct post.
Qed.

Lemma next_escaped_row d pre pad ts1 t1 ts2 post t2 l1 l2 rest fs0 nf0 st0
    n :
  delimiterOK d = true → escapeOK d = true → padOK d pad = true →
  forallb (fieldOK d) pre = true →
  forallb (tokenOK d) ts1 = true → startOK d ts1 = true →
  forallb (tokenOK d) ts2 = true → forallb (fieldOK d) post = true →
  ts2 ≠ [] ∨ post ≠ [] →
  endOfRecord t1 = true → endOfRecord t2 = true →
  negb (marked d (Unquoted 0 ts1))
  || negb (isNaN (Number (unquotedText ts1 +:+ chr t1
                          +:+ unquotedText ts2))) = true →
  list_ascii_of_string l1 = escapedBody d pre pad ts1 ++ [t1] →
  list_ascii_of_string l2 = resumedBody d ts2 post ++ [t2] →
  next (mkReader d (HasNextIterator.new (l1 :: l2 :: rest)) fs0 "" nf0 st0
          n)
  = Some (Normal {| value := escapedRow d pre ts1 t1 ts2 post;
                    done := false |}
            (mkReader d (HasNextIterator.new rest) [] "" false START_RECORD
               (S (S n)))).
Proof.
  intros Hd He Hpad Hpre Hts1 Hstart Hts2 Hpost Hne Ht1 Ht2 Hnum H1 H2.
  unfold next, reset. reader_simpl.
  rewrite nextLoop_line by (intros ->; by destruct (escapedBody d pre pad ts1)).
  rewrite feedLine_feedList, H1, feed_escapedOpen by done.
  cbn [state ParserState_eqb HasNextIterator.pending HasNextIterator.new
       HasNextIterator.nextValues HasNextIterator.iterator app length].
  rewrite nextLoop_line by (intros ->; by destruct (resumedBody d ts2 post)).
  rewrite feedLine_feedList, H2, feed_resumed by
    (try done; by rewrite append_assoc).
  cbn [state ParserState_eqb]. unfold returnRow, escapedRow. reader_simpl.
  by rewrite append_assoc.
Qed.

Lemma reader_escaped_row d pre pad ts1 ts2 post term t term2 :
  delimiterOK d = true → escapeOK d = true → padOK d pad = true →
  forallb (fieldOK d) pre = true →
  forallb (tokenOK d) ts1 = true → startOK d ts1 = true →
  forallb (tokenOK d) ts2 = true → forallb (fieldOK d) post = true →
  ts2 ≠ [] ∨ post ≠ [] →
  lineBreak term t → term2 = CRLF ∨ term2 = chr LF →
  negb (marked d (Unquoted 0 ts1))
  || negb (isNaN (Number (unquotedText ts1 +:+ chr t
                          +:+ unquotedText ts2))) = true →
  reader (string_of_list_ascii (escapedBody d pre pad ts1) +:+ term
          +:+ string_of_list_ascii (resumedBody d ts2 post) +:+ term2) d
  = Some {| yielded := [escapedRow d pre ts1 t ts2 post];
            thrown := None |}.
Proof.
  intros Hd He Hpad Hpre Hts1 Hstart Hts2 Hpost Hne Hbreak Hterm2 Hnum.
  assert (Ht : endOfRecord t = true).
  { by destruct Hbreak as [[_ ->] | [[_ ->] | [_ ->]]]. }
  unfold reader, newReader, rowsLeft.
  rewrite (sourceLines_two _ term t); try done.
  2: { by apply plain_ordinary, escapedBody_ordinary. }
  2: { by apply plain_ordinary, resumedBody_ordinary. }
  2: { intros E. apply (f_equal list_ascii_of_string) in E.
       rewrite list_ascii_of_string_of_list_ascii in E.
       by apply (resumedBody_not_empty d ts2 post). }
  cbn [lines HasNextIterator.pending HasNextIterator.new
       HasNextIterator.nextValues HasNextIterator.iterator app length].
  rewrite forOf_step.
  rewrite (next_escaped_row d pre pad ts1 t ts2 post LF) by
    (try done;
     by rewrite list_ascii_of_string_append,
       list_ascii_of_string_of_list_ascii).
  cbn [done value]. rewrite forOf_step, next_at_end by done.
  by cbn.
Qed.

(** X14. A field outside quotes whose line ends right after the escape
    character goes on with the next line: [next] takes both lines and
    gives one row, the line counter two further, in which the
    end-of-record character of the first line stands in the text of the
    field; the next line must bring more of the field or another field.
    A source with such a field is thus read as one row where the escaped
    CR LF or LF has become LF and a lone CR has stayed CR. *)
Theorem escaped_line_break (d : Dialect) (pre : list FieldSyntax)
    (pad : nat) (ts1 ts2 : list Token) (post : list FieldSyntax) :
  delimiterOK d = true → escapeOK d = true → padOK d pad = true →
  forallb (fieldOK d) pre = true →
  forallb (tokenOK d) ts1 = true → startOK d ts1 = true →
  forallb (tokenOK d) ts2 = true → forallb (fieldOK d) post = true →
  ts2 ≠ [] ∨ post ≠ [] →
  (∀ t1 t2 l1 l2 rest fs0 nf0 st0 n,
     endOfRecord t1 = true → endOfRecord t2 = true →
     negb (marked d (Unquoted 0 ts1))
     || negb (isNaN (Number (unquotedText ts1 +:+ chr t1
                             +:+ unquotedText ts2))) = true →
     list_ascii_of_string l1 = escapedBody d pre pad ts1 ++ [t1] →
     list_ascii_of_string l2 = resumedBody d ts2 post ++ [t2] →
     next (mkReader d (HasNextIterator.new (l1 :: l2 :: rest)) fs0 "" nf0
             st0 n)
     = Some (Normal {| value := escapedRow d pre ts1 t1 ts2 post;
                       done := false |}
               (mkReader d (HasNextIterator.new rest) [] "" false
                  START_RECORD (S (S n)))))
  ∧ (∀ term t term2,
       lineBreak term t → term2 = CRLF ∨ term2 = chr LF →
       negb (marked d (Unquoted 0 ts1))
       || negb (isNaN (Number (unquotedText ts1 +:+ chr t
                               +:+ unquotedText ts2))) = true →
       reader (string_of_list_ascii (escapedBody d pre pad ts1) +:+ term
               +:+ string_of_list_ascii (resumedBody d ts2 post)
               +:+ term2) d
       = Some {| yielded := [escapedRow d pre ts1 t ts2 post];
                 thrown := None |}).
Proof.
  intros Hd He Hpad Hpre Hts1 Hstart Hts2 Hpost Hne. split.
  - intros t1 t2 l1 l2 rest fs0 nf0 st0 n Ht1 Ht2 Hnum H1 H2.
    by apply (next_escaped_row d pre pad ts1 t1 ts2 post t2).
  - intros term t term2 Hbreak Hterm2 Hnum.
    by apply (reader_escaped_row d pre pad).
Qed.

Lemma escaped_line_break_witness :
  reader escapedCsv escaping
  = Some {| yielded :=
              [[FString "1"; FString ("ab" +:+ chr LF +:+ "c");
                FString "2"]];
            thrown := None |}.
Proof.
  apply (proj2 (escaped_line_break escaping [Unquoted 0 [Plain "1"%char]] 0
                  [Plain "a"%char; Plain "b"%char] [Plain "c"%char]
                  [Unquoted 0 [Plain "2"%char]]
                  eq_refl eq_refl eq_refl eq_refl eq_refl eq_refl eq_refl
                  eq_refl ltac:(left; discriminate))
           CRLF LF CRLF);
    [left; split; reflexivity | left; reflexivity | reflexivity].
Defined.
